(** * typasaur: JSON value -> type tree -> TypeScript text

    A shallow embedding of the inference, unification and rendering
    functions of the typasaur command line tool, and the properties of them
    that its specification states.

    Conventions.
    - A JavaScript string is a [string]; one [ascii] stands for one UTF-16
      code unit (code units above 255 are not represented; every test the
      code makes on characters is a test on ASCII classes, which such a code
      unit fails like any other non-ASCII one).
    - A JavaScript [Map] is an association list in insertion order, updated
      with [mapSet] (overwrite in place, else append) and read with [mapGet].
    - A JavaScript [Set] of strings is the list of its members in insertion
      order, built with [setOf].
    - [undefined] payloads (an absent [isDate], [enumValues] or [sample]) are
      [None]. *)

From Stdlib Require Import List String Ascii Bool ZArith Lia Arith.
From Stdlib Require Import Permutation Sorted DecimalString DecimalNat FinFun.
Import ListNotations.

Set Warnings "-register-all".
Local Open Scope list_scope.

(* ------------------------------------------------------------------ *)
(** ** Characters and regular-expression tests *)

Module Chars.

Definition code (c : ascii) : nat := nat_of_ascii c.

Definition between (lo hi : nat) (c : ascii) : bool :=
  (lo <=? code c) && (code c <=? hi).

(** [\d] *)
Definition isDigit (c : ascii) : bool := between 48 57 c.
(** [A-Z] and [a-z] *)
Definition isUpper (c : ascii) : bool := between 65 90 c.
Definition isLower (c : ascii) : bool := between 97 122 c.
Definition isUnderscore (c : ascii) : bool := code c =? 95.
Definition isDash (c : ascii) : bool := code c =? 45.

(** [[A-Za-z0-9_-]] *)
Definition isTokenChar (c : ascii) : bool :=
  isUpper c || isLower c || isDigit c || isUnderscore c || isDash c.
(** [[A-Za-z_]] *)
Definition isIdentStart (c : ascii) : bool :=
  isUpper c || isLower c || isUnderscore c.
(** [[A-Za-z0-9_]] *)
Definition isIdentChar (c : ascii) : bool :=
  isUpper c || isLower c || isDigit c || isUnderscore c.

Fixpoint all (p : ascii -> bool) (s : string) : bool :=
  match s with
  | EmptyString => true
  | String c r => p c && all p r
  end.

End Chars.

(** [/^[A-Za-z0-9_-]+$/.test(s)] *)
Definition matchesToken (s : string) : bool :=
  match s with
  | EmptyString => false
  | String _ _ => Chars.all Chars.isTokenChar s
  end.

(** [/^[A-Za-z_][A-Za-z0-9_]*$/.test(name)] *)
Definition isValidTypescriptIdentifier (name : string) : bool :=
  match name with
  | EmptyString => false
  | String c r => Chars.isIdentStart c && Chars.all Chars.isIdentChar r
  end.

(** *** The ISO-like date pattern

    [/^\d{4}-\d{2}-\d{2}(?:[ T]\d{2}:\d{2}(?::\d{2}(?:\.\d{1,3})?)?(?:Z|[+-]\d{2}:\d{2})?)?$/]

    Every optional group starts with a character no later part can start
    with, so the match is decided by one left-to-right pass. *)
Module IsoDate.

(** exactly [n] digits *)
Fixpoint digits (n : nat) (s : string) : option string :=
  match n with
  | O => Some s
  | S n' =>
      match s with
      | String c r => if Chars.isDigit c then digits n' r else None
      | EmptyString => None
      end
  end.

Definition lit (c : ascii) (s : string) : option string :=
  match s with
  | String d r => if Ascii.eqb c d then Some r else None
  | EmptyString => None
  end.

Definition andThen (o : option string) (f : string -> option string) :=
  match o with Some s => f s | None => None end.

(** [\d{2}:\d{2}] *)
Definition hhmm (s : string) : option string :=
  andThen (andThen (digits 2 s) (lit ":")) (digits 2).

(** [(?:Z|[+-]\d{2}:\d{2})?$] *)
Definition zoneEnd (s : string) : bool :=
  match s with
  | EmptyString => true
  | String c r =>
      if Ascii.eqb c "Z" then
        match r with EmptyString => true | _ => false end
      else if Ascii.eqb c "+" || Ascii.eqb c "-" then
        match hhmm r with Some EmptyString => true | _ => false end
      else false
  end.

(** [\d{1,3}], greedy: a digit left over cannot start what follows *)
Definition upTo3Digits (s : string) : option string :=
  match digits 1 s with
  | None => None
  | Some r1 =>
      match digits 1 r1 with
      | None => Some r1
      | Some r2 =>
          match digits 1 r2 with
          | None => Some r2
          | Some r3 => Some r3
          end
      end
  end.

(** [(?::\d{2}(?:\.\d{1,3})?)?] followed by the zone and the end *)
Definition secondsZoneEnd (s : string) : bool :=
  match s with
  | String ":" r =>
      match digits 2 r with
      | None => false
      | Some (String "." f) =>
          match upTo3Digits f with
          | Some z => zoneEnd z
          | None => false
          end
      | Some z => zoneEnd z
      end
  | _ => zoneEnd s
  end.

(** [(?:[ T]\d{2}:\d{2} ...)?$] *)
Definition timeEnd (s : string) : bool :=
  match s with
  | EmptyString => true
  | String c r =>
      if Ascii.eqb c " " || Ascii.eqb c "T" then
        match hhmm r with
        | Some t => secondsZoneEnd t
        | None => false
        end
      else false
  end.

Definition test (s : string) : bool :=
  match andThen (andThen (andThen (andThen (digits 4 s) (lit "-"))
                                  (digits 2)) (lit "-")) (digits 2) with
  | Some r => timeEnd r
  | None => false
  end.

End IsoDate.

Definition isIsoLikeDateString (s : string) : bool := IsoDate.test s.

(* ------------------------------------------------------------------ *)
(** ** [JSON.stringify] on strings and on arrays of strings *)

Module Json.

Definition hexDigit (n : nat) : ascii :=
  match n with
  | 0 => "0" | 1 => "1" | 2 => "2" | 3 => "3" | 4 => "4" | 5 => "5"
  | 6 => "6" | 7 => "7" | 8 => "8" | 9 => "9" | 10 => "a" | 11 => "b"
  | 12 => "c" | 13 => "d" | 14 => "e" | _ => "f"
  end%char.

Definition backslash : ascii := ascii_of_nat 92.
Definition dquote : ascii := ascii_of_nat 34.

(** backslash followed by [c] *)
Definition esc2 (c : ascii) : string := String backslash (String c EmptyString).

(** The text one code unit is written as inside the quotes: the two-character
    escapes for the quote, the backslash and the five named controls, a
    [u00XX] escape for any other control, the unit itself otherwise. *)
Definition escapeChar (c : ascii) : string :=
  let n := Chars.code c in
  if n =? 34 then esc2 dquote
  else if n =? 92 then esc2 backslash
  else if n =? 8 then esc2 "b"
  else if n =? 12 then esc2 "f"
  else if n =? 10 then esc2 "n"
  else if n =? 13 then esc2 "r"
  else if n =? 9 then esc2 "t"
  else if n <? 32 then
    String backslash
      (String "u" (String "0" (String "0"
         (String (hexDigit (n / 16)) (String (hexDigit (n mod 16)) EmptyString)))))
  else String c EmptyString.

Fixpoint escape (s : string) : string :=
  match s with
  | EmptyString => EmptyString
  | String c r => (escapeChar c ++ escape r)%string
  end.

Definition quote : string := String dquote EmptyString.

(** [JSON.stringify(s)] for a string [s] *)
Definition stringifyString (s : string) : string :=
  (quote ++ escape s ++ quote)%string.

Fixpoint joinComma (l : list string) : string :=
  match l with
  | [] => EmptyString
  | [x] => x
  | x :: r => (x ++ "," ++ joinComma r)%string
  end.

(** [JSON.stringify(l)] for an array [l] of strings *)
Definition stringify (l : list string) : string :=
  ("[" ++ joinComma (map stringifyString l) ++ "]")%string.

(** The value of a lower-case hexadecimal digit. *)
Definition hexValue (c : ascii) : option nat :=
  let n := Chars.code c in
  if (48 <=? n) && (n <=? 57) then Some (n - 48)
  else if (97 <=? n) && (n <=? 102) then Some (n - 87)
  else None.

(** Read one escaped code unit back from the front of [s]; [None] at a
    closing quote or where no escape starts. *)
Definition readChar (s : string) : option (ascii * string) :=
  match s with
  | EmptyString => None
  | String c r =>
      if Ascii.eqb c dquote then None
      else if Ascii.eqb c backslash then
        match r with
        | String x r' =>
            if Ascii.eqb x dquote then Some (dquote, r')
            else if Ascii.eqb x backslash then Some (backslash, r')
            else if Ascii.eqb x "b" then Some (ascii_of_nat 8, r')
            else if Ascii.eqb x "f" then Some (ascii_of_nat 12, r')
            else if Ascii.eqb x "n" then Some (ascii_of_nat 10, r')
            else if Ascii.eqb x "r" then Some (ascii_of_nat 13, r')
            else if Ascii.eqb x "t" then Some (ascii_of_nat 9, r')
            else
              match r' with
              | String _ (String _ (String h (String l r''))) =>
                  match hexValue h, hexValue l with
                  | Some hv, Some lv => Some (ascii_of_nat (16 * hv + lv), r'')
                  | _, _ => None
                  end
              | _ => None
              end
        | EmptyString => None
        end
      else Some (c, r)
  end.

(** The text of [stringify l] after the opening bracket. *)
Definition tail (l : list string) : string :=
  (joinComma (map stringifyString l) ++ "]")%string.

End Json.

(* ------------------------------------------------------------------ *)
(** ** Sets and Maps of the JavaScript runtime *)

(** [set.add(x)]: a member already present keeps its place. *)
Definition setAdd (set : list string) (x : string) : list string :=
  if existsb (String.eqb x) set then set else set ++ [x].

(** [[...new Set(l)]]: the distinct members of [l] in first-seen order. *)
Definition setOf (l : list string) : list string := fold_left setAdd l [].

Abbreviation JsMap V := (list (string * V)) (only parsing).

Section JsMap.
Context {V : Type}.

(** [m.get(k)]: [None] is [undefined] *)
Fixpoint mapGet (m : JsMap V) (k : string) : option V :=
  match m with
  | [] => None
  | (k', v) :: r => if String.eqb k' k then Some v else mapGet r k
  end.

(** [m.set(k, v)] *)
Fixpoint mapSet (m : JsMap V) (k : string) (v : V) : JsMap V :=
  match m with
  | [] => [(k, v)]
  | (k', v') :: r =>
      if String.eqb k' k then (k', v) :: r else (k', v') :: mapSet r k v
  end.

(** [[...m.keys()]] and [m.size] *)
Definition mapKeys (m : JsMap V) : list string := map fst m.
Definition mapSize (m : JsMap V) : nat := List.length m.

(** What the runtime guarantees of every Map: no key occurs twice. *)
Definition mapOk (m : JsMap V) : Prop := NoDup (mapKeys m).

End JsMap.

(* ------------------------------------------------------------------ *)
(** ** The type tree *)

Record FieldInfo (T : Type) : Type := mkField { type : T; required : bool }.
Arguments mkField {T} _ _.
Arguments type {T} _.
Arguments required {T} _.

(** One constructor per value of [kind]; the payloads are the properties the
    code reads and writes. *)
Inductive TypeNode : Type :=
| TAny
| TNumber
| TBoolean
| TString (isDate : option bool) (enumValues : option (list string))
          (sample : option string)
| TArray (items : TypeNode)
| TUnion (types : list TypeNode)
| TObject (fields : JsMap (FieldInfo TypeNode)).

Inductive Kind := KAny | KNumber | KBoolean | KString | KArray | KUnion | KObject.

Definition kind (t : TypeNode) : Kind :=
  match t with
  | TAny => KAny
  | TNumber => KNumber
  | TBoolean => KBoolean
  | TString _ _ _ => KString
  | TArray _ => KArray
  | TUnion _ => KUnion
  | TObject _ => KObject
  end.

Definition Kind_eqb (j k : Kind) : bool :=
  match j, k with
  | KAny, KAny | KNumber, KNumber | KBoolean, KBoolean | KString, KString
  | KArray, KArray | KUnion, KUnion | KObject, KObject => true
  | _, _ => false
  end.

Definition isAny (t : TypeNode) : bool := Kind_eqb (kind t) KAny.
Definition isUnion (t : TypeNode) : bool := Kind_eqb (kind t) KUnion.

(** [!!x] for an optional boolean *)
Definition truthy (x : option bool) : bool :=
  match x with Some b => b | None => false end.

(** [x || []] for an optional array (an empty array is truthy) *)
Definition orEmpty (x : option (list string)) : list string :=
  match x with Some l => l | None => [] end.

(** [a.every((t, i) => p(t, b[i]))]; [b[i]] is [undefined] past the end of
    [b], where the callers below never look (they compare lengths first). *)
Fixpoint everyWith {A B : Type} (p : A -> B -> bool) (a : list A) (b : list B)
         (i : nat) : bool :=
  match a with
  | [] => true
  | t :: a' =>
      match nth_error b i with
      | Some u => p t u && everyWith p a' b (S i)
      | None => false
      end
  end.

(** Structural equality for type nodes. *)
Fixpoint areTypesEqual (a b : TypeNode) {struct a} : bool :=
  if negb (Kind_eqb (kind a) (kind b)) then false
  else
    match a, b with
    | TAny, _ | TNumber, _ | TBoolean, _ => true
    | TString aDate aEnum _, TString bDate bEnum _ =>
        Bool.eqb (truthy aDate) (truthy bDate)
        && String.eqb (Json.stringify (orEmpty aEnum)) (Json.stringify (orEmpty bEnum))
    | TArray aItems, TArray bItems => areTypesEqual aItems bItems
    | TUnion aTypes, TUnion bTypes =>
        (List.length aTypes =? List.length bTypes)
        && everyWith areTypesEqual aTypes bTypes 0
    | TObject aFields, TObject bFields =>
        if negb (mapSize aFields =? mapSize bFields) then false
        else
          forallb (fun '(k, fa) =>
                     match mapGet bFields k with
                     | None => false
                     | Some fb =>
                         Bool.eqb (required fa) (required fb)
                         && areTypesEqual (type fa) (type fb)
                     end) aFields
    | _, _ => false
    end.

(** Normalize union: any -> any, flatten, dedupe, collapse singletons.
    The argument is the [types] array of the union node passed in. *)
Definition flattenStep (flat : list TypeNode) (t : TypeNode) : list TypeNode :=
  match t with
  | TUnion ts => flat ++ ts
  | _ => if negb (existsb (fun e => areTypesEqual e t) flat) then flat ++ [t] else flat
  end.

Definition normalizeUnionType (types : list TypeNode) : TypeNode :=
  if existsb isAny types then TAny
  else
    let flat := fold_left flattenStep types [] in
    match flat with
    | [only] => only
    | _ => TUnion flat
    end.

Definition mergeStringLiteralSets (a b : option (list string)) : option (list string) :=
  match a, b with
  | None, None => None
  | _, _ => Some (setOf (orEmpty a ++ orEmpty b))
  end.

(** The body of the loop [for (const key of all)] of [unifyTypes]: [af] is
    [a.fields.get(key)] paired with [unifyTypes] applied to its type. *)
Definition unifyField (af : option (FieldInfo TypeNode * (TypeNode -> TypeNode)))
           (bf : option (FieldInfo TypeNode))
           (unified : JsMap (FieldInfo TypeNode)) (key : string) :=
  match af, bf with
  | Some (af, unifyAf), Some bf =>
      mapSet unified key (mkField (unifyAf (type bf)) (required af && required bf))
  | Some (af, _), None => mapSet unified key (mkField (type af) false)
  | None, Some bf => mapSet unified key (mkField (type bf) false)
  | None, None => unified
  end.

(** Unify two type nodes.  The recursion is on [a]: the lookup
    [a.fields.get(key)] is written [getU], which returns the field found
    together with [unifyTypes] applied to its type (see [getU_mapGet]). *)
Fixpoint unifyTypes (a b : TypeNode) {struct a} : TypeNode :=
  if areTypesEqual a b then a
  else if isAny a || isAny b then TAny
  else
    match a, b with
    | TUnion aTypes, _ => normalizeUnionType (aTypes ++ [b])
    | _, TUnion bTypes => normalizeUnionType (a :: bTypes)
    | TString aDate aEnum _, TString bDate bEnum _ =>
        TString (Some (truthy aDate || truthy bDate))
                (mergeStringLiteralSets aEnum bEnum) None
    | TArray aItems, TArray bItems => TArray (unifyTypes aItems bItems)
    | TObject aFields, TObject bFields =>
        let getU :=
          fix getU (m : JsMap (FieldInfo TypeNode)) (key : string) :=
            match m with
            | [] => None
            | (k, f) :: r =>
                if String.eqb k key then Some (f, unifyTypes (type f)) else getU r key
            end in
        let all := setOf (mapKeys aFields ++ mapKeys bFields) in
        TObject (fold_left
                   (fun unified key =>
                      unifyField (getU aFields key) (mapGet bFields key) unified key)
                   all [])
    | _, _ => normalizeUnionType [a; b]
    end.

(** Unify many type nodes into one: [nodes.reduce(unifyTypes)], which throws
    a TypeError ([None]) on an empty array. *)
Definition unifyTypesMany (nodes : list TypeNode) : option TypeNode :=
  match nodes with
  | [] => None
  | first :: rest => Some (fold_left unifyTypes rest first)
  end.

(* ------------------------------------------------------------------ *)
(** ** Inference *)

(** The JavaScript values [inferTypeFromValue] tells apart.  [VObject] holds
    [Object.entries(value)]; the payload of a number is never read.
    [VUndefined] is the one value [JSON.parse] cannot produce. *)
Inductive Value : Type :=
| VUndefined
| VNull
| VString (s : string)
| VNumber (n : Z)
| VBoolean (b : bool)
| VArray (elements : list Value)
| VObject (entries : list (string * Value)).

Record Options : Type := mkOptions {
  detectDatesFromIsoStrings : bool;
  stringEnumMinUniqueValues : Z;
  stringEnumMaxUniqueValues : Z
}.

Definition asString (v : Value) : option string :=
  match v with VString s => Some s | _ => None end.

Definition isUndefined (v : Value) : bool :=
  match v with VUndefined => true | _ => false end.

(** [arr.every((v) => typeof v === "string")] *)
Definition arrayContainsOnlyStrings (arr : list Value) : bool :=
  forallb (fun v => match asString v with Some _ => true | None => false end) arr.

(** [value.map(String)] for an array that contains only strings, on which
    [String] is the identity. *)
Definition stringsIn (arr : list Value) : list string :=
  flat_map (fun v => match asString v with Some s => [s] | None => [] end) arr.

(** [s.length > 0 && s.length <= 20 && /^[A-Za-z0-9_-]+$/.test(s)] *)
Definition isShortToken (s : string) : bool :=
  (0 <? String.length s) && (String.length s <=? 20) && matchesToken s.

(** Decide if an array of strings should be a string-literal union. *)
Definition shouldUseStringEnumForArray (stringsArray : list string) (options : Options) : bool :=
  let unique := setOf stringsArray in
  if ((Z.of_nat (List.length unique) <? stringEnumMinUniqueValues options)
      || (stringEnumMaxUniqueValues options <? Z.of_nat (List.length unique)))%Z
  then false
  else forallb isShortToken unique.

(** Sequencing of computations that may throw. *)
Definition bind {A B : Type} (x : option A) (f : A -> option B) : option B :=
  match x with Some a => f a | None => None end.

Notation "x <- e ;; k" := (bind e (fun x => k))
  (at level 61, e at next level, right associativity).

Fixpoint mapM {A B : Type} (f : A -> option B) (l : list A) : option (list B) :=
  match l with
  | [] => Some []
  | x :: r => y <- f x ;; ys <- mapM f r ;; Some (y :: ys)
  end.

(** Infer an internal type tree from any JS value; [None] is a thrown
    exception. *)
Fixpoint inferTypeFromValue (value : Value) (options : Options) {struct value}
  : option TypeNode :=
  match value with
  | VNull => Some TAny
  | VString s =>
      Some (TString (Some (detectDatesFromIsoStrings options && isIsoLikeDateString s))
                    None (Some s))
  | VNumber _ => Some TNumber
  | VBoolean _ => Some TBoolean
  | VArray elements =>
      if List.length elements =? 0 then Some (TArray TAny)
      else if arrayContainsOnlyStrings elements
              && shouldUseStringEnumForArray (stringsIn elements) options
      then
        let unique := setOf (stringsIn elements) in
        Some (TArray (TString None (Some unique) None))
      else
        itemNodes <- mapM (fun v => inferTypeFromValue v options) elements ;;
        items <- unifyTypesMany itemNodes ;;
        Some (TArray items)
  | VObject entries =>
      fields <- fold_left
                  (fun fields '(k, v) =>
                     fields <- fields ;;
                     t <- inferTypeFromValue v options ;;
                     Some (mapSet fields k (mkField t (negb (isUndefined v)))))
                  entries (Some []) ;;
      Some (TObject fields)
  | VUndefined => Some TAny
  end.

(** The object case of [unifyTypes] with [a.fields.get(key)] written as
    [mapGet] ([unifyTypes_object] shows it is the same). *)
Definition unifyFields (aFields bFields : JsMap (FieldInfo TypeNode))
  : JsMap (FieldInfo TypeNode) :=
  fold_left
    (fun unified key =>
       unifyField (option_map (fun f => (f, unifyTypes (type f))) (mapGet aFields key))
                  (mapGet bFields key) unified key)
    (setOf (mapKeys aFields ++ mapKeys bFields)) [].

(** The entry the loop of [unifyTypes] stores under [key], if any. *)
Definition unifiedField (aFields bFields : JsMap (FieldInfo TypeNode)) (key : string)
  : option (FieldInfo TypeNode) :=
  match mapGet aFields key, mapGet bFields key with
  | Some af, Some bf =>
      Some (mkField (unifyTypes (type af) (type bf)) (required af && required bf))
  | Some af, None => Some (mkField (type af) false)
  | None, Some bf => Some (mkField (type bf) false)
  | None, None => None
  end.

(** The loop over [Object.entries(value)] of [inferTypeFromValue], started
    from a Map [init] ([inferTypeFromValue_object] shows it is the same). *)
Definition inferFields (options : Options) (entries : list (string * Value))
           (init : option (JsMap (FieldInfo TypeNode))) :=
  fold_left
    (fun fields '(k, v) =>
       fields <- fields ;;
       t <- inferTypeFromValue v options ;;
       Some (mapSet fields k (mkField t (negb (isUndefined v)))))
    entries init.

(** The node inferred for one string. *)
Definition stringNode (options : Options) (s : string) : TypeNode :=
  TString (Some (detectDatesFromIsoStrings options && isIsoLikeDateString s))
          None (Some s).

(* ------------------------------------------------------------------ *)
(** ** Predicates on values and on type trees *)

(** A value [JSON.parse] can return: no [undefined] anywhere, and (as for any
    JavaScript object) no key twice among the entries of an object. *)
Fixpoint jsonDecodable (v : Value) : Prop :=
  match v with
  | VUndefined => False
  | VNull | VString _ | VNumber _ | VBoolean _ => True
  | VArray elements => fold_right (fun e p => jsonDecodable e /\ p) True elements
  | VObject entries =>
      NoDup (map fst entries)
      /\ fold_right (fun e p => jsonDecodable (snd e) /\ p) True entries
  end.

(** The shape the data model promises of a type tree, as far as the code keeps
    it: enum values are distinct; a union has at least two members, none of
    them [any] or a union; the fields of an object have distinct names. *)
Fixpoint wellFormed (t : TypeNode) : Prop :=
  match t with
  | TAny | TNumber | TBoolean => True
  | TString _ enumValues _ => NoDup (orEmpty enumValues)
  | TArray items => wellFormed items
  | TUnion types =>
      2 <= List.length types
      /\ fold_right (fun m p => (isAny m = false /\ isUnion m = false /\ wellFormed m) /\ p)
                    True types
  | TObject fields =>
      mapOk fields
      /\ fold_right (fun kf p => wellFormed (type (snd kf)) /\ p) True fields
  end.

(** Every Map in the tree has distinct keys (all a JavaScript Map can be). *)
Fixpoint mapsOk (t : TypeNode) : Prop :=
  match t with
  | TAny | TNumber | TBoolean | TString _ _ _ => True
  | TArray items => mapsOk items
  | TUnion types => fold_right (fun m p => mapsOk m /\ p) True types
  | TObject fields =>
      mapOk fields /\ fold_right (fun kf p => mapsOk (type (snd kf)) /\ p) True fields
  end.

(** Outside arrays, where nothing is unified, every field is required. *)
Fixpoint requiredOutsideArrays (t : TypeNode) : Prop :=
  match t with
  | TAny | TNumber | TBoolean | TString _ _ _ => True
  | TArray _ => True
  | TUnion types => fold_right (fun m p => requiredOutsideArrays m /\ p) True types
  | TObject fields =>
      fold_right (fun kf p =>
                    (required (snd kf) = true /\ requiredOutsideArrays (type (snd kf))) /\ p)
                 True fields
  end.

(** What [wellFormed] asks of a member of a union. *)
Definition memberOk (m : TypeNode) : Prop :=
  isAny m = false /\ isUnion m = false /\ wellFormed m.

(** What [unifyTypes] hands to [normalizeUnionType]: members, or one union of
    members to be flattened. *)
Definition flattenable (t : TypeNode) : Prop :=
  memberOk t \/ exists ts, t = TUnion ts /\ Forall memberOk ts.

(** *** The enum rule in the words of the specification *)

(** The distinct values of [l] in first-seen order. *)
Fixpoint firstSeen (l : list string) : list string :=
  match l with
  | [] => []
  | x :: r => x :: filter (fun y => negb (String.eqb x y)) (firstSeen r)
  end.

(** Non-empty, at most 20 characters, every character in [[A-Za-z0-9_-]]. *)
Definition tokenLike (s : string) : Prop :=
  s <> EmptyString
  /\ String.length s <= 20
  /\ forall c, In c (list_ascii_of_string s) -> Chars.isTokenChar c = true.

(** The distinct-value count lies within the two thresholds and every
    distinct value is token-like. *)
Definition enumCondition (strs : list string) (options : Options) : Prop :=
  (stringEnumMinUniqueValues options <= Z.of_nat (List.length (firstSeen strs))
   <= stringEnumMaxUniqueValues options)%Z
  /\ Forall tokenLike (firstSeen strs).

(** *** Equality of type trees up to order

    [sameMembers] compares two arrays as sets; [sameShape] is structural
    equality in which the members of a union and the values of an enum are
    compared as sets instead of position by position. *)
Definition sameMembers (a b : list string) : bool :=
  forallb (fun x => existsb (String.eqb x) b) a
  && forallb (fun y => existsb (String.eqb y) a) b.

Fixpoint sameShape (a b : TypeNode) {struct a} : bool :=
  match a, b with
  | TAny, TAny | TNumber, TNumber | TBoolean, TBoolean => true
  | TString aDate aEnum _, TString bDate bEnum _ =>
      Bool.eqb (truthy aDate) (truthy bDate)
      && sameMembers (orEmpty aEnum) (orEmpty bEnum)
  | TArray aItems, TArray bItems => sameShape aItems bItems
  | TUnion aTypes, TUnion bTypes =>
      forallb (fun x => existsb (sameShape x) bTypes) aTypes
      && forallb (fun y => existsb (fun x => sameShape x y) aTypes) bTypes
  | TObject aFields, TObject bFields =>
      (mapSize aFields =? mapSize bFields)
      && forallb (fun '(k, fa) =>
                    match mapGet bFields k with
                    | None => false
                    | Some fb =>
                        Bool.eqb (required fa) (required fb)
                        && sameShape (type fa) (type fb)
                    end) aFields
  | _, _ => false
  end.

(** A node that can be a member of a union handed to [normalizeUnionType]
    without being flattened or absorbing it. *)
Definition plainMember (t : TypeNode) : Prop :=
  isAny t = false /\ isUnion t = false /\ mapsOk t.

(** No member is structurally equal to a later one. *)
Definition pairwiseDistinct (l : list TypeNode) : Prop :=
  ForallOrdPairs (fun x y => areTypesEqual x y = false) l.

(** The invariant of the data model that [wellFormed] leaves out: no union
    of the tree holds two structurally equal members. *)
Fixpoint duplicateFree (t : TypeNode) : Prop :=
  match t with
  | TAny | TNumber | TBoolean | TString _ _ _ => True
  | TArray items => duplicateFree items
  | TUnion types =>
      pairwiseDistinct types
      /\ fold_right (fun m p => duplicateFree m /\ p) True types
  | TObject fields =>
      fold_right (fun kf p => duplicateFree (type (snd kf)) /\ p) True fields
  end.

(* ------------------------------------------------------------------ *)
(** ** Rendering *)

Definition newline : string := String (ascii_of_nat 10) EmptyString.

(** [parts.join(sep)] *)
Fixpoint join (sep : string) (parts : list string) : string :=
  match parts with
  | [] => EmptyString
  | [x] => x
  | x :: r => (x ++ sep ++ join sep r)%string
  end.

(** The decimal digits of [n], as [base + n] appends them. *)
Definition decimal (n : nat) : string := NilEmpty.string_of_uint (Nat.to_uint n).

(** *** Words *)

Definition lowerAscii (c : ascii) : ascii :=
  if Chars.isUpper c then ascii_of_nat (Chars.code c + 32) else c.

(** [/suffix$/i.test(text)], for a lower-case ASCII [suffix] *)
Definition endsWithIgnoringCase (suffix text : string) : bool :=
  let n := String.length suffix in
  let m := String.length text in
  (n <=? m)
  && String.eqb suffix
       (string_of_list_ascii
          (map lowerAscii (list_ascii_of_string (substring (m - n) n text)))).

(** [text.slice(0, -n)] *)
Definition dropLast (n : nat) (text : string) : string :=
  substring 0 (String.length text - n) text.

Definition singularizeWord (word : string) : string :=
  let text := word in
  if endsWithIgnoringCase "ies" text then (dropLast 3 text ++ "y")%string
  else if endsWithIgnoringCase "ses" text then (dropLast 2 text ++ "s")%string
  else if endsWithIgnoringCase "xes" text || endsWithIgnoringCase "zes" text
          || endsWithIgnoringCase "ches" text || endsWithIgnoringCase "shes" text
       then dropLast 2 text
  else if endsWithIgnoringCase "s" text && negb (endsWithIgnoringCase "ss" text)
       then dropLast 1 text
  else match text with EmptyString => "Item"%string | _ => text end.

(** [x || fallback] for a string [x] (the empty string is falsy) *)
Definition orString (x fallback : string) : string :=
  match x with EmptyString => fallback | _ => x end.

(** *** Sorting

    [entries.sort(compare)] is stable; with a comparison that is a total
    preorder it is this insertion sort ([x] goes before [y] when
    [compare(x, y) <= 0]). *)
Section Sort.
Context {A : Type} (compare : A -> A -> Z).

Fixpoint insertSorted (x : A) (sorted : list A) : list A :=
  match sorted with
  | [] => [x]
  | y :: r => if (compare x y <=? 0)%Z then x :: y :: r else y :: insertSorted x r
  end.

Definition sortBy (l : list A) : list A := fold_right insertSorted [] l.

End Sort.

(** *** The state of one call of [renderTypescriptFromTree]

    A type tree is a value without sharing, so the identity of an object node
    is its place in the tree: the indices of the children followed from the
    root. *)
Definition NodeId := list nat.

Record RenderState : Type := mkRenderState {
  namedTypeDefinitions : list string;
  objectNodeToTypeName : list (NodeId * string);
  usedTypeNames : list string
}.

Definition M (A : Type) : Type := RenderState -> A * RenderState.

Definition ret {A : Type} (x : A) : M A := fun st => (x, st).

Definition bindM {A B : Type} (m : M A) (f : A -> M B) : M B :=
  fun st => let (x, st') := m st in f x st'.

Notation "x <~ e ;; k" := (bindM e (fun x => k))
  (at level 61, e at next level, right associativity).

(** [l.map((t, i) => f(i, t))] for an [f] that works on the state *)
Fixpoint mapMi {A B : Type} (f : nat -> A -> M B) (l : list A) (i : nat) : M (list B) :=
  match l with
  | [] => ret []
  | x :: r => y <~ f i x ;; ys <~ mapMi f r (S i) ;; ret (y :: ys)
  end.

Definition nodeIdEqb (a b : NodeId) : bool :=
  if list_eq_dec Nat.eq_dec a b then true else false.

Definition memoGet (memo : list (NodeId * string)) (id : NodeId) : option string :=
  match find (fun e => nodeIdEqb (fst e) id) memo with
  | Some e => Some (snd e)
  | None => None
  end.

Definition setHas (set : list string) (x : string) : bool := existsb (String.eqb x) set.

(** [while (usedTypeNames.has(baseName + n)) n++]; [fuel] bounds the number
    of rounds ([firstFreeSuffix_free]: one more than the number of names in
    use is enough). *)
Fixpoint firstFreeSuffix (used : list string) (baseName : string) (n fuel : nat) : nat :=
  match fuel with
  | O => n
  | S fuel' =>
      if setHas used (baseName ++ decimal n)%string
      then firstFreeSuffix used baseName (S n) fuel'
      else n
  end.

Definition nextAvailableTypeName (baseName : string) : M string :=
  fun st =>
    let used := usedTypeNames st in
    if negb (setHas used baseName) then
      (baseName,
       mkRenderState (namedTypeDefinitions st) (objectNodeToTypeName st)
                     (setAdd used baseName))
    else
      let n := firstFreeSuffix used baseName 2 (S (List.length used)) in
      let finalName := (baseName ++ decimal n)%string in
      (finalName,
       mkRenderState (namedTypeDefinitions st) (objectNodeToTypeName st)
                     (setAdd used finalName)).

Definition needsParens (itemNode : TypeNode) : bool :=
  match itemNode with
  | TUnion _ => true
  | TString _ (Some (_ :: _)) _ => true
  | _ => false
  end.

Definition isObject (t : TypeNode) : bool := Kind_eqb (kind t) KObject.

Section Renderer.

(** The two functions of the host's string library the renderer calls:
    [a.localeCompare(b)] and [c.toUpperCase()] for a one-character string. *)
Variable localeCompare : string -> string -> Z.
Variable toUpperCase : ascii -> string.

Variable typeKeyword : string.

(** Preserve existing key case, just ensure first character is uppercase. *)
Definition nameFromJsonKey (jsonKey : string) (isArrayItem : bool) : string :=
  let baseRaw := if isArrayItem then singularizeWord (orString jsonKey "Item")
                 else orString jsonKey "Model" in
  match baseRaw with
  | EmptyString => "Model"%string
  | String c rest => (toUpperCase c ++ rest)%string
  end.

(** [renderBody] is the call [renderTypeNode(objectNode, jsonKeyForThisObject)]. *)
Definition ensureNamedTypeForObject (objectNode : NodeId) (jsonKeyForThisObject : string)
           (isArrayItem : bool) (renderBody : M string) : M string :=
  fun st =>
    match memoGet (objectNodeToTypeName st) objectNode with
    | Some name => (name, st)
    | None =>
        (finalName <~ nextAvailableTypeName (nameFromJsonKey jsonKeyForThisObject isArrayItem) ;;
         _ <~ (fun st => (tt, mkRenderState (namedTypeDefinitions st)
                                ((objectNode, finalName) :: objectNodeToTypeName st)
                                (usedTypeNames st))) ;;
         body <~ renderBody ;;
         _ <~ (fun st => (tt, mkRenderState
                                (namedTypeDefinitions st
                                 ++ [("export " ++ typeKeyword ++ " " ++ finalName
                                      ++ " = " ++ body ++ ";")%string])
                                (objectNodeToTypeName st) (usedTypeNames st))) ;;
         ret finalName) st
    end.

(** [inner] is the call [renderTypeNode(itemNode, parentArrayJsonKey, true)]. *)
Definition renderArrayType (itemNode : TypeNode) (inner : M string) : M string :=
  inner <~ inner ;;
  ret (if needsParens itemNode then ("(" ++ inner ++ ")[]")%string
       else (inner ++ "[]")%string).

(** One line of an object body. *)
Definition fieldLine (fieldName : string) (fieldInfo : FieldInfo TypeNode)
           (tsType : string) : string :=
  let optional := if required fieldInfo then EmptyString else "?"%string in
  let safeKey := if isValidTypescriptIdentifier fieldName then fieldName
                 else Json.stringifyString fieldName in
  ("  " ++ safeKey ++ optional ++ ": " ++ tsType ++ ";")%string.

(** An entry of [fields] with the computation of its [tsType]. *)
Definition FieldEntry : Type := string * (FieldInfo TypeNode * M string).

Definition sortEntries (entries : list FieldEntry) : list FieldEntry :=
  sortBy (fun a b => localeCompare (fst a) (fst b)) entries.

(** The loop [for (const [fieldName, fieldInfo] of sorted)]. *)
Fixpoint renderFields (sorted : list FieldEntry) : M (list string) :=
  match sorted with
  | [] => ret []
  | (fieldName, (fieldInfo, renderField)) :: r =>
      tsType <~ renderField ;;
      lines <~ renderFields r ;;
      ret (fieldLine fieldName fieldInfo tsType :: lines)
  end.

Definition renderString (isDate : option bool) (enumValues : option (list string)) : string :=
  match enumValues with
  | Some (v :: vs) => join " | " (map Json.stringifyString (v :: vs))
  | _ => if truthy isDate then "string | Date"%string else "string"%string
  end.

(** [id] is the identity of [typeNode].  The entries of an object are paired
    with the computation of their [tsType] before they are sorted, which
    keeps the recursion on the fields of [typeNode]. *)
Fixpoint renderTypeNode (typeNode : TypeNode) (parentJsonKey : string) (inArray : bool)
         (id : NodeId) {struct typeNode} : M string :=
  match typeNode with
  | TAny => ret "any"%string
  | TNumber => ret "number"%string
  | TBoolean => ret "boolean"%string
  | TString isDate enumValues _ => ret (renderString isDate enumValues)
  | TUnion types =>
      parts <~ mapMi (fun i t => renderTypeNode t parentJsonKey inArray (id ++ [i]))
                     types 0 ;;
      ret (join " | " parts)
  | TArray items =>
      renderArrayType items (renderTypeNode items parentJsonKey true (id ++ [0]))
  | TObject fields =>
      let entries :=
        (fix entries (l : list (string * FieldInfo TypeNode)) (i : nat)
           : list FieldEntry :=
           match l with
           | [] => []
           | (fieldName, fieldInfo) :: r =>
               let fid := id ++ [i] in
               (fieldName,
                (fieldInfo,
                 match type fieldInfo with
                 | TObject _ =>
                     ensureNamedTypeForObject fid fieldName false
                       (renderTypeNode (type fieldInfo) fieldName false fid)
                 | TArray items =>
                     if isObject items then
                       itemName <~ ensureNamedTypeForObject (fid ++ [0]) fieldName true
                                     (renderTypeNode items fieldName false (fid ++ [0])) ;;
                       ret (itemName ++ "[]")%string
                     else
                       renderArrayType items
                         (renderTypeNode items fieldName true (fid ++ [0]))
                 | _ => renderTypeNode (type fieldInfo) fieldName false fid
                 end))
               :: entries r (S i)
           end) fields 0 in
      let sorted := sortEntries entries in
      lines <~ renderFields sorted ;;
      ret (join newline (["{"%string] ++ lines ++ ["}"%string]))
  end.

(** The object case of [renderTypeNode] in named pieces
    ([renderTypeNode_object] shows it is the same): the computation of the
    [tsType] of one field, and the entries paired with it. *)
Definition renderFieldType (fid : NodeId) (fieldName : string)
           (fieldInfo : FieldInfo TypeNode) : M string :=
  match type fieldInfo with
  | TObject _ =>
      ensureNamedTypeForObject fid fieldName false
        (renderTypeNode (type fieldInfo) fieldName false fid)
  | TArray items =>
      if isObject items then
        itemName <~ ensureNamedTypeForObject (fid ++ [0]) fieldName true
                      (renderTypeNode items fieldName false (fid ++ [0])) ;;
        ret (itemName ++ "[]")%string
      else
        renderArrayType items (renderTypeNode items fieldName true (fid ++ [0]))
  | _ => renderTypeNode (type fieldInfo) fieldName false fid
  end.

Fixpoint fieldEntries (id : NodeId) (l : list (string * FieldInfo TypeNode)) (i : nat)
  : list FieldEntry :=
  match l with
  | [] => []
  | (fieldName, fieldInfo) :: r =>
      (fieldName, (fieldInfo, renderFieldType (id ++ [i]) fieldName fieldInfo))
      :: fieldEntries id r (S i)
  end.

(** Fields compared by name, as [sort] compares the entries; an entry
    without the computation paired with it. *)
Definition byName (a b : string * FieldInfo TypeNode) : Z :=
  localeCompare (fst a) (fst b).

Definition plainEntry (e : FieldEntry) : string * FieldInfo TypeNode :=
  (fst e, fst (snd e)).

(** The lines of an object body for fields in the order [sorted], given the
    text of the type of each. *)
Definition bodyLines (sorted : list (string * FieldInfo TypeNode)) (tsTypes : list string)
  : list string :=
  map (fun e => fieldLine (fst (fst e)) (snd (fst e)) (snd e)) (combine sorted tsTypes).

Definition header : string :=
  join newline
    ["/**";
     " * Generated by typasaur";
     " *";
     " *                    __";
     " *                   / _)";
     " *          .-^^^-/ /";
     " *      __/       /";
     " *     <__.|_|-|_|";
     " *";
     " * JSON to TypeScript Model CLI";
     " */"]%string.

Definition renderTypescriptFromTree (rootTypeName : string) (rootTypeTree : TypeNode)
  : string :=
  let st0 := mkRenderState [] [] [rootTypeName] in
  let (rootBody, st) := renderTypeNode rootTypeTree rootTypeName false [] st0 in
  let rootDecl := ("export " ++ typeKeyword ++ " " ++ rootTypeName ++ " = "
                   ++ rootBody ++ ";")%string in
  (join (newline ++ newline) ([header] ++ namedTypeDefinitions st ++ [rootDecl])
   ++ newline)%string.

End Renderer.

(** *** Two host functions on ASCII

    They stand for the host's [toUpperCase] and [localeCompare] where the
    development needs concrete ones: upper-casing of the ASCII letters, and a
    collation in which letters come in alphabetical order, lower case before
    upper case (the order [localeCompare] gives ASCII letters in the usual
    locales), after every other character. *)
Definition asciiToUpperCase (c : ascii) : string :=
  String (if Chars.isLower c then ascii_of_nat (Chars.code c - 32) else c) EmptyString.

Definition letterRank (c : ascii) : nat :=
  if Chars.isLower c then 1000 + 2 * (Chars.code c - 97)
  else if Chars.isUpper c then 1001 + 2 * (Chars.code c - 65)
  else Chars.code c.

Fixpoint alphabeticCompare (a b : string) : Z :=
  match a, b with
  | EmptyString, EmptyString => 0
  | EmptyString, String _ _ => -1
  | String _ _, EmptyString => 1
  | String x a', String y b' =>
      if (letterRank x <? letterRank y)%nat then -1
      else if (letterRank y <? letterRank x)%nat then 1
      else alphabeticCompare a' b'
  end%Z.

(** The ordinal comparison of two strings: code unit by code unit. *)
Definition ordinalCompare (a b : string) : Z :=
  match String.compare a b with
  | Lt => -1
  | Eq => 0
  | Gt => 1
  end%Z.

(* ------------------------------------------------------------------ *)
(** ** Command line and prompt helpers *)

(** The object [parseCommandLineArguments] builds: the options that take a
    value hold the token that follows them ([None] is [undefined]: no
    following token, or the option never seen), the others are [true] once
    seen. *)
Record ParsedArgs : Type := mkParsedArgs {
  model_name : option string;
  input_json : option string;
  out : option string;
  interface : bool;
  no_dates : bool;
  string_enum_min : option string;
  string_enum_max : option string;
  no_banner : bool;
  no_color : bool
}.

Definition noArgs : ParsedArgs :=
  mkParsedArgs None None None false false None None false false.

(** One round of the loop: [key] is [argvList[i]], [next] is [argvList[i + 1]]. *)
Definition parseStep (key : string) (next : option string) (p : ParsedArgs) : ParsedArgs :=
  if String.eqb key "--model-name" then
    mkParsedArgs next (input_json p) (out p) (interface p) (no_dates p)
                 (string_enum_min p) (string_enum_max p) (no_banner p) (no_color p)
  else if String.eqb key "--input-json" then
    mkParsedArgs (model_name p) next (out p) (interface p) (no_dates p)
                 (string_enum_min p) (string_enum_max p) (no_banner p) (no_color p)
  else if String.eqb key "--out" then
    mkParsedArgs (model_name p) (input_json p) next (interface p) (no_dates p)
                 (string_enum_min p) (string_enum_max p) (no_banner p) (no_color p)
  else if String.eqb key "--interface" then
    mkParsedArgs (model_name p) (input_json p) (out p) true (no_dates p)
                 (string_enum_min p) (string_enum_max p) (no_banner p) (no_color p)
  else if String.eqb key "--no-dates" then
    mkParsedArgs (model_name p) (input_json p) (out p) (interface p) true
                 (string_enum_min p) (string_enum_max p) (no_banner p) (no_color p)
  else if String.eqb key "--string-enum-min" then
    mkParsedArgs (model_name p) (input_json p) (out p) (interface p) (no_dates p)
                 next (string_enum_max p) (no_banner p) (no_color p)
  else if String.eqb key "--string-enum-max" then
    mkParsedArgs (model_name p) (input_json p) (out p) (interface p) (no_dates p)
                 (string_enum_min p) next (no_banner p) (no_color p)
  else if String.eqb key "--no-banner" then
    mkParsedArgs (model_name p) (input_json p) (out p) (interface p) (no_dates p)
                 (string_enum_min p) (string_enum_max p) true (no_color p)
  else if String.eqb key "--no-color" then
    mkParsedArgs (model_name p) (input_json p) (out p) (interface p) (no_dates p)
                 (string_enum_min p) (string_enum_max p) (no_banner p) true
  else p.

Fixpoint parseLoop (argvList : list string) (parsed : ParsedArgs) : ParsedArgs :=
  match argvList with
  | [] => parsed
  | key :: rest => parseLoop rest (parseStep key (hd_error rest) parsed)
  end.

Definition parseCommandLineArguments (argvList : list string) : ParsedArgs :=
  parseLoop argvList noArgs.

(** [parsed[name]] for the options that take a value. *)
Inductive ValueOption : Type :=
| ModelName | InputJson | Out | StringEnumMin | StringEnumMax.

Definition flagOf (o : ValueOption) : string :=
  match o with
  | ModelName => "--model-name"
  | InputJson => "--input-json"
  | Out => "--out"
  | StringEnumMin => "--string-enum-min"
  | StringEnumMax => "--string-enum-max"
  end.

Definition valueOf (o : ValueOption) (p : ParsedArgs) : option string :=
  match o with
  | ModelName => model_name p
  | InputJson => input_json p
  | Out => out p
  | StringEnumMin => string_enum_min p
  | StringEnumMax => string_enum_max p
  end.

(** The token after the last occurrence of [flag], if [flag] occurs. *)
Fixpoint lastAfter (flag : string) (argvList : list string) : option (option string) :=
  match argvList with
  | [] => None
  | key :: rest =>
      match lastAfter flag rest with
      | Some r => Some r
      | None => if String.eqb key flag then Some (hd_error rest) else None
      end
  end.

(** [token.startsWith("--")] *)
Definition startsWithDashes (token : string) : bool := String.prefix "--" token.

Definition isEmptyString (s : string) : bool :=
  match s with EmptyString => true | _ => false end.

(** Extract only flag names from argv, skipping values: the loop of the
    telemetry module, whose index jumps over a token that follows a flag and
    does not start with two dashes. *)
Fixpoint extractFlagNamesOnly (raw : list string) : list string :=
  match raw with
  | [] => []
  | token :: rest =>
      if isEmptyString token || negb (startsWithDashes token)
      then extractFlagNamesOnly rest
      else
        token ::
        match rest with
        | next :: rest' =>
            if negb (isEmptyString next) && negb (startsWithDashes next)
            then extractFlagNamesOnly rest'
            else extractFlagNamesOnly rest
        | [] => []
        end
  end.

(** The three variables [updateBalance] works on while JSON is pasted. *)
Record Balance : Type := mkBalance {
  depth : Z;
  inString : bool;
  escaped : bool
}.

(** The body of the loop of [updateBalance] for the character [ch]. *)
Definition balanceStep (b : Balance) (ch : ascii) : Balance :=
  if inString b then
    if escaped b then mkBalance (depth b) (inString b) false
    else if Ascii.eqb ch Json.backslash then mkBalance (depth b) (inString b) true
    else if Ascii.eqb ch Json.dquote then mkBalance (depth b) false (escaped b)
    else b
  else
    if Ascii.eqb ch Json.dquote then mkBalance (depth b) true (escaped b)
    else if Ascii.eqb ch "{" then mkBalance (depth b + 1) (inString b) (escaped b)
    else if Ascii.eqb ch "}" then mkBalance (depth b - 1) (inString b) (escaped b)
    else if Ascii.eqb ch "[" then mkBalance (depth b + 1) (inString b) (escaped b)
    else if Ascii.eqb ch "]" then mkBalance (depth b - 1) (inString b) (escaped b)
    else b.

Fixpoint updateBalance (chunk : string) (b : Balance) : Balance :=
  match chunk with
  | EmptyString => b
  | String ch rest => updateBalance rest (balanceStep b ch)
  end.

(* ------------------------------------------------------------------ *)
(** ** Further predicates on type trees and render states *)

(** Some string node of the tree has a truthy [isDate]. *)
Fixpoint hasDate (t : TypeNode) : bool :=
  match t with
  | TAny | TNumber | TBoolean => false
  | TString isDate _ _ => truthy isDate
  | TArray items => hasDate items
  | TUnion types => existsb hasDate types
  | TObject fields => existsb (fun kf => hasDate (type (snd kf))) fields
  end.

(** [yyyy-mm-dd]: four, two and two digits between dashes. *)
Definition dateOnly (s : string) : Prop :=
  exists y m d,
    s = (y ++ "-" ++ m ++ "-" ++ d)%string
    /\ String.length y = 4 /\ String.length m = 2 /\ String.length d = 2
    /\ Chars.all Chars.isDigit y = true
    /\ Chars.all Chars.isDigit m = true
    /\ Chars.all Chars.isDigit d = true.

(** [text] lower-cased (ASCII). *)
Definition lowerString (text : string) : string :=
  string_of_list_ascii (map lowerAscii (list_ascii_of_string text)).

(** A declaration pushed on [namedTypeDefinitions]: name and body. *)
Definition declaration (typeKeyword : string) (nb : string * string) : string :=
  ("export " ++ typeKeyword ++ " " ++ fst nb ++ " = " ++ snd nb ++ ";")%string.

(** What a rendering computation does to the state, from [st] to [st']: it
    appends declarations, registers as many nodes, under the names of these
    declarations, all new and distinct, and only adds to the names in use. *)
Definition Extends (typeKeyword : string) (st st' : RenderState) : Prop :=
  exists newDefs newMemo,
    namedTypeDefinitions st' = namedTypeDefinitions st ++ map (declaration typeKeyword) newDefs
    /\ objectNodeToTypeName st' = newMemo ++ objectNodeToTypeName st
    /\ Permutation (map fst newDefs) (map snd newMemo)
    /\ NoDup (map snd newMemo)
    /\ (forall n, In n (map snd newMemo) ->
                  ~ In n (usedTypeNames st) /\ In n (usedTypeNames st'))
    /\ incl (usedTypeNames st) (usedTypeNames st').

(** A computation that only ever extends the state in this way. *)
Definition Extending {A : Type} (typeKeyword : string) (m : M A) : Prop :=
  forall st, Extends typeKeyword st (snd (m st)).

(* ================================================================== *)
(** * Properties *)

(** ** Induction on type trees and on values *)

Section TypeNode_induction.
Variable P : TypeNode -> Prop.
Hypothesis HAny : P TAny.
Hypothesis HNumber : P TNumber.
Hypothesis HBoolean : P TBoolean.
Hypothesis HString : forall d e s, P (TString d e s).
Hypothesis HArray : forall items, P items -> P (TArray items).
Hypothesis HUnion : forall types, Forall P types -> P (TUnion types).
Hypothesis HObject :
  forall fields, Forall (fun kf => P (type (snd kf))) fields -> P (TObject fields).

Fixpoint TypeNode_nested_ind (t : TypeNode) : P t :=
  match t with
  | TAny => HAny
  | TNumber => HNumber
  | TBoolean => HBoolean
  | TString d e s => HString d e s
  | TArray items => HArray items (TypeNode_nested_ind items)
  | TUnion types =>
      HUnion types
        ((fix all (l : list TypeNode) : Forall P l :=
            match l with
            | [] => Forall_nil _
            | x :: r => Forall_cons x (TypeNode_nested_ind x) (all r)
            end) types)
  | TObject fields =>
      HObject fields
        ((fix all (l : list (string * FieldInfo TypeNode))
            : Forall (fun kf => P (type (snd kf))) l :=
            match l with
            | [] => Forall_nil _
            | kf :: r => Forall_cons kf (TypeNode_nested_ind (type (snd kf))) (all r)
            end) fields)
  end.
End TypeNode_induction.

Section Value_induction.
Variable P : Value -> Prop.
Hypothesis HUndefined : P VUndefined.
Hypothesis HNull : P VNull.
Hypothesis HString : forall s, P (VString s).
Hypothesis HNumber : forall n, P (VNumber n).
Hypothesis HBoolean : forall b, P (VBoolean b).
Hypothesis HArray : forall elements, Forall P elements -> P (VArray elements).
Hypothesis HObject :
  forall entries, Forall (fun e => P (snd e)) entries -> P (VObject entries).

Fixpoint Value_nested_ind (v : Value) : P v :=
  match v with
  | VUndefined => HUndefined
  | VNull => HNull
  | VString s => HString s
  | VNumber n => HNumber n
  | VBoolean b => HBoolean b
  | VArray elements =>
      HArray elements
        ((fix all (l : list Value) : Forall P l :=
            match l with
            | [] => Forall_nil _
            | x :: r => Forall_cons x (Value_nested_ind x) (all r)
            end) elements)
  | VObject entries =>
      HObject entries
        ((fix all (l : list (string * Value)) : Forall (fun e => P (snd e)) l :=
            match l with
            | [] => Forall_nil _
            | e :: r => Forall_cons e (Value_nested_ind (snd e)) (all r)
            end) entries)
  end.
End Value_induction.

Lemma fold_right_and_Forall {A : Type} (Q : A -> Prop) (l : list A) :
  fold_right (fun x p => Q x /\ p) True l <-> Forall Q l.
Proof.
  induction l as [|x l IH]; simpl.
  - split; auto.
  - rewrite IH. split.
    + intros [H1 H2]. now constructor.
    + intros H. inversion H; subst. now split.
Qed.

(** ** Kinds *)

Lemma Kind_eqb_eq j k : Kind_eqb j k = true <-> j = k.
Proof. destruct j, k; simpl; split; congruence. Qed.

Lemma Kind_eqb_refl k : Kind_eqb k k = true.
Proof. now apply Kind_eqb_eq. Qed.

Lemma isAny_true t : isAny t = true <-> t = TAny.
Proof. destruct t; cbv; split; congruence. Qed.

Lemma isUnion_true t : isUnion t = true <-> exists ts, t = TUnion ts.
Proof.
  destruct t as [| | | | |ts|]; cbv; split;
    try congruence; try (intros [ts' H]; congruence).
  intros _. now exists ts.
Qed.

(** ** Maps *)

Section JsMapFacts.
Context {V : Type}.
Implicit Types (m : JsMap V) (k : string) (v : V).

Lemma mapGet_In m k v : mapGet m k = Some v -> In (k, v) m.
Proof.
  induction m as [|[k' v'] m IH]; simpl; [discriminate|].
  destruct (String.eqb_spec k' k) as [->|Hne].
  - intros [= ->]. now left.
  - intros H. right. now apply IH.
Qed.

Lemma mapGet_None m k : mapGet m k = None <-> ~ In k (mapKeys m).
Proof.
  induction m as [|[k' v'] m IH]; simpl.
  - split; auto.
  - destruct (String.eqb_spec k' k) as [->|Hne].
    + split; [discriminate | intros H; exfalso; apply H; now left].
    + rewrite IH. split.
      * intros H [E|E]; [congruence | now apply H].
      * intros H E. apply H. now right.
Qed.

Lemma mapGet_Some_key m k v : mapGet m k = Some v -> In k (mapKeys m).
Proof.
  intros H. apply mapGet_In in H. unfold mapKeys.
  change k with (fst (k, v)). now apply in_map.
Qed.

Lemma mapGet_is_Some m k : In k (mapKeys m) -> exists v, mapGet m k = Some v.
Proof.
  intros H. destruct (mapGet m k) as [v|] eqn:E; [now exists v|].
  apply mapGet_None in E. contradiction.
Qed.

Lemma In_mapGet m k v : mapOk m -> In (k, v) m -> mapGet m k = Some v.
Proof.
  unfold mapOk, mapKeys.
  induction m as [|[k' v'] m IH]; simpl; [contradiction|].
  intros Hnd Hin. inversion Hnd as [|? ? Hnotin Hnd']; subst.
  destruct Hin as [[= -> ->]|Hin].
  - now rewrite String.eqb_refl.
  - destruct (String.eqb_spec k' k) as [->|Hne].
    + exfalso. apply Hnotin. change k with (fst (k, v)). now apply in_map.
    + now apply IH.
Qed.

Lemma mapKeys_mapSet_In m k v k0 :
  In k0 (mapKeys (mapSet m k v)) <-> k0 = k \/ In k0 (mapKeys m).
Proof.
  induction m as [|[k' v'] m IH]; simpl.
  - intuition congruence.
  - destruct (String.eqb_spec k' k) as [->|Hne]; simpl.
    + intuition congruence.
    + rewrite IH. intuition congruence.
Qed.

Lemma mapSet_ok m k v : mapOk m -> mapOk (mapSet m k v).
Proof.
  unfold mapOk.
  induction m as [|[k' v'] m IH]; simpl; intros Hnd.
  - constructor; [intros [] | constructor].
  - inversion Hnd as [|? ? Hnotin Hnd']; subst.
    destruct (String.eqb_spec k' k) as [->|Hne]; simpl.
    + now constructor.
    + constructor; [|now apply IH].
      intros Hin. apply (mapKeys_mapSet_In m k v k') in Hin.
      destruct Hin as [->|Hin]; [now apply Hne | now apply Hnotin].
Qed.

Lemma mapGet_mapSet m k v k0 :
  mapGet (mapSet m k v) k0 = if String.eqb k k0 then Some v else mapGet m k0.
Proof.
  induction m as [|[k' v'] m IH]; simpl.
  - reflexivity.
  - destruct (String.eqb_spec k' k) as [->|Hne]; simpl.
    + destruct (String.eqb_spec k k0); reflexivity.
    + rewrite IH. destruct (String.eqb_spec k' k0) as [->|Hne'].
      * destruct (String.eqb_spec k k0) as [->|]; [congruence | reflexivity].
      * reflexivity.
Qed.

End JsMapFacts.

(** ** Sets *)

Lemma existsb_eqb_In x l : existsb (String.eqb x) l = true <-> In x l.
Proof.
  rewrite existsb_exists. split.
  - intros [y [Hin Heq]]. apply String.eqb_eq in Heq. now subst.
  - intros H. exists x. split; [assumption | apply String.eqb_refl].
Qed.

Lemma setAdd_In s x y : In y (setAdd s x) <-> In y s \/ y = x.
Proof.
  unfold setAdd. destruct (existsb (String.eqb x) s) eqn:E.
  - apply existsb_eqb_In in E. intuition congruence.
  - rewrite in_app_iff. simpl. intuition congruence.
Qed.

Lemma setAdd_NoDup s x : NoDup s -> NoDup (setAdd s x).
Proof.
  unfold setAdd. intros H. destruct (existsb (String.eqb x) s) eqn:E; [assumption|].
  assert (Hn : ~ In x s).
  { intros Hin. apply existsb_eqb_In in Hin. congruence. }
  clear E. induction s as [|y s IH]; simpl.
  - constructor; [intros [] | constructor].
  - inversion H; subst. constructor.
    + rewrite in_app_iff. simpl. intros [Hin|[->|[]]]; [contradiction|].
      apply Hn. now left.
    + apply IH; [assumption|]. intros Hin. apply Hn. now right.
Qed.

Lemma fold_setAdd_In l s y : In y (fold_left setAdd l s) <-> In y s \/ In y l.
Proof.
  revert s. induction l as [|x l IH]; intros s; simpl.
  - intuition.
  - rewrite IH, setAdd_In. intuition congruence.
Qed.

Lemma fold_setAdd_NoDup l s : NoDup s -> NoDup (fold_left setAdd l s).
Proof.
  revert s. induction l as [|x l IH]; intros s H; simpl; [assumption|].
  apply IH. now apply setAdd_NoDup.
Qed.

Lemma setOf_In l y : In y (setOf l) <-> In y l.
Proof. unfold setOf. rewrite fold_setAdd_In. simpl. intuition. Qed.

Lemma setOf_NoDup l : NoDup (setOf l).
Proof. apply fold_setAdd_NoDup. constructor. Qed.

(** ** [JSON.stringify] determines the array of strings *)

Module JsonFacts.
Import Json.

Lemma append_assoc (a b c : string) : ((a ++ b) ++ c = a ++ (b ++ c))%string.
Proof. induction a as [|x a IH]; simpl; [reflexivity | now rewrite IH]. Qed.

Lemma readChar_escapeChar c r : readChar (escapeChar c ++ r) = Some (c, r).
Proof.
  destruct c as [[] [] [] [] [] [] [] []]; reflexivity.
Qed.

Lemma readChar_quote r : readChar (String dquote r) = None.
Proof. reflexivity. Qed.

Lemma escape_inj s1 : forall s2 r1 r2,
  (escape s1 ++ String dquote r1 = escape s2 ++ String dquote r2)%string ->
  s1 = s2 /\ r1 = r2.
Proof.
  induction s1 as [|c1 s1 IH]; intros [|c2 s2] r1 r2; simpl; intros H.
  - injection H as H. now split.
  - apply (f_equal readChar) in H.
    rewrite append_assoc, readChar_escapeChar, readChar_quote in H. discriminate.
  - apply (f_equal readChar) in H.
    rewrite append_assoc, readChar_escapeChar, readChar_quote in H. discriminate.
  - apply (f_equal readChar) in H.
    rewrite !append_assoc, !readChar_escapeChar in H.
    injection H as -> H. apply IH in H. destruct H as [-> ->]. now split.
Qed.

Lemma stringifyString_inj s1 s2 r1 r2 :
  (stringifyString s1 ++ r1 = stringifyString s2 ++ r2)%string ->
  s1 = s2 /\ r1 = r2.
Proof.
  unfold stringifyString, quote. simpl. rewrite !append_assoc. simpl.
  intros H. injection H as H. now apply escape_inj in H.
Qed.

Lemma tail_cons x l :
  tail (x :: l) =
  (stringifyString x ++ match l with [] => "]" | _ => String "," (tail l) end)%string.
Proof.
  unfold tail. destruct l as [|y l]; simpl; [reflexivity|].
  now rewrite !append_assoc.
Qed.

Lemma tail_inj l1 : forall l2, tail l1 = tail l2 -> l1 = l2.
Proof.
  induction l1 as [|x1 l1 IH]; intros [|x2 l2] H.
  - reflexivity.
  - rewrite tail_cons in H. discriminate.
  - rewrite tail_cons in H. discriminate.
  - rewrite !tail_cons in H. apply stringifyString_inj in H.
    destruct H as [-> H]. f_equal.
    destruct l1 as [|y1 l1], l2 as [|y2 l2]; try reflexivity; try discriminate.
    injection H as H. now apply IH.
Qed.

Lemma stringify_inj l1 l2 : stringify l1 = stringify l2 -> l1 = l2.
Proof.
  unfold stringify. simpl. intros H. injection H as H. now apply tail_inj.
Qed.

Lemma stringify_eqb l1 l2 :
  String.eqb (stringify l1) (stringify l2) = true <-> l1 = l2.
Proof.
  rewrite String.eqb_eq. split; [apply stringify_inj | now intros ->].
Qed.

End JsonFacts.

(** ** Structural equality *)

Lemma everyWith_shift {A B : Type} (p : A -> B -> bool) a : forall b x i,
  everyWith p a (x :: b) (S i) = everyWith p a b i.
Proof.
  induction a as [|t a IH]; intros b x i; simpl; [reflexivity|].
  destruct (nth_error b i); [|reflexivity]. now rewrite IH.
Qed.

Lemma everyWith_Forall2 {A B : Type} (p : A -> B -> bool) a : forall b,
  (List.length a =? List.length b) && everyWith p a b 0 = true <->
  Forall2 (fun x y => p x y = true) a b.
Proof.
  induction a as [|t a IH]; intros [|u b]; simpl.
  - split; [constructor | reflexivity].
  - split; [discriminate | intros H; inversion H].
  - split; [discriminate | intros H; inversion H].
  - rewrite everyWith_shift. split.
    + intros H. apply andb_prop in H. destruct H as [Hl H].
      apply andb_prop in H. destruct H as [Hp H].
      constructor; [assumption|]. apply IH. now rewrite Hl, H.
    + intros H. inversion H as [|? ? ? ? Hp Hr]; subst.
      apply IH in Hr. apply andb_prop in Hr. destruct Hr as [Hl Hr].
      now rewrite Hl, Hp, Hr.
Qed.

Lemma areTypesEqual_kind a b : areTypesEqual a b = true -> kind a = kind b.
Proof.
  destruct a, b; simpl; intros H; try discriminate H; reflexivity.
Qed.

Lemma areTypesEqual_string d e s d' e' s' :
  areTypesEqual (TString d e s) (TString d' e' s') = true <->
  truthy d = truthy d' /\ orEmpty e = orEmpty e'.
Proof.
  cbn [areTypesEqual kind Kind_eqb negb].
  rewrite andb_true_iff, Bool.eqb_true_iff, JsonFacts.stringify_eqb.
  reflexivity.
Qed.

Lemma areTypesEqual_union xs ys :
  areTypesEqual (TUnion xs) (TUnion ys) = true <->
  Forall2 (fun x y => areTypesEqual x y = true) xs ys.
Proof. simpl. apply everyWith_Forall2. Qed.

Lemma areTypesEqual_object af bf :
  areTypesEqual (TObject af) (TObject bf) = true <->
  mapSize af = mapSize bf /\
  (forall k fa, In (k, fa) af ->
     exists fb, mapGet bf k = Some fb /\ required fa = required fb
                /\ areTypesEqual (type fa) (type fb) = true).
Proof.
  simpl. destruct (Nat.eqb_spec (mapSize af) (mapSize bf)) as [Hs|Hs]; simpl.
  - rewrite forallb_forall. split.
    + intros H. split; [assumption|]. intros k fa Hin.
      specialize (H (k, fa) Hin). simpl in H.
      destruct (mapGet bf k) as [fb|]; [|discriminate].
      apply andb_prop in H. destruct H as [Hr Ht].
      exists fb. repeat split; [now apply Bool.eqb_prop | assumption].
    + intros [_ H] [k fa] Hin. destruct (H k fa Hin) as [fb [-> [Hr Ht]]].
      rewrite Hr, Ht. now rewrite Bool.eqb_reflx.
  - split; [discriminate | intros [H _]; contradiction].
Qed.

Lemma areTypesEqual_refl a : mapsOk a -> areTypesEqual a a = true.
Proof.
  induction a as [| | |d e s|items IH|types IH|fields IH] using TypeNode_nested_ind;
    intros Hok; try reflexivity.
  - now apply areTypesEqual_string.
  - simpl in *. now apply IH.
  - apply areTypesEqual_union. simpl in Hok. apply fold_right_and_Forall in Hok.
    induction types as [|x xs IHxs]; constructor.
    + inversion IH; inversion Hok; subst. auto.
    + inversion IH; inversion Hok; subst. auto.
  - apply areTypesEqual_object. split; [reflexivity|].
    simpl in Hok. destruct Hok as [Hnd Hok].
    apply (fold_right_and_Forall (fun kf => mapsOk (type (snd kf)))) in Hok.
    rewrite Forall_forall in IH, Hok.
    intros k fa Hin. exists fa. split; [now apply In_mapGet|]. split; [reflexivity|].
    apply (IH (k, fa) Hin). apply (Hok (k, fa) Hin).
Qed.

Lemma mapKeys_incl_same_size {V W : Type} (m : JsMap V) (n : JsMap W) :
  mapOk m -> mapSize m = mapSize n -> incl (mapKeys m) (mapKeys n) ->
  incl (mapKeys n) (mapKeys m).
Proof.
  unfold mapOk, mapSize, mapKeys. intros Hnd Hs Hincl.
  apply NoDup_length_incl; [assumption | | assumption].
  rewrite !length_map. lia.
Qed.

Lemma areTypesEqual_object_keys af bf :
  areTypesEqual (TObject af) (TObject bf) = true ->
  incl (mapKeys af) (mapKeys bf).
Proof.
  intros H. apply areTypesEqual_object in H. destruct H as [_ H].
  intros k Hin. unfold mapKeys in Hin. apply in_map_iff in Hin.
  destruct Hin as [[k' fa] [<- Hin]]. simpl.
  destruct (H k' fa Hin) as [fb [Hg _]]. now apply mapGet_Some_key in Hg.
Qed.

Lemma areTypesEqual_sym a : forall b,
  mapsOk a -> mapsOk b -> areTypesEqual a b = true -> areTypesEqual b a = true.
Proof.
  induction a as [| | |d e s|items IH|types IH|fields IH] using TypeNode_nested_ind;
    intros b Ha Hb H; pose proof (areTypesEqual_kind _ _ H) as Hk;
    destruct b as [| | |d' e' s'|items'|types'|fields']; try discriminate Hk;
    try reflexivity.
  - apply areTypesEqual_string in H. apply areTypesEqual_string.
    destruct H; split; congruence.
  - simpl in *. now apply IH.
  - apply areTypesEqual_union in H. apply areTypesEqual_union.
    simpl in Ha, Hb. apply fold_right_and_Forall in Ha, Hb.
    clear Hk. revert types' Hb H. induction types as [|x xs IHxs]; intros types' Hb H;
      inversion H; subst; constructor.
    + inversion IH; inversion Ha; inversion Hb; subst. auto.
    + inversion IH; inversion Ha; inversion Hb; subst. auto.
  - pose proof (areTypesEqual_object_keys _ _ H) as Hincl.
    apply areTypesEqual_object in H. destruct H as [Hs H].
    simpl in Ha, Hb. destruct Ha as [Hnda Ha], Hb as [Hndb Hb].
    apply (fold_right_and_Forall (fun kf => mapsOk (type (snd kf)))) in Ha, Hb.
    rewrite Forall_forall in IH, Ha, Hb.
    apply areTypesEqual_object. split; [now symmetry|].
    intros k fb Hin.
    assert (Hk' : In k (mapKeys fields)).
    { apply (mapKeys_incl_same_size fields fields' Hnda Hs Hincl).
      change k with (fst (k, fb)). unfold mapKeys. now apply in_map. }
    destruct (mapGet_is_Some _ _ Hk') as [fa Hga].
    pose proof (mapGet_In _ _ _ Hga) as Hina.
    destruct (H k fa Hina) as [fb' [Hgb [Hr Ht]]].
    rewrite (In_mapGet _ _ _ Hndb Hin) in Hgb. injection Hgb as <-.
    exists fa. split; [assumption|]. split; [now symmetry|].
    apply (IH (k, fa) Hina); [apply (Ha (k, fa) Hina) | apply (Hb (k, fb) Hin) | assumption].
Qed.

Lemma areTypesEqual_trans a : forall b c,
  areTypesEqual a b = true -> areTypesEqual b c = true -> areTypesEqual a c = true.
Proof.
  induction a as [| | |d e s|items IH|types IH|fields IH] using TypeNode_nested_ind;
    intros b c H1 H2;
    pose proof (areTypesEqual_kind _ _ H1) as Hk1;
    pose proof (areTypesEqual_kind _ _ H2) as Hk2;
    destruct b as [| | |d' e' s'|items'|types'|fields']; try discriminate Hk1;
    destruct c as [| | |d2 e2 s2|items2|types2|fields2]; try discriminate Hk2;
    try reflexivity.
  - apply areTypesEqual_string in H1, H2. apply areTypesEqual_string.
    destruct H1, H2; split; congruence.
  - simpl in *. now apply IH with items'.
  - apply areTypesEqual_union in H1, H2. apply areTypesEqual_union.
    clear Hk1 Hk2. revert types' types2 H1 H2. induction types as [|x xs IHxs];
      intros types' types2 H1 H2; inversion H1; subst; inversion H2; subst;
      constructor.
    + inversion IH; subst. eauto.
    + inversion IH; subst. eauto.
  - apply areTypesEqual_object in H1, H2. apply areTypesEqual_object.
    destruct H1 as [Hs1 H1], H2 as [Hs2 H2]. split; [congruence|].
    rewrite Forall_forall in IH.
    intros k fa Hin. destruct (H1 k fa Hin) as [fb [Hgb [Hr1 Ht1]]].
    destruct (H2 k fb (mapGet_In _ _ _ Hgb)) as [fc [Hgc [Hr2 Ht2]]].
    exists fc. split; [assumption|]. split; [congruence|].
    now apply (IH (k, fa) Hin) with (type fb).
Qed.

(** ** Unification: the equations of [unifyTypes] *)

Lemma fold_left_ext {A B : Type} (f g : A -> B -> A) (l : list B) (a : A) :
  (forall x y, f x y = g x y) -> fold_left f l a = fold_left g l a.
Proof.
  intros H. revert a. induction l as [|y l IH]; intros a; simpl; [reflexivity|].
  now rewrite H, IH.
Qed.

Lemma unifyTypes_equal a b : areTypesEqual a b = true -> unifyTypes a b = a.
Proof. intros H. destruct a; simpl; simpl in H; now rewrite H. Qed.

Lemma unifyTypes_object aFields bFields :
  areTypesEqual (TObject aFields) (TObject bFields) = false ->
  unifyTypes (TObject aFields) (TObject bFields) = TObject (unifyFields aFields bFields).
Proof.
  intros H. cbn [unifyTypes]. rewrite H. cbn [isAny kind Kind_eqb orb].
  f_equal. unfold unifyFields. apply fold_left_ext. intros unified key. f_equal.
  clear H. induction aFields as [|[k f] m IH]; simpl; [reflexivity|].
  destruct (String.eqb k key); [reflexivity|].
  apply IH.
Qed.

Lemma unifyField_set (af bf : JsMap (FieldInfo TypeNode)) unified key :
  unifyField (option_map (fun f => (f, unifyTypes (type f))) (mapGet af key))
             (mapGet bf key) unified key =
  match unifiedField af bf key with
  | Some f => mapSet unified key f
  | None => unified
  end.
Proof.
  unfold unifiedField, unifyField.
  destruct (mapGet af key), (mapGet bf key); reflexivity.
Qed.

Lemma fold_set_get (field : string -> option (FieldInfo TypeNode)) keys :
  forall unified k,
  mapGet (fold_left (fun u key => match field key with
                                  | Some f => mapSet u key f
                                  | None => u
                                  end) keys unified) k =
  match field k with
  | Some f => if existsb (String.eqb k) keys then Some f else mapGet unified k
  | None => mapGet unified k
  end.
Proof.
  induction keys as [|key keys IH]; intros unified k; simpl.
  - now destruct (field k).
  - rewrite IH. destruct (field k) as [f|] eqn:Ek.
    + destruct (String.eqb_spec k key) as [->|Hne]; simpl.
      * rewrite Ek, mapGet_mapSet, String.eqb_refl.
        now destruct (existsb _ keys).
      * destruct (existsb _ keys); [reflexivity|].
        destruct (field key); [|reflexivity].
        rewrite mapGet_mapSet. destruct (String.eqb_spec key k); congruence.
    + destruct (field key) eqn:Ekey; [|reflexivity].
      rewrite mapGet_mapSet. destruct (String.eqb_spec key k) as [->|]; congruence.
Qed.

Lemma fold_set_ok (field : string -> option (FieldInfo TypeNode)) keys :
  forall unified, mapOk unified ->
  mapOk (fold_left (fun u key => match field key with
                                 | Some f => mapSet u key f
                                 | None => u
                                 end) keys unified).
Proof.
  induction keys as [|key keys IH]; intros unified H; simpl; [assumption|].
  apply IH. destruct (field key); [now apply mapSet_ok | assumption].
Qed.

Lemma unifyFields_fold af bf :
  unifyFields af bf =
  fold_left (fun u key => match unifiedField af bf key with
                          | Some f => mapSet u key f
                          | None => u
                          end) (setOf (mapKeys af ++ mapKeys bf)) [].
Proof. unfold unifyFields. apply fold_left_ext. intros. apply unifyField_set. Qed.

(** What the unified Map holds under each key. *)
Lemma mapGet_unifyFields af bf k :
  mapGet (unifyFields af bf) k = unifiedField af bf k.
Proof.
  rewrite unifyFields_fold, fold_set_get. simpl.
  destruct (unifiedField af bf k) as [f|] eqn:E; [|reflexivity].
  destruct (existsb _ _) eqn:Ex; [reflexivity|]. exfalso.
  assert (Hin : In k (setOf (mapKeys af ++ mapKeys bf))).
  { apply setOf_In, in_app_iff. unfold unifiedField in E.
    destruct (mapGet af k) eqn:Ea.
    - left. now apply mapGet_Some_key in Ea.
    - destruct (mapGet bf k) eqn:Eb; [|discriminate].
      right. now apply mapGet_Some_key in Eb. }
  apply existsb_eqb_In in Hin. congruence.
Qed.

Lemma unifyFields_ok af bf : mapOk (unifyFields af bf).
Proof. rewrite unifyFields_fold. apply fold_set_ok. constructor. Qed.

(** ** Dominance of [any], and unification of a node with itself *)

Lemma unifyTypes_any_l x : unifyTypes TAny x = TAny.
Proof. destruct x; reflexivity. Qed.

Lemma unifyTypes_any_r x : unifyTypes x TAny = TAny.
Proof. destruct x; reflexivity. Qed.

(** C6. Any dominates unification: for every type node [x],
    [unifyTypes(any, x)] is [any], and so is [unifyTypes(x, any)]. *)
Theorem any_dominates (x : TypeNode) :
  unifyTypes TAny x = TAny /\ unifyTypes x TAny = TAny.
Proof. split; [apply unifyTypes_any_l | apply unifyTypes_any_r]. Qed.

(** C5. Unifying a type node with itself returns the left operand unchanged,
    which is structurally equal to the node; [mapsOk x] says that the Maps of
    [x] are Maps (no key twice). *)
Theorem unify_idempotent (x : TypeNode) :
  mapsOk x ->
  unifyTypes x x = x /\ areTypesEqual (unifyTypes x x) x = true.
Proof.
  intros H. pose proof (areTypesEqual_refl x H) as E.
  rewrite (unifyTypes_equal x x E). now split.
Qed.

Lemma unify_idempotent_witness :
  unifyTypes (TObject [("id"%string, mkField TNumber true)])
             (TObject [("id"%string, mkField TNumber true)])
  = TObject [("id"%string, mkField TNumber true)]
  /\ areTypesEqual
       (unifyTypes (TObject [("id"%string, mkField TNumber true)])
                   (TObject [("id"%string, mkField TNumber true)]))
       (TObject [("id"%string, mkField TNumber true)]) = true.
Proof.
  apply (unify_idempotent (TObject [("id"%string, mkField TNumber true)])).
  simpl. unfold mapOk. simpl. repeat constructor. simpl. intuition.
Defined.

(** ** Required fields after unifying two objects *)

(** C1. Unifying two object nodes gives an object node in which a field is
    required exactly when its key is present on both sides with
    [required = true]; a key present on one side only keeps that side's type
    and gets [required = false].  [mapOk aFields] says that the left Map is
    a Map. *)
Theorem unify_objects_required (aFields bFields : JsMap (FieldInfo TypeNode)) :
  mapOk aFields ->
  exists unified,
    unifyTypes (TObject aFields) (TObject bFields) = TObject unified
    /\ (forall k,
          (exists f, mapGet unified k = Some f /\ required f = true) <->
          (exists fa fb, mapGet aFields k = Some fa /\ mapGet bFields k = Some fb
                         /\ required fa = true /\ required fb = true))
    /\ (forall k fa, mapGet aFields k = Some fa -> mapGet bFields k = None ->
                     mapGet unified k = Some (mkField (type fa) false))
    /\ (forall k fb, mapGet aFields k = None -> mapGet bFields k = Some fb ->
                     mapGet unified k = Some (mkField (type fb) false)).
Proof.
  intros Hnd.
  destruct (areTypesEqual (TObject aFields) (TObject bFields)) eqn:E.
  - (* structurally equal: the left operand is returned *)
    exists aFields. split; [now apply unifyTypes_equal|].
    pose proof (areTypesEqual_object_keys _ _ E) as Hincl.
    apply areTypesEqual_object in E. destruct E as [Hs E].
    split; [|split].
    + intros k. split.
      * intros [f [Hg Hr]].
        destruct (E k f (mapGet_In _ _ _ Hg)) as [fb [Hgb [Hrb _]]].
        exists f, fb. repeat split; congruence.
      * intros [fa [fb [Hga [_ [Hra _]]]]]. now exists fa.
    + intros k fa Hga Hgb.
      destruct (E k fa (mapGet_In _ _ _ Hga)) as [fb [Hgb' _]]. congruence.
    + intros k fb Hga Hgb. exfalso.
      apply mapGet_None in Hga. apply Hga.
      apply (mapKeys_incl_same_size aFields bFields Hnd Hs Hincl).
      now apply mapGet_Some_key in Hgb.
  - exists (unifyFields aFields bFields). split; [now apply unifyTypes_object|].
    split; [|split].
    + intros k. rewrite mapGet_unifyFields. unfold unifiedField. split.
      * intros [f [Hg Hr]].
        destruct (mapGet aFields k) as [fa|], (mapGet bFields k) as [fb|];
          try discriminate Hg; injection Hg as <-; simpl in Hr; try discriminate Hr.
        apply andb_prop in Hr. destruct Hr. now exists fa, fb.
      * intros [fa [fb [-> [-> [Hra Hrb]]]]].
        eexists. split; [reflexivity|]. simpl. now rewrite Hra, Hrb.
    + intros k fa Hga Hgb. rewrite mapGet_unifyFields. unfold unifiedField.
      now rewrite Hga, Hgb.
    + intros k fb Hga Hgb. rewrite mapGet_unifyFields. unfold unifiedField.
      now rewrite Hga, Hgb.
Qed.

Lemma unify_objects_required_witness :
  exists unified,
    unifyTypes
      (TObject [("a"%string, mkField TNumber true);
                ("b"%string, mkField (TString (Some false) None (Some "x"%string)) true)])
      (TObject [("a"%string, mkField TNumber true)]) = TObject unified
    /\ (forall k,
          (exists f, mapGet unified k = Some f /\ required f = true) <->
          (exists fa fb,
              mapGet [("a"%string, mkField TNumber true);
                      ("b"%string, mkField (TString (Some false) None (Some "x"%string)) true)]
                     k = Some fa
              /\ mapGet [("a"%string, mkField TNumber true)] k = Some fb
              /\ required fa = true /\ required fb = true))
    /\ (forall k fa,
          mapGet [("a"%string, mkField TNumber true);
                  ("b"%string, mkField (TString (Some false) None (Some "x"%string)) true)]
                 k = Some fa ->
          mapGet [("a"%string, mkField TNumber true)] k = None ->
          mapGet unified k = Some (mkField (type fa) false))
    /\ (forall k fb,
          mapGet [("a"%string, mkField TNumber true);
                  ("b"%string, mkField (TString (Some false) None (Some "x"%string)) true)]
                 k = None ->
          mapGet [("a"%string, mkField TNumber true)] k = Some fb ->
          mapGet unified k = Some (mkField (type fb) false)).
Proof.
  apply (unify_objects_required
           [("a"%string, mkField TNumber true);
            ("b"%string, mkField (TString (Some false) None (Some "x"%string)) true)]
           [("a"%string, mkField TNumber true)]).
  unfold mapOk. simpl. repeat constructor; simpl; intuition discriminate.
Defined.

(** ** Equality of string nodes *)

(** C7 (as amended). Two string nodes are structurally equal exactly when
    their [isDate] flags agree as booleans and their [enumValues], an absent
    one taken as empty, are the same sequence: the same values in the same
    order. *)
Theorem string_nodes_equal_iff (d d' : option bool) (e e' : option (list string))
        (s s' : option string) :
  areTypesEqual (TString d e s) (TString d' e' s') = true <->
  truthy d = truthy d' /\ orEmpty e = orEmpty e'.
Proof. apply areTypesEqual_string. Qed.

(** C7, counterexample. Two string nodes with no date flag whose
    [enumValues] hold the same two values in opposite orders: equal as sets,
    yet not structurally equal. *)
Lemma string_nodes_order_matters :
  truthy None = truthy None
  /\ (forall v, In v ["a"; "b"]%string <-> In v ["b"; "a"]%string)
  /\ areTypesEqual (TString None (Some ["a"; "b"]%string) None)
                   (TString None (Some ["b"; "a"]%string) None) = false.
Proof.
  split; [reflexivity|]. split; [|vm_compute; reflexivity].
  intros v. simpl. intuition.
Qed.

(** ** Normalization and unification keep type trees well formed *)

Lemma wellFormed_union types :
  wellFormed (TUnion types) <-> 2 <= List.length types /\ Forall memberOk types.
Proof.
  simpl. rewrite (fold_right_and_Forall (fun m => isAny m = false /\ isUnion m = false
                                                  /\ wellFormed m)).
  reflexivity.
Qed.

Lemma wellFormed_object fields :
  wellFormed (TObject fields) <->
  mapOk fields /\ Forall (fun kf => wellFormed (type (snd kf))) fields.
Proof.
  simpl. rewrite (fold_right_and_Forall (fun kf => wellFormed (type (snd kf)))).
  reflexivity.
Qed.

Lemma flattenable_of_wellFormed t :
  wellFormed t -> isAny t = false -> flattenable t.
Proof.
  intros Hwf Hany. destruct (isUnion t) eqn:E.
  - right. apply isUnion_true in E. destruct E as [ts ->].
    apply wellFormed_union in Hwf. exists ts. now split.
  - left. now repeat split.
Qed.

Lemma flattenStep_members flat t :
  Forall memberOk flat -> flattenable t -> Forall memberOk (flattenStep flat t).
Proof.
  intros Hflat [Hm | [ts [-> Hts]]].
  - destruct Hm as [Ha [Hu Hw]].
    assert (E : flattenStep flat t =
                if negb (existsb (fun e => areTypesEqual e t) flat)
                then flat ++ [t] else flat).
    { destruct t; try reflexivity. discriminate Hu. }
    rewrite E. destruct (negb _); [|assumption].
    apply Forall_app. split; [assumption|]. constructor; [|constructor].
    now repeat split.
  - simpl. apply Forall_app. now split.
Qed.

Lemma flattenStep_length flat t :
  List.length flat <= List.length (flattenStep flat t).
Proof.
  destruct t; simpl; try (destruct (negb _)); rewrite ?length_app; simpl; lia.
Qed.

Lemma fold_flatten_members types : forall flat,
  Forall memberOk flat -> Forall flattenable types ->
  Forall memberOk (fold_left flattenStep types flat).
Proof.
  induction types as [|t types IH]; intros flat Hflat Hts; simpl; [assumption|].
  inversion Hts; subst. apply IH; [|assumption]. now apply flattenStep_members.
Qed.

Lemma fold_flatten_length types : forall flat,
  List.length flat <= List.length (fold_left flattenStep types flat).
Proof.
  induction types as [|t types IH]; intros flat; simpl; [lia|].
  specialize (IH (flattenStep flat t)). pose proof (flattenStep_length flat t). lia.
Qed.

Lemma flattenStep_first t : isUnion t = false -> flattenStep [] t = [t].
Proof. destruct t; simpl; intros H; try reflexivity. discriminate H. Qed.

(** The result of normalization, when the array handed in starts with a
    member: [any], or a member, or a union of at least two members. *)
Lemma normalizeUnionType_wellFormed first rest :
  memberOk first -> Forall flattenable rest ->
  wellFormed (normalizeUnionType (first :: rest)).
Proof.
  intros Hfirst Hrest. unfold normalizeUnionType.
  destruct (existsb isAny (first :: rest)); [exact I|].
  cbn [fold_left]. rewrite flattenStep_first by apply Hfirst.
  pose proof (fold_flatten_members rest [first]
                (Forall_cons _ Hfirst (Forall_nil _)) Hrest) as Hm.
  pose proof (fold_flatten_length rest [first]) as Hl.
  destruct (fold_left flattenStep rest [first]) as [|x [|y r]].
  - simpl in Hl. lia.
  - inversion Hm; subst. apply H1.
  - apply wellFormed_union. split; [simpl; lia | assumption].
Qed.

Lemma mergeStringLiteralSets_NoDup a b : NoDup (orEmpty (mergeStringLiteralSets a b)).
Proof.
  destruct a, b; simpl; try apply setOf_NoDup. constructor.
Qed.

Ltac normalize_pair Hfb :=
  apply normalizeUnionType_wellFormed;
  [split; [reflexivity | split; [reflexivity | assumption]]
  | constructor; [exact Hfb | constructor]].

Ltac normalize_onto_union Hb :=
  apply normalizeUnionType_wellFormed;
  [split; [reflexivity | split; [reflexivity | assumption]]
  | apply wellFormed_union in Hb; destruct Hb as [_ Hb];
    apply Forall_impl with (2 := Hb); intros ? ?; now left].

Ltac unify_step E :=
  cbn [unifyTypes]; rewrite ?E; cbn [isAny kind Kind_eqb orb].

Lemma unifyTypes_wellFormed a : forall b,
  wellFormed a -> wellFormed b -> wellFormed (unifyTypes a b).
Proof.
  induction a as [| | |d e s|items IH|types IH|fields IH] using TypeNode_nested_ind;
    intros b Ha Hb.
  all: match goal with
       | |- wellFormed (unifyTypes ?a _) =>
           destruct (areTypesEqual a b) eqn:E;
           [rewrite (unifyTypes_equal _ _ E); exact Ha|]
       end.
  all: destruct (isAny b) eqn:Eb;
    [apply isAny_true in Eb; subst b; rewrite unifyTypes_any_r; exact I|].
  all: pose proof (flattenable_of_wellFormed b Hb Eb) as Hfb.
  - rewrite unifyTypes_any_l. exact I.
  - destruct b; try discriminate; unify_step E;
      first [normalize_pair Hfb | normalize_onto_union Hb].
  - destruct b; try discriminate; unify_step E;
      first [normalize_pair Hfb | normalize_onto_union Hb].
  - destruct b; try discriminate; unify_step E;
      first [normalize_pair Hfb | normalize_onto_union Hb | idtac].
    apply mergeStringLiteralSets_NoDup.
  - destruct b; try discriminate; unify_step E;
      first [normalize_pair Hfb | normalize_onto_union Hb | idtac].
    simpl. apply IH; assumption.
  - (* union on the left *)
    assert (Eu : unifyTypes (TUnion types) b = normalizeUnionType (types ++ [b])).
    { destruct b; try discriminate; unify_step E; reflexivity. }
    rewrite Eu. apply wellFormed_union in Ha. destruct Ha as [Hlen Hm].
    destruct types as [|first rest]; [simpl in Hlen; lia|].
    inversion Hm; subst. simpl. apply normalizeUnionType_wellFormed; [assumption|].
    apply Forall_app. split.
    + apply Forall_impl with (2 := H2). intros m Hm'. now left.
    + constructor; [exact Hfb | constructor].
  - destruct b as [| | | | | |bFields]; try discriminate;
      try (unify_step E; first [normalize_pair Hfb | normalize_onto_union Hb]).
    rewrite (unifyTypes_object _ _ E).
    apply wellFormed_object. split; [apply unifyFields_ok|].
    apply wellFormed_object in Ha, Hb. destruct Ha as [Hnda Ha], Hb as [Hndb Hb].
    rewrite Forall_forall in IH, Ha, Hb |- *.
    intros [k f] Hin. simpl.
    apply (In_mapGet _ _ _ (unifyFields_ok _ _)) in Hin.
    rewrite mapGet_unifyFields in Hin. unfold unifiedField in Hin.
    destruct (mapGet fields k) as [fa|] eqn:Ega;
      destruct (mapGet bFields k) as [fb|] eqn:Egb;
      try discriminate Hin; injection Hin as <-; simpl.
    + apply mapGet_In in Ega, Egb.
      apply (IH (k, fa) Ega); [apply (Ha (k, fa) Ega) | apply (Hb (k, fb) Egb)].
    + apply mapGet_In in Ega. apply (Ha (k, fa) Ega).
    + apply mapGet_In in Egb. apply (Hb (k, fb) Egb).
Qed.

(** ** Inference is total and yields well-formed trees *)

Lemma inferTypeFromValue_object entries options :
  inferTypeFromValue (VObject entries) options =
  (fields <- inferFields options entries (Some []) ;; Some (TObject fields)).
Proof. reflexivity. Qed.

Lemma inferTypeFromValue_array elements options :
  inferTypeFromValue (VArray elements) options =
  if List.length elements =? 0 then Some (TArray TAny)
  else if arrayContainsOnlyStrings elements
          && shouldUseStringEnumForArray (stringsIn elements) options
  then Some (TArray (TString None (Some (setOf (stringsIn elements))) None))
  else
    itemNodes <- mapM (fun v => inferTypeFromValue v options) elements ;;
    items <- unifyTypesMany itemNodes ;;
    Some (TArray items).
Proof. reflexivity. Qed.

Lemma mapM_Forall {A B : Type} (f : A -> option B) (Q : A -> B -> Prop) l :
  Forall (fun x => exists y, f x = Some y /\ Q x y) l ->
  exists ys, mapM f l = Some ys /\ Forall2 Q l ys.
Proof.
  induction 1 as [|x l [y [Hy Hq]] _ [ys [Hys Hqs]]]; simpl.
  - exists []. split; [reflexivity | constructor].
  - rewrite Hy, Hys. simpl. exists (y :: ys). split; [reflexivity | now constructor].
Qed.

Lemma fold_unifyTypes_wellFormed rest : forall first,
  wellFormed first -> Forall wellFormed rest ->
  wellFormed (fold_left unifyTypes rest first).
Proof.
  induction rest as [|t rest IH]; intros first Hf Hr; simpl; [assumption|].
  inversion Hr; subst. apply IH; [|assumption]. now apply unifyTypes_wellFormed.
Qed.

Lemma In_mapSet {V : Type} (m : JsMap V) k v k' v' :
  In (k', v') (mapSet m k v) -> (k' = k /\ v' = v) \/ In (k', v') m.
Proof.
  induction m as [|[k0 v0] m IH]; simpl.
  - intros [[= <- <-]|[]]. now left.
  - destruct (String.eqb_spec k0 k) as [->|Hne]; simpl.
    + intros [[= <- <-]|H]; [now left | right; now right].
    + intros [H|H]; [right; now left|].
      destruct (IH H) as [?|?]; [now left | right; now right].
Qed.

Lemma mapOk_nil {V : Type} : mapOk (@nil (string * V)).
Proof. constructor. Qed.

Lemma inferFields_None options entries : inferFields options entries None = None.
Proof. induction entries as [|[k v] entries IH]; simpl; [reflexivity | exact IH]. Qed.

(** The loop over the entries succeeds when inference succeeds on every
    value, and every field it stores is an inferred type with its flag. *)
Lemma inferFields_inv options (Q : Value -> TypeNode -> Prop) entries :
  Forall (fun e => exists t, inferTypeFromValue (snd e) options = Some t /\ Q (snd e) t)
         entries ->
  forall init, mapOk init ->
  exists fields,
    inferFields options entries (Some init) = Some fields
    /\ mapOk fields
    /\ (forall k f, In (k, f) fields ->
          In (k, f) init
          \/ exists v, In (k, v) entries /\ Q v (type f)
                       /\ required f = negb (isUndefined v)).
Proof.
  induction 1 as [|[k v] entries [t [Ht Hq]] _ IH]; intros init Hok.
  - exists init. split; [reflexivity|]. split; [assumption|]. intros; now left.
  - unfold inferFields. simpl. simpl in Ht. rewrite Ht. simpl.
    destruct (IH (mapSet init k (mkField t (negb (isUndefined v))))
                 (mapSet_ok _ _ _ Hok)) as [fields [Hf [Hfok Hin]]].
    exists fields. split; [exact Hf|]. split; [assumption|].
    intros k' f' Hin'. destruct (Hin k' f' Hin') as [Hset|[v' [Hv' Hq']]].
    + apply In_mapSet in Hset. destruct Hset as [[-> ->]|Hold]; [|now left].
      right. exists v. split; [now left|]. split; [exact Hq | reflexivity].
    + right. exists v'. split; [now right | assumption].
Qed.

Lemma inferTypeFromValue_total_wellFormed (v : Value) (options : Options) :
  exists t, inferTypeFromValue v options = Some t /\ wellFormed t.
Proof.
  induction v as [| |s|n|b|elements IH|entries IH] using Value_nested_ind.
  - exists TAny. now split.
  - exists TAny. now split.
  - eexists. split; [reflexivity|]. simpl. constructor.
  - exists TNumber. now split.
  - exists TBoolean. now split.
  - rewrite inferTypeFromValue_array.
    destruct elements as [|e elements]; [exists (TArray TAny); now split|].
    cbn [List.length Nat.eqb].
    destruct (_ && _).
    + eexists. split; [reflexivity|]. simpl. apply setOf_NoDup.
    + destruct (mapM_Forall (fun v => inferTypeFromValue v options)
                  (fun _ t => wellFormed t) (e :: elements) IH) as [ys [Hys Hwf]].
      rewrite Hys. simpl. inversion Hwf as [|? first ? rest Hfirst Hrest]; subst.
      simpl. eexists. split; [reflexivity|]. simpl.
      apply fold_unifyTypes_wellFormed; [assumption|].
      clear - Hrest. induction Hrest; constructor; assumption.
  - rewrite inferTypeFromValue_object.
    destruct (inferFields_inv options (fun _ t => wellFormed t) entries IH []
                mapOk_nil) as [fields [Hf [Hok Hin]]].
    rewrite Hf. simpl. exists (TObject fields). split; [reflexivity|].
    apply wellFormed_object. split; [assumption|].
    rewrite Forall_forall. intros [k f] Hkf.
    destruct (Hin k f Hkf) as [[]|[v [_ [Hw _]]]]. exact Hw.
Qed.

(** C9, at the failing input. Inference is total: for every value (in
    particular every JSON-decodable one) and all options,
    [inferTypeFromValue] returns a type tree, without throwing, and the tree
    is [wellFormed]: enum values distinct, unions of at least two members
    that are neither [any] nor unions, field names distinct.  The data model
    also asks that no union holds two structurally equal members, and this
    the tree returned does not always meet: for [[[1, a], [b, true]]] the
    items of the inner arrays are the union of [number], [string], [string]
    and [boolean], the two string nodes structurally equal. *)
Theorem infer_returns_duplicate_members :
  (forall v options, exists t, inferTypeFromValue v options = Some t /\ wellFormed t)
  /\ (let v := VArray [VArray [VNumber 1; VString "a"];
                       VArray [VString "b"; VBoolean true]] in
      let sa := TString (Some false) None (Some "a"%string) in
      let sb := TString (Some false) None (Some "b"%string) in
      jsonDecodable v
      /\ inferTypeFromValue v (mkOptions true 2 12)
         = Some (TArray (TArray (TUnion [TNumber; sa; sb; TBoolean])))
      /\ areTypesEqual sa sb = true
      /\ wellFormed (TArray (TArray (TUnion [TNumber; sa; sb; TBoolean])))
      /\ ~ duplicateFree (TArray (TArray (TUnion [TNumber; sa; sb; TBoolean])))).
Proof.
  split; [intros v options; apply inferTypeFromValue_total_wellFormed|].
  cbv zeta. split; [simpl; tauto|].
  split; [vm_compute; reflexivity|]. split; [vm_compute; reflexivity|].
  split.
  - simpl. repeat split; try lia; constructor.
  - simpl. intros [H _]. inversion H as [|? ? _ H']; subst.
    inversion H' as [|? ? Hs _]; subst. inversion Hs as [|? ? Hab _]; subst.
    vm_compute in Hab. discriminate Hab.
Qed.

(** ** Required fields of an inferred object *)

Lemma jsonDecodable_array elements :
  jsonDecodable (VArray elements) <-> Forall jsonDecodable elements.
Proof. simpl. apply fold_right_and_Forall. Qed.

Lemma jsonDecodable_object entries :
  jsonDecodable (VObject entries) <->
  NoDup (map fst entries) /\ Forall (fun e => jsonDecodable (snd e)) entries.
Proof.
  simpl. rewrite (fold_right_and_Forall (fun e => jsonDecodable (snd e))).
  reflexivity.
Qed.

Lemma jsonDecodable_defined v : jsonDecodable v -> isUndefined v = false.
Proof. destruct v; simpl; intros H; try reflexivity. contradiction. Qed.

Lemma requiredOutsideArrays_object fields :
  requiredOutsideArrays (TObject fields) <->
  Forall (fun kf => required (snd kf) = true /\ requiredOutsideArrays (type (snd kf)))
         fields.
Proof.
  simpl.
  apply (fold_right_and_Forall
           (fun kf => required (snd kf) = true /\ requiredOutsideArrays (type (snd kf)))).
Qed.

Lemma inferTypeFromValue_required v options : forall t,
  jsonDecodable v -> inferTypeFromValue v options = Some t ->
  requiredOutsideArrays t.
Proof.
  induction v as [| |s|n|b|elements IH|entries IH] using Value_nested_ind;
    intros t Hj Ht.
  - contradiction.
  - injection Ht as <-. exact I.
  - injection Ht as <-. exact I.
  - injection Ht as <-. exact I.
  - injection Ht as <-. exact I.
  - rewrite inferTypeFromValue_array in Ht.
    destruct (List.length elements =? 0); [injection Ht as <-; exact I|].
    destruct (_ && _); [injection Ht as <-; exact I|].
    destruct (mapM _ elements) as [ys|]; [|discriminate]. simpl in Ht.
    destruct (unifyTypesMany ys); [|discriminate]. injection Ht as <-. exact I.
  - rewrite inferTypeFromValue_object in Ht.
    apply jsonDecodable_object in Hj. destruct Hj as [_ Hj].
    assert (Hall : Forall (fun e => exists t, inferTypeFromValue (snd e) options = Some t
                                    /\ (jsonDecodable (snd e) -> requiredOutsideArrays t))
                          entries).
    { rewrite Forall_forall in IH |- *. intros e He.
      destruct (inferTypeFromValue_total_wellFormed (snd e) options) as [t' [Ht' _]].
      exists t'. split; [assumption|]. intros Hje. now apply (IH e He). }
    destruct (inferFields_inv options
                (fun v t => jsonDecodable v -> requiredOutsideArrays t) entries Hall []
                mapOk_nil) as [fields [Hf [_ Hin]]].
    rewrite Hf in Ht. injection Ht as <-.
    apply requiredOutsideArrays_object. rewrite Forall_forall in Hj |- *.
    intros [k f] Hkf. destruct (Hin k f Hkf) as [[]|[v [Hv [Hq Hr]]]]. simpl.
    specialize (Hj (k, v) Hv). simpl in Hj. split.
    + rewrite Hr, (jsonDecodable_defined v Hj). reflexivity.
    + now apply Hq.
Qed.

(** C10. For a JSON object value, the node a single call of
    [inferTypeFromValue] returns is an object node all of whose fields have
    [required = true]; more, no field of any object node of the tree that
    lies outside the items of an array is optional: optional fields arise
    only where nodes are unified, which inference does for the elements of an
    array only. *)
Theorem inferred_fields_required (entries : list (string * Value)) (options : Options) :
  jsonDecodable (VObject entries) ->
  exists fields,
    inferTypeFromValue (VObject entries) options = Some (TObject fields)
    /\ Forall (fun kf => required (snd kf) = true) fields
    /\ requiredOutsideArrays (TObject fields).
Proof.
  intros Hj.
  destruct (inferTypeFromValue_total_wellFormed (VObject entries) options) as [t [Ht _]].
  pose proof (inferTypeFromValue_required _ _ _ Hj Ht) as Hreq.
  rewrite inferTypeFromValue_object in Ht. rewrite inferTypeFromValue_object.
  destruct (inferFields options entries (Some [])) as [fields|]; [|discriminate].
  injection Ht as <-. exists fields. split; [reflexivity|].
  split; [|exact Hreq].
  apply requiredOutsideArrays_object in Hreq.
  apply Forall_impl with (2 := Hreq). intros kf [H _]. exact H.
Qed.

Lemma inferred_fields_required_witness :
  exists fields,
    inferTypeFromValue
      (VObject [("profile"%string,
                 VObject [("age"%string, VNumber 30); ("bio"%string, VNull)])])
      (mkOptions true 2 12) = Some (TObject fields)
    /\ Forall (fun kf => required (snd kf) = true) fields
    /\ requiredOutsideArrays (TObject fields).
Proof.
  apply (inferred_fields_required
           [("profile"%string,
             VObject [("age"%string, VNumber 30); ("bio"%string, VNull)])]
           (mkOptions true 2 12)).
  simpl. repeat split; repeat constructor; simpl; intuition discriminate.
Defined.

(** Unifying two object samples is what makes a field optional: the items of
    the array of [{a: 1, b: x}] and [{a: 2}]. *)
Example optional_field_by_unification :
  inferTypeFromValue
    (VArray [VObject [("a"%string, VNumber 1); ("b"%string, VString "x!")];
             VObject [("a"%string, VNumber 2)]])
    (mkOptions true 2 12)
  = Some (TArray (TObject
            [("a"%string, mkField TNumber true);
             ("b"%string, mkField (TString (Some false) None (Some "x!"%string)) false)])).
Proof. vm_compute. reflexivity. Qed.

(** ** The string-enum rule for arrays *)

Lemma filter_filter_comm {A : Type} (p q : A -> bool) l :
  filter p (filter q l) = filter q (filter p l).
Proof.
  induction l as [|x l IH]; simpl; [reflexivity|].
  destruct (p x) eqn:Ep, (q x) eqn:Eq; simpl; rewrite ?Ep, ?Eq, IH; reflexivity.
Qed.

Lemma filter_idem {A : Type} (p : A -> bool) l : filter p (filter p l) = filter p l.
Proof.
  induction l as [|x l IH]; simpl; [reflexivity|].
  destruct (p x) eqn:Ep; simpl; rewrite ?Ep, IH; reflexivity.
Qed.

Lemma firstSeen_filter (p : string -> bool) l :
  firstSeen (filter p l) = filter p (firstSeen l).
Proof.
  induction l as [|x l IH]; simpl; [reflexivity|].
  destruct (p x) eqn:Ep; simpl.
  - rewrite IH. f_equal. apply filter_filter_comm.
  - rewrite IH.
    assert (E : forall m, filter p (filter (fun y => negb (String.eqb x y)) m)
                          = filter p m).
    { induction m as [|y m IHm]; simpl; [reflexivity|].
      destruct (String.eqb_spec x y) as [<-|Hne]; simpl.
      - now rewrite Ep.
      - destruct (p y); now rewrite IHm. }
    symmetry. apply E.
Qed.

Lemma fold_setAdd_firstSeen l : forall acc,
  fold_left setAdd l acc =
  acc ++ firstSeen (filter (fun y => negb (existsb (String.eqb y) acc)) l).
Proof.
  induction l as [|x l IH]; intros acc; simpl.
  - now rewrite app_nil_r.
  - rewrite IH. unfold setAdd. destruct (existsb (String.eqb x) acc) eqn:Ex; simpl.
    + reflexivity.
    + rewrite <- app_assoc. simpl. f_equal. f_equal.
      rewrite <- firstSeen_filter. f_equal.
      rewrite filter_filter_comm.
      assert (E : forall m,
                 filter (fun y => negb (existsb (String.eqb y) (acc ++ [x]))) m =
                 filter (fun y => negb (existsb (String.eqb y) acc))
                        (filter (fun y => negb (String.eqb x y)) m)).
      { induction m as [|y m IHm]; simpl; [reflexivity|].
        rewrite existsb_app. simpl. rewrite orb_false_r.
        rewrite (String.eqb_sym y x).
        destruct (String.eqb x y); simpl.
        - rewrite orb_true_r. simpl. apply IHm.
        - rewrite orb_false_r. destruct (existsb _ acc); simpl; now rewrite IHm. }
      apply E.
Qed.

(** [[...new Set(l)]] is the list of distinct values in first-seen order. *)
Lemma setOf_firstSeen l : setOf l = firstSeen l.
Proof.
  unfold setOf. rewrite fold_setAdd_firstSeen. simpl. f_equal.
  induction l as [|x l IH]; simpl; [reflexivity | now rewrite IH].
Qed.

Lemma all_In p s :
  Chars.all p s = true <-> forall c, In c (list_ascii_of_string s) -> p c = true.
Proof.
  induction s as [|c s IH]; simpl.
  - split; [intros _ c [] | reflexivity].
  - rewrite andb_true_iff, IH. split.
    + intros [Hc Hs] c' [<-|Hin]; auto.
    + intros H. split; [apply H; now left | intros c' Hin; apply H; now right].
Qed.

Lemma isShortToken_tokenLike s : isShortToken s = true <-> tokenLike s.
Proof.
  unfold isShortToken, tokenLike, matchesToken.
  rewrite !andb_true_iff, Nat.ltb_lt, Nat.leb_le.
  destruct s as [|c s].
  - simpl. split; [intros [[H _] _]; lia | intros [H _]; congruence].
  - rewrite all_In. split.
    + intros [[_ Hl] Ha]. repeat split; [discriminate | assumption | assumption].
    + intros [_ [Hl Ha]]. repeat split; [simpl; lia | assumption | assumption].
Qed.

Lemma shouldUseStringEnumForArray_enumCondition strs options :
  shouldUseStringEnumForArray strs options = true <-> enumCondition strs options.
Proof.
  unfold shouldUseStringEnumForArray, enumCondition. rewrite setOf_firstSeen.
  destruct (Z.ltb_spec (Z.of_nat (List.length (firstSeen strs)))
                       (stringEnumMinUniqueValues options)) as [H1|H1]; simpl.
  - split; [discriminate | intros [[H _] _]; lia].
  - destruct (Z.ltb_spec (stringEnumMaxUniqueValues options)
                         (Z.of_nat (List.length (firstSeen strs)))) as [H2|H2].
    + split; [discriminate | intros [[_ H] _]; lia].
    + rewrite forallb_forall, Forall_forall. split.
      * intros H. split; [lia|]. intros s Hs. apply isShortToken_tokenLike. auto.
      * intros [_ H] s Hs. apply isShortToken_tokenLike. auto.
Qed.

Lemma arrayContainsOnlyStrings_map elements :
  arrayContainsOnlyStrings elements = true ->
  elements = map VString (stringsIn elements).
Proof.
  induction elements as [|v elements IH]; simpl; [reflexivity|].
  destruct v; simpl; try discriminate. intros H. f_equal. now apply IH.
Qed.

Lemma mapM_infer_strings options strs :
  mapM (fun v => inferTypeFromValue v options) (map VString strs)
  = Some (map (stringNode options) strs).
Proof.
  induction strs as [|s strs IH]; simpl; [reflexivity|]. now rewrite IH.
Qed.

(** Unifying plain string nodes gives a plain string node. *)
Lemma unifyTypes_plain_strings d s d' s' :
  exists d2 s2,
    unifyTypes (TString (Some d) None s) (TString (Some d') None s')
    = TString (Some d2) None s2.
Proof.
  destruct (areTypesEqual (TString (Some d) None s) (TString (Some d') None s')) eqn:E.
  - rewrite (unifyTypes_equal _ _ E). now exists d, s.
  - cbn [unifyTypes]. rewrite E. simpl. eauto.
Qed.

Lemma fold_unifyTypes_plain_strings options strs : forall d s,
  exists d2 s2,
    fold_left unifyTypes (map (stringNode options) strs) (TString (Some d) None s)
    = TString (Some d2) None s2.
Proof.
  induction strs as [|x strs IH]; intros d s; cbn [map fold_left].
  - now exists d, s.
  - unfold stringNode at 2.
    destruct (unifyTypes_plain_strings d s
                (detectDatesFromIsoStrings options && isIsoLikeDateString x) (Some x))
      as [d2 [s2 ->]].
    apply IH.
Qed.

Lemma string_array_cases elements options :
  elements <> [] ->
  arrayContainsOnlyStrings elements = true ->
  (enumCondition (stringsIn elements) options ->
   inferTypeFromValue (VArray elements) options
   = Some (TArray (TString None (Some (firstSeen (stringsIn elements))) None)))
  /\ (~ enumCondition (stringsIn elements) options ->
      exists d s,
        inferTypeFromValue (VArray elements) options
        = Some (TArray (TString (Some d) None s))).
Proof.
  intros Hne Hstr.
  rewrite inferTypeFromValue_array, Hstr.
  destruct elements as [|e elements]; [congruence|]. cbn [List.length Nat.eqb andb].
  split.
  - intros Hc. apply shouldUseStringEnumForArray_enumCondition in Hc.
    now rewrite Hc, setOf_firstSeen.
  - intros Hc.
    destruct (shouldUseStringEnumForArray (stringsIn (e :: elements)) options) eqn:E.
    + apply shouldUseStringEnumForArray_enumCondition in E. contradiction.
    + assert (Hm : mapM (fun v => inferTypeFromValue v options) (e :: elements)
                   = Some (map (stringNode options) (stringsIn (e :: elements)))).
      { rewrite (arrayContainsOnlyStrings_map _ Hstr) at 1.
        apply mapM_infer_strings. }
      rewrite Hm.
      destruct (stringsIn (e :: elements)) as [|x strs] eqn:Es.
      { apply arrayContainsOnlyStrings_map in Hstr. rewrite Es in Hstr. discriminate. }
      cbn [map unifyTypesMany bind]. unfold stringNode at 2.
      destruct (fold_unifyTypes_plain_strings options strs
                  (detectDatesFromIsoStrings options && isIsoLikeDateString x) (Some x))
        as [d2 [s2 ->]].
      now exists d2, s2.
Qed.

Lemma enumCondition_dec strs options :
  enumCondition strs options \/ ~ enumCondition strs options.
Proof.
  destruct (shouldUseStringEnumForArray strs options) eqn:E.
  - left. now apply shouldUseStringEnumForArray_enumCondition.
  - right. intros H. apply shouldUseStringEnumForArray_enumCondition in H. congruence.
Qed.

(** C4. For an array whose elements are all strings, the inferred items are
    a string node whose [enumValues] are the distinct values in first-seen
    order exactly when the number of distinct values lies within the two
    thresholds and every distinct value is non-empty, at most 20 characters
    long and made of [[A-Za-z0-9_-]]: the node is then the enum without date
    flag and sample, and otherwise, for a non-empty array, a plain string
    node without [enumValues].  The array is one the rule is for: not empty
    (the rule for the empty array comes before this one), or else the minimum
    is at least 1, as the default 2 is, so that the empty array does not meet
    the thresholds either.  In particular the array of [a] and [b] with
    thresholds 2 and 12 gives the two-member enum, and the array of [a] alone
    with minimum 2 gives a plain string node. *)
Theorem string_array_enum :
  (forall elements options,
      elements <> [] \/ (1 <= stringEnumMinUniqueValues options)%Z ->
      arrayContainsOnlyStrings elements = true ->
      ((exists d s,
           inferTypeFromValue (VArray elements) options
           = Some (TArray (TString d (Some (firstSeen (stringsIn elements))) s)))
       <-> enumCondition (stringsIn elements) options)
      /\ (enumCondition (stringsIn elements) options ->
          inferTypeFromValue (VArray elements) options
          = Some (TArray (TString None (Some (firstSeen (stringsIn elements))) None)))
      /\ (~ enumCondition (stringsIn elements) options -> elements <> [] ->
          exists d s,
            inferTypeFromValue (VArray elements) options
            = Some (TArray (TString (Some d) None s))))
  /\ inferTypeFromValue (VArray [VString "a"; VString "b"]) (mkOptions true 2 12)
     = Some (TArray (TString None (Some ["a"; "b"]%string) None))
  /\ (forall detect max,
         inferTypeFromValue (VArray [VString "a"]) (mkOptions detect 2 max)
         = Some (TArray (TString (Some false) None (Some "a"%string)))).
Proof.
  split; [|split].
  - intros elements options Hrule Hstr.
    destruct elements as [|e elements].
    + destruct Hrule as [Hne|Hmin]; [congruence|].
      assert (Hno : ~ enumCondition (stringsIn []) options).
      { intros [[Hlo _] _]. simpl in Hlo. lia. }
      split; [|split].
      * split; [|intros Hc; contradiction].
        intros [d [s H]]. discriminate H.
      * intros Hc. contradiction.
      * intros _ Hne. congruence.
    + assert (Hne : e :: elements <> []) by discriminate.
      destruct (string_array_cases (e :: elements) options Hne Hstr) as [Hyes Hnot].
      split; [|split].
      * split.
        -- intros [d [s H]].
           destruct (enumCondition_dec (stringsIn (e :: elements)) options) as [Hc|Hc];
             [assumption|].
           destruct (Hnot Hc) as [d2 [s2 H2]]. rewrite H2 in H. discriminate H.
        -- intros Hc. exists None, None. now apply Hyes.
      * exact Hyes.
      * intros Hc _. now apply Hnot.
  - vm_compute. reflexivity.
  - intros detect max. destruct detect; reflexivity.
Qed.

Lemma string_array_enum_witness :
  ((exists d s,
       inferTypeFromValue (VArray [VString "admin"; VString "editor"; VString "editor"])
                          (mkOptions true 2 12)
       = Some (TArray (TString d
                         (Some (firstSeen (stringsIn [VString "admin"; VString "editor";
                                                      VString "editor"]))) s)))
   <-> enumCondition (stringsIn [VString "admin"; VString "editor"; VString "editor"])
                     (mkOptions true 2 12))
  /\ (enumCondition (stringsIn [VString "admin"; VString "editor"; VString "editor"])
                    (mkOptions true 2 12) ->
      inferTypeFromValue (VArray [VString "admin"; VString "editor"; VString "editor"])
                         (mkOptions true 2 12)
      = Some (TArray (TString None
                        (Some (firstSeen (stringsIn [VString "admin"; VString "editor";
                                                     VString "editor"]))) None)))
  /\ (~ enumCondition (stringsIn [VString "admin"; VString "editor"; VString "editor"])
                      (mkOptions true 2 12) ->
      [VString "admin"; VString "editor"; VString "editor"] <> [] ->
      exists d s,
        inferTypeFromValue (VArray [VString "admin"; VString "editor"; VString "editor"])
                           (mkOptions true 2 12)
        = Some (TArray (TString (Some d) None s))).
Proof.
  apply (proj1 string_array_enum
               [VString "admin"; VString "editor"; VString "editor"]
               (mkOptions true 2 12)).
  - left. discriminate.
  - reflexivity.
Defined.

(** The rule for the empty array comes first, whatever the thresholds: with
    a minimum of 0, where the number of distinct values (none) lies within
    the thresholds, the items of the empty array are [any] all the same.
    Hence the hypothesis on the array in the rule for arrays of strings. *)
Lemma empty_array_is_not_an_enum :
  arrayContainsOnlyStrings [] = true
  /\ enumCondition (stringsIn []) (mkOptions true 0 12)
  /\ inferTypeFromValue (VArray []) (mkOptions true 0 12) = Some (TArray TAny).
Proof.
  split; [reflexivity|]. split; [|reflexivity].
  split; [simpl; lia | constructor].
Qed.

(** ** Normalization and duplicates *)

Lemma pairwiseDistinct_snoc flat t :
  pairwiseDistinct flat ->
  existsb (fun e => areTypesEqual e t) flat = false ->
  pairwiseDistinct (flat ++ [t]).
Proof.
  unfold pairwiseDistinct. induction 1 as [|e flat He _ IH]; simpl; intros Hex.
  - constructor; constructor.
  - apply orb_false_elim in Hex. destruct Hex as [Het Hex].
    constructor; [|now apply IH].
    apply Forall_app. split; [assumption|]. now constructor.
Qed.

(** The branch of the loop for members that are not unions does remove
    duplicates: from an array without nested unions nothing is kept twice. *)
Lemma fold_flatten_distinct l : forall flat,
  Forall (fun t => isUnion t = false) l ->
  pairwiseDistinct flat ->
  pairwiseDistinct (fold_left flattenStep l flat).
Proof.
  induction l as [|t l IH]; intros flat Hl Hflat; simpl; [assumption|].
  inversion Hl as [|? ? Hu Hl']; subst. apply IH; [assumption|].
  assert (E : flattenStep flat t =
              if existsb (fun e => areTypesEqual e t) flat then flat else flat ++ [t]).
  { destruct t; try discriminate Hu; simpl; destruct (existsb _ flat); reflexivity. }
  rewrite E. destruct (existsb _ flat) eqn:Ex; [assumption|].
  now apply pairwiseDistinct_snoc.
Qed.

(** *** Members of a nested union are not checked *)

(** C2, at the failing input. Unifying the unions inferred for the arrays
    [[1, a]] and [[b, true]] hands [number, string, union(string, boolean)]
    to [normalizeUnionType]; the members of the nested union are appended
    without the test for duplicates, and the result holds [string] twice. *)
Theorem normalize_keeps_duplicate :
  let sa := TString (Some false) None (Some "a"%string) in
  let sb := TString (Some false) None (Some "b"%string) in
  normalizeUnionType [TNumber; sa; TUnion [sb; TBoolean]]
  = TUnion [TNumber; sa; sb; TBoolean]
  /\ areTypesEqual sa sb = true
  /\ ~ pairwiseDistinct [TNumber; sa; sb; TBoolean]
  /\ unifyTypes (TUnion [TNumber; sa]) (TUnion [sb; TBoolean])
     = TUnion [TNumber; sa; sb; TBoolean]
  /\ inferTypeFromValue
       (VArray [VArray [VNumber 1; VString "a"]; VArray [VString "b"; VBoolean true]])
       (mkOptions true 2 12)
     = Some (TArray (TArray (TUnion [TNumber; sa; sb; TBoolean]))).
Proof.
  cbv zeta. split; [vm_compute; reflexivity|]. split; [vm_compute; reflexivity|].
  split; [|split; vm_compute; reflexivity].
  intros H. inversion H as [|? ? _ H']; subst.
  inversion H' as [|? ? Hs _]; subst. inversion Hs as [|? ? Hab _]; subst.
  vm_compute in Hab. discriminate Hab.
Qed.

(** ** Rendering: the order of the fields of an object body *)

Section SortFacts.
Context {A : Type} (compare : A -> A -> Z).

Lemma insertSorted_perm x l : Permutation (insertSorted compare x l) (x :: l).
Proof.
  induction l as [|y l IH]; simpl; [reflexivity|].
  destruct (compare x y <=? 0)%Z; [reflexivity|].
  rewrite IH. apply perm_swap.
Qed.

Lemma sortBy_perm l : Permutation (sortBy compare l) l.
Proof.
  induction l as [|x l IH]; simpl; [reflexivity|].
  rewrite insertSorted_perm. now constructor.
Qed.

Hypothesis compare_trans :
  forall a b c, (compare a b <= 0 -> compare b c <= 0 -> compare a c <= 0)%Z.
Hypothesis compare_total : forall a b, (compare a b <= 0 \/ compare b a <= 0)%Z.

Lemma insertSorted_sorted x l :
  StronglySorted (fun a b => (compare a b <= 0)%Z) l ->
  StronglySorted (fun a b => (compare a b <= 0)%Z) (insertSorted compare x l).
Proof.
  induction 1 as [|y l Hs IH Hy]; simpl.
  - constructor; constructor.
  - destruct (Z.leb_spec (compare x y) 0) as [Hle|Hgt].
    + constructor; [now constructor|]. constructor; [assumption|].
      apply Forall_impl with (2 := Hy). intros z Hz. now apply compare_trans with y.
    + constructor; [assumption|].
      apply (Permutation_Forall (x := x :: l)).
      * symmetry. apply insertSorted_perm.
      * constructor; [|assumption].
        destruct (compare_total x y) as [H|H]; [lia | assumption].
Qed.

Lemma sortBy_sorted l :
  StronglySorted (fun a b => (compare a b <= 0)%Z) (sortBy compare l).
Proof.
  induction l as [|x l IH]; simpl; [constructor | now apply insertSorted_sorted].
Qed.

End SortFacts.

Lemma insertSorted_map {A B : Type} (p : A -> B) (cmpA : A -> A -> Z) (cmpB : B -> B -> Z)
      x l :
  (forall a b, cmpB (p a) (p b) = cmpA a b) ->
  map p (insertSorted cmpA x l) = insertSorted cmpB (p x) (map p l).
Proof.
  intros H. induction l as [|y l IH]; simpl; [reflexivity|].
  rewrite H. destruct (cmpA x y <=? 0)%Z; simpl; [reflexivity | now rewrite IH].
Qed.

Lemma sortBy_map {A B : Type} (p : A -> B) (cmpA : A -> A -> Z) (cmpB : B -> B -> Z) l :
  (forall a b, cmpB (p a) (p b) = cmpA a b) ->
  map p (sortBy cmpA l) = sortBy cmpB (map p l).
Proof.
  intros H. induction l as [|x l IH]; simpl; [reflexivity|].
  now rewrite (insertSorted_map p cmpA cmpB), IH.
Qed.

Section RendererFacts.
Variable localeCompare : string -> string -> Z.
Variable toUpperCase : ascii -> string.
Variable typeKeyword : string.

Local Abbreviation render := (renderTypeNode localeCompare toUpperCase typeKeyword).
Local Abbreviation entriesOf := (fieldEntries localeCompare toUpperCase typeKeyword).
Local Abbreviation sorted := (sortEntries localeCompare).
Local Abbreviation byName := (byName localeCompare).

Lemma renderTypeNode_object fields parentJsonKey inArray id :
  render (TObject fields) parentJsonKey inArray id =
  (lines <~ renderFields (sorted (entriesOf id fields 0)) ;;
   ret (join newline (["{"%string] ++ lines ++ ["}"%string]))).
Proof.
  cbn [renderTypeNode].
  match goal with
  | |- context [sortEntries _ (?F fields 0)] =>
      assert (E : forall l i, F l i = entriesOf id l i)
  end.
  { induction l as [|[k f] r IH]; intros i; [reflexivity|].
    cbn [fieldEntries]. f_equal. apply IH. }
  now rewrite E.
Qed.

Lemma fieldEntries_plain id fields : forall i,
  map plainEntry (entriesOf id fields i) = fields.
Proof.
  induction fields as [|[k f] r IH]; intros i; simpl; [reflexivity|].
  now rewrite IH.
Qed.

Lemma renderFields_lines entries : forall st,
  exists tsTypes st',
    renderFields entries st = (bodyLines (map plainEntry entries) tsTypes, st')
    /\ List.length tsTypes = List.length entries.
Proof.
  induction entries as [|[k [f renderField]] r IH]; intros st.
  - exists [], st. now split.
  - cbn [renderFields]. unfold bindM at 1.
    destruct (renderField st) as [tsType st1].
    destruct (IH st1) as [tsTypes [st' [Hr Hl]]].
    unfold bindM. rewrite Hr. exists (tsType :: tsTypes), st'. split.
    + reflexivity.
    + simpl. now rewrite Hl.
Qed.

(** C8 (as amended). Rendering an object node always yields a body whose
    field lines come in the order in which sorting by [a.localeCompare(b)]
    puts the field names: a rearrangement of the fields that is ascending for
    [localeCompare], whatever the order of insertion, provided
    [localeCompare] is a total preorder (as a collation is). *)
Theorem object_fields_sorted_by_localeCompare
        (fields : JsMap (FieldInfo TypeNode)) (parentJsonKey : string)
        (inArray : bool) (id : NodeId) (st : RenderState) :
  (forall a b c, (localeCompare a b <= 0 -> localeCompare b c <= 0
                  -> localeCompare a c <= 0)%Z) ->
  (forall a b, (localeCompare a b <= 0 \/ localeCompare b a <= 0)%Z) ->
  exists tsTypes st',
    render (TObject fields) parentJsonKey inArray id st
    = (join newline (["{"%string] ++ bodyLines (sortBy byName fields) tsTypes
                     ++ ["}"%string]), st')
    /\ List.length tsTypes = List.length fields
    /\ Permutation (sortBy byName fields) fields
    /\ StronglySorted (fun a b => (localeCompare (fst a) (fst b) <= 0)%Z)
                      (sortBy byName fields).
Proof.
  intros Htrans Htotal.
  rewrite renderTypeNode_object. unfold bindM.
  destruct (renderFields_lines (sorted (entriesOf id fields 0)) st)
    as [tsTypes [st' [Hr Hl]]].
  rewrite Hr. unfold sortEntries in *.
  rewrite (sortBy_map plainEntry _ byName) in Hr by reflexivity.
  rewrite (sortBy_map plainEntry _ byName) by reflexivity.
  rewrite fieldEntries_plain in *.
  exists tsTypes, st'. split; [reflexivity|]. split; [|split].
  - rewrite Hl. rewrite <- (fieldEntries_plain id fields 0) at 2.
    rewrite length_map. apply Permutation_length, sortBy_perm.
  - apply sortBy_perm.
  - apply (sortBy_sorted byName).
    + intros a b c. apply Htrans.
    + intros a b. apply Htotal.
Qed.

End RendererFacts.

(** *** The concrete collation is a total preorder *)

Lemma alphabeticCompare_total a : forall b,
  (alphabeticCompare a b <= 0 \/ alphabeticCompare b a <= 0)%Z.
Proof.
  induction a as [|x a IH]; intros [|y b]; simpl; try lia.
  destruct (Nat.ltb_spec (letterRank x) (letterRank y));
    destruct (Nat.ltb_spec (letterRank y) (letterRank x)); try lia.
  apply IH.
Qed.

Lemma alphabeticCompare_trans a : forall b c,
  (alphabeticCompare a b <= 0 -> alphabeticCompare b c <= 0
   -> alphabeticCompare a c <= 0)%Z.
Proof.
  induction a as [|x a IH]; intros [|y b] [|z c]; simpl; try lia.
  destruct (Nat.ltb_spec (letterRank x) (letterRank y));
    destruct (Nat.ltb_spec (letterRank y) (letterRank x));
    destruct (Nat.ltb_spec (letterRank y) (letterRank z));
    destruct (Nat.ltb_spec (letterRank z) (letterRank y));
    destruct (Nat.ltb_spec (letterRank x) (letterRank z));
    destruct (Nat.ltb_spec (letterRank z) (letterRank x));
    try lia.
  apply IH.
Qed.

Lemma object_fields_sorted_by_localeCompare_witness :
  exists tsTypes st',
    renderTypeNode alphabeticCompare asciiToUpperCase "type"
      (TObject [("b"%string, mkField TNumber true); ("a"%string, mkField TBoolean false)])
      "Root" false [] (mkRenderState [] [] ["Root"%string])
    = (join newline
         (["{"%string]
          ++ bodyLines
               (sortBy (byName alphabeticCompare)
                  [("b"%string, mkField TNumber true); ("a"%string, mkField TBoolean false)])
               tsTypes
          ++ ["}"%string]), st')
    /\ List.length tsTypes
       = List.length [("b"%string, mkField TNumber true);
                      ("a"%string, mkField TBoolean false)]
    /\ Permutation
         (sortBy (byName alphabeticCompare)
            [("b"%string, mkField TNumber true); ("a"%string, mkField TBoolean false)])
         [("b"%string, mkField TNumber true); ("a"%string, mkField TBoolean false)]
    /\ StronglySorted (fun a b => (alphabeticCompare (fst a) (fst b) <= 0)%Z)
         (sortBy (byName alphabeticCompare)
            [("b"%string, mkField TNumber true); ("a"%string, mkField TBoolean false)]).
Proof.
  apply (object_fields_sorted_by_localeCompare alphabeticCompare asciiToUpperCase
           "type"
           [("b"%string, mkField TNumber true); ("a"%string, mkField TBoolean false)]
           "Root" false [] (mkRenderState [] [] ["Root"%string])).
  - intros a b c. apply alphabeticCompare_trans.
  - intros a b. apply alphabeticCompare_total.
Defined.

(** C8, counterexample. With a collation that puts letters in alphabetical
    order before it looks at their case, the object with the fields [B] and
    [a] is rendered with [a] first, while the ordinal comparison puts [B]
    (code 66) before [a] (code 97). *)
Lemma fields_not_in_ordinal_order :
  renderTypeNode alphabeticCompare asciiToUpperCase "type"
    (TObject [("B"%string, mkField TNumber true); ("a"%string, mkField TNumber true)])
    "Root" false [] (mkRenderState [] [] ["Root"%string])
  = (join newline ["{"; "  a: number;"; "  B: number;"; "}"]%string,
     mkRenderState [] [] ["Root"%string])
  /\ (ordinalCompare "B" "a" < 0)%Z
  /\ (alphabeticCompare "a" "B" < 0)%Z.
Proof. vm_compute. repeat split; reflexivity. Qed.

(** *** The search for a free type name ends within its bound *)

Lemma append_inj_l (a b c : string) : (a ++ b = a ++ c)%string -> b = c.
Proof.
  induction a as [|x a IH]; simpl; intros H; [assumption|].
  injection H as H. now apply IH.
Qed.

Lemma decimal_inj m n : decimal m = decimal n -> m = n.
Proof.
  unfold decimal. intros H. apply DecimalNat.Unsigned.to_uint_inj.
  apply (f_equal NilEmpty.uint_of_string) in H. rewrite !NilEmpty.usu in H.
  now injection H.
Qed.

Lemma firstFreeSuffix_step used baseName fuel : forall n,
  (exists k, k < fuel /\ setHas used (baseName ++ decimal (n + k))%string = false) ->
  setHas used (baseName ++ decimal (firstFreeSuffix used baseName n fuel))%string = false.
Proof.
  induction fuel as [|fuel IH]; intros n [k [Hk Hfree]]; [lia|].
  simpl. destruct (setHas used (baseName ++ decimal n)%string) eqn:E; [|exact E].
  apply IH. destruct k as [|k].
  - rewrite Nat.add_0_r in Hfree. congruence.
  - exists k. split; [lia|]. now rewrite Nat.add_succ_comm.
Qed.

Lemma free_candidate used (f : nat -> string) :
  (forall m n, f m = f n -> m = n) ->
  exists k, k < S (List.length used) /\ setHas used (f k) = false.
Proof.
  intros Hinj.
  destruct (forallb (fun k => setHas used (f k)) (seq 0 (S (List.length used)))) eqn:E.
  - exfalso. rewrite forallb_forall in E.
    assert (Hincl : incl (map f (seq 0 (S (List.length used)))) used).
    { intros x Hx. apply in_map_iff in Hx. destruct Hx as [k [<- Hk]].
      apply existsb_eqb_In. apply (E k Hk). }
    assert (Hnd : NoDup (map f (seq 0 (S (List.length used))))).
    { apply Injective_map_NoDup; [exact Hinj | apply seq_NoDup]. }
    pose proof (NoDup_incl_length Hnd Hincl) as Hlen.
    rewrite length_map, length_seq in Hlen. lia.
  - assert (Hex : existsb (fun k => negb (setHas used (f k)))
                          (seq 0 (S (List.length used))) = true).
    { clear - E. induction (seq 0 (S (List.length used))) as [|k l IH]; simpl in *;
        [discriminate|].
      destruct (setHas used (f k)); simpl in *; [now apply IH | reflexivity]. }
    apply existsb_exists in Hex. destruct Hex as [k [Hk Hfree]].
    apply in_seq in Hk. exists k. split; [lia|].
    now destruct (setHas used (f k)).
Qed.

(** The loop of [nextAvailableTypeName] stops at a name that is not in use:
    the bound on its rounds is never what ends it. *)
Lemma firstFreeSuffix_free used baseName :
  setHas used
    (baseName ++ decimal (firstFreeSuffix used baseName 2 (S (List.length used))))%string
  = false.
Proof.
  apply firstFreeSuffix_step.
  apply (free_candidate used (fun k => (baseName ++ decimal (2 + k))%string)).
  intros m n H. apply append_inj_l, decimal_inj in H. lia.
Qed.

(** The scenario of the specification: a nested object is hoisted under the
    capitalized name of its key, the root declaration comes last. *)
Example nested_object_naming :
  option_map (renderTypescriptFromTree alphabeticCompare asciiToUpperCase "type" "User")
    (inferTypeFromValue
       (VObject [("profile"%string,
                  VObject [("age"%string, VNumber 30); ("bio"%string, VNull)])])
       (mkOptions true 2 12))
  = Some (join (newline ++ newline)
            [header;
             join newline ["export type Profile = {"; "  age: number;"; "  bio: any;"; "};"];
             join newline ["export type User = {"; "  profile: Profile;"; "};"]]
          ++ newline)%string.
Proof. vm_compute. reflexivity. Qed.

(** ** Commutativity of unification up to order *)

Lemma sameShape_union xs ys :
  sameShape (TUnion xs) (TUnion ys) = true <->
  (forall x, In x xs -> exists y, In y ys /\ sameShape x y = true)
  /\ (forall y, In y ys -> exists x, In x xs /\ sameShape x y = true).
Proof.
  cbn [sameShape]. rewrite andb_true_iff, !forallb_forall. split.
  - intros [H1 H2]. split.
    + intros x Hx. apply H1, existsb_exists in Hx. exact Hx.
    + intros y Hy. apply H2, existsb_exists in Hy. exact Hy.
  - intros [H1 H2]. split.
    + intros x Hx. apply existsb_exists. now apply H1.
    + intros y Hy. apply existsb_exists. now apply H2.
Qed.

Lemma sameShape_object af bf :
  sameShape (TObject af) (TObject bf) = true <->
  mapSize af = mapSize bf /\
  (forall k fa, In (k, fa) af ->
     exists fb, mapGet bf k = Some fb /\ required fa = required fb
                /\ sameShape (type fa) (type fb) = true).
Proof.
  cbn [sameShape]. rewrite andb_true_iff, Nat.eqb_eq, forallb_forall. split.
  - intros [Hs H]. split; [assumption|]. intros k fa Hin.
    specialize (H (k, fa) Hin). simpl in H.
    destruct (mapGet bf k) as [fb|]; [|discriminate].
    apply andb_prop in H. destruct H as [Hr Ht].
    exists fb. repeat split; [now apply Bool.eqb_prop | assumption].
  - intros [Hs H]. split; [assumption|]. intros [k fa] Hin.
    destruct (H k fa Hin) as [fb [-> [Hr Ht]]].
    rewrite Hr, Ht. now rewrite Bool.eqb_reflx.
Qed.

Lemma sameMembers_iff a b :
  sameMembers a b = true <-> (forall x, In x a <-> In x b).
Proof.
  unfold sameMembers. rewrite andb_true_iff, !forallb_forall. split.
  - intros [H1 H2] x. split; intros Hx.
    + now apply existsb_eqb_In, H1.
    + now apply existsb_eqb_In, H2.
  - intros H. split; intros x Hx; apply existsb_eqb_In; now apply H.
Qed.

Lemma Forall2_In_l {A B : Type} (R : A -> B -> Prop) l l' x :
  Forall2 R l l' -> In x l -> exists y, In y l' /\ R x y.
Proof.
  induction 1 as [|a b l l' Hab _ IH]; intros Hin; [contradiction|].
  destruct Hin as [<-|Hin].
  - exists b. split; [now left | assumption].
  - destruct (IH Hin) as [y [Hy Hxy]]. exists y. split; [now right | assumption].
Qed.

Lemma Forall2_In_r {A B : Type} (R : A -> B -> Prop) l l' y :
  Forall2 R l l' -> In y l' -> exists x, In x l /\ R x y.
Proof.
  induction 1 as [|a b l l' Hab _ IH]; intros Hin; [contradiction|].
  destruct Hin as [<-|Hin].
  - exists a. split; [now left | assumption].
  - destruct (IH Hin) as [x [Hx Hxy]]. exists x. split; [now right | assumption].
Qed.

(** Structural equality is finer than equality up to order. *)
Lemma areTypesEqual_sameShape a : forall b,
  areTypesEqual a b = true -> sameShape a b = true.
Proof.
  induction a as [| | |d e s|items IH|types IH|fields IH] using TypeNode_nested_ind;
    intros b H; pose proof (areTypesEqual_kind _ _ H) as Hk;
    destruct b as [| | |d' e' s'|items'|types'|fields']; try discriminate Hk;
    try reflexivity.
  - apply areTypesEqual_string in H. destruct H as [Hd He].
    cbn [sameShape]. rewrite Hd, He, Bool.eqb_reflx. simpl.
    apply sameMembers_iff. reflexivity.
  - simpl in H. now apply IH.
  - apply areTypesEqual_union in H. apply sameShape_union. clear Hk.
    rewrite Forall_forall in IH. split.
    + intros x Hx. destruct (Forall2_In_l _ _ _ _ H Hx) as [y [Hy Hxy]]. eauto.
    + intros y Hy. destruct (Forall2_In_r _ _ _ _ H Hy) as [x [Hx Hxy]]. eauto.
  - apply areTypesEqual_object in H. destruct H as [Hs H].
    apply sameShape_object. split; [assumption|].
    rewrite Forall_forall in IH. intros k fa Hin.
    destruct (H k fa Hin) as [fb [Hg [Hr Ht]]].
    exists fb. repeat split; try assumption. now apply (IH (k, fa) Hin).
Qed.

Lemma wellFormed_mapsOk t : wellFormed t -> mapsOk t.
Proof.
  induction t as [| | |d e s|items IH|types IH|fields IH] using TypeNode_nested_ind;
    intros H; try exact I.
  - simpl in *. auto.
  - apply wellFormed_union in H. destruct H as [_ H].
    simpl. apply fold_right_and_Forall.
    rewrite Forall_forall in IH, H |- *. intros m Hm.
    apply (IH m Hm). apply (H m Hm).
  - apply wellFormed_object in H. destruct H as [Hok H].
    simpl. split; [assumption|].
    apply (fold_right_and_Forall (fun kf => mapsOk (type (snd kf)))).
    rewrite Forall_forall in IH, H |- *. intros kf Hkf.
    apply (IH kf Hkf). apply (H kf Hkf).
Qed.

Lemma sameShape_refl t : mapsOk t -> sameShape t t = true.
Proof. intros H. now apply areTypesEqual_sameShape, areTypesEqual_refl. Qed.

(** *** The equations of [unifyTypes], case by case *)

Lemma unifyTypes_union_l aTypes b :
  areTypesEqual (TUnion aTypes) b = false -> isAny b = false ->
  unifyTypes (TUnion aTypes) b = normalizeUnionType (aTypes ++ [b]).
Proof.
  intros E Hb. destruct b; try discriminate Hb; cbn [unifyTypes]; rewrite ?E; reflexivity.
Qed.

Lemma unifyTypes_union_r a bTypes :
  areTypesEqual a (TUnion bTypes) = false -> isAny a = false -> isUnion a = false ->
  unifyTypes a (TUnion bTypes) = normalizeUnionType (a :: bTypes).
Proof.
  intros E Ha Hu.
  destruct a; try discriminate Ha; try discriminate Hu; cbn [unifyTypes]; rewrite ?E;
    reflexivity.
Qed.

Lemma unifyTypes_mixed a b :
  areTypesEqual a b = false ->
  isAny a = false -> isAny b = false -> isUnion a = false -> isUnion b = false ->
  kind a <> kind b ->
  unifyTypes a b = normalizeUnionType [a; b].
Proof.
  intros E Ha Hb Hua Hub Hk.
  destruct a; try discriminate Ha; try discriminate Hua;
    destruct b; try discriminate Hb; try discriminate Hub;
    try (exfalso; apply Hk; reflexivity);
    cbn [unifyTypes]; rewrite ?E; reflexivity.
Qed.

Lemma unifyTypes_strings d e s d' e' s' :
  areTypesEqual (TString d e s) (TString d' e' s') = false ->
  unifyTypes (TString d e s) (TString d' e' s')
  = TString (Some (truthy d || truthy d')) (mergeStringLiteralSets e e') None.
Proof. intros E. cbn [unifyTypes]. now rewrite E. Qed.

Lemma unifyTypes_arrays aItems bItems :
  areTypesEqual (TArray aItems) (TArray bItems) = false ->
  unifyTypes (TArray aItems) (TArray bItems) = TArray (unifyTypes aItems bItems).
Proof. intros E. cbn [unifyTypes]. rewrite E. reflexivity. Qed.

(** *** What the flattening loop keeps *)

Lemma flattenStep_plain flat t :
  isUnion t = false ->
  flattenStep flat t =
  if existsb (fun e => areTypesEqual e t) flat then flat else flat ++ [t].
Proof.
  intros H. destruct t; try discriminate H; simpl;
    destruct (existsb _ flat); reflexivity.
Qed.

Lemma fold_flatten_keeps l : forall flat x,
  In x flat -> In x (fold_left flattenStep l flat).
Proof.
  induction l as [|t l IH]; intros flat x Hx; simpl; [assumption|].
  apply IH. destruct t; simpl; try (destruct (negb _)); try assumption;
    apply in_or_app; now left.
Qed.

Lemma fold_flatten_from l : forall flat x,
  Forall plainMember l ->
  In x (fold_left flattenStep l flat) -> In x flat \/ In x l.
Proof.
  induction l as [|t l IH]; intros flat x Hl Hx; simpl in *; [now left|].
  inversion Hl as [|? ? [_ [Hu _]] Hl']; subst.
  apply IH in Hx; [|assumption]. destruct Hx as [Hx|Hx]; [|right; now right].
  rewrite (flattenStep_plain _ _ Hu) in Hx.
  destruct (existsb _ flat); [now left|].
  apply in_app_or in Hx. destruct Hx as [Hx|[<-|[]]]; [now left | right; now left].
Qed.

Lemma fold_flatten_represents l : forall flat t,
  Forall plainMember l -> In t l ->
  exists e, In e (fold_left flattenStep l flat) /\ areTypesEqual e t = true.
Proof.
  induction l as [|t0 l IH]; intros flat t Hl Ht; [contradiction|].
  inversion Hl as [|? ? [_ [Hu Hok]] Hl']; subst. simpl.
  destruct Ht as [<-|Ht]; [|now apply IH].
  rewrite (flattenStep_plain _ _ Hu).
  destruct (existsb (fun e => areTypesEqual e t0) flat) eqn:E.
  - apply existsb_exists in E. destruct E as [e [He Heq]].
    exists e. split; [now apply fold_flatten_keeps | assumption].
  - exists t0. split; [|now apply areTypesEqual_refl].
    apply fold_flatten_keeps, in_or_app. right. now left.
Qed.

Lemma fold_flatten_all_equal r t0 :
  (forall t, In t r -> isUnion t = false /\ areTypesEqual t0 t = true) ->
  fold_left flattenStep r [t0] = [t0].
Proof.
  induction r as [|t r IH]; intros H; simpl; [reflexivity|].
  destruct (H t (or_introl eq_refl)) as [Hu Heq].
  rewrite (flattenStep_plain _ _ Hu). simpl. rewrite Heq. simpl.
  apply IH. intros t' Ht'. apply H. now right.
Qed.

Lemma plain_no_any l : Forall plainMember l -> existsb isAny l = false.
Proof.
  induction 1 as [|t l [Ha _] _ IH]; simpl; [reflexivity|]. now rewrite Ha, IH.
Qed.

(** If the flattening of one array leaves a single member, so does the
    flattening of any array with the same members. *)
Lemma fold_flatten_singleton l1 l2 x :
  Forall plainMember l1 -> Forall plainMember l2 ->
  (forall t, In t l1 <-> In t l2) ->
  fold_left flattenStep l1 [] = [x] ->
  exists y, fold_left flattenStep l2 [] = [y] /\ areTypesEqual x y = true.
Proof.
  intros H1 H2 Hsame Hflat.
  assert (Hall : forall t, In t l1 -> areTypesEqual x t = true).
  { intros t Ht. destruct (fold_flatten_represents l1 [] t H1 Ht) as [e [He Heq]].
    rewrite Hflat in He. destruct He as [<-|[]]. assumption. }
  assert (Hx : In x l1).
  { destruct (fold_flatten_from l1 [] x H1) as [[]|Hx]; [|assumption].
    rewrite Hflat. now left. }
  rewrite Forall_forall in H1, H2.
  destruct l2 as [|t0 r]; [now apply Hsame in Hx|].
  assert (Ht0 : In t0 l1) by (apply Hsame; now left).
  destruct (H2 t0 (or_introl eq_refl)) as [_ [Hu0 Hok0]].
  destruct (H1 x Hx) as [_ [_ Hokx]].
  exists t0. split; [|now apply Hall].
  simpl. rewrite (flattenStep_plain _ _ Hu0). simpl.
  apply fold_flatten_all_equal. intros t Ht.
  destruct (H2 t (or_intror Ht)) as [_ [Hu Hok]]. split; [assumption|].
  assert (Ht1 : In t l1) by (apply Hsame; now right).
  apply areTypesEqual_trans with x; [|now apply Hall].
  apply areTypesEqual_sym; [assumption | assumption | now apply Hall].
Qed.

Lemma fold_flatten_cover l1 l2 :
  Forall plainMember l1 -> Forall plainMember l2 ->
  (forall t, In t l1 <-> In t l2) ->
  forall x, In x (fold_left flattenStep l1 []) ->
  exists y, In y (fold_left flattenStep l2 []) /\ areTypesEqual y x = true.
Proof.
  intros H1 H2 Hsame x Hx.
  destruct (fold_flatten_from l1 [] x H1 Hx) as [[]|Hin].
  apply Hsame in Hin. now apply fold_flatten_represents.
Qed.

(** Normalizing two arrays of plain members with the same members gives the
    same result up to order. *)
Lemma normalizeUnionType_same_members l1 l2 :
  Forall plainMember l1 -> Forall plainMember l2 ->
  (forall t, In t l1 <-> In t l2) ->
  sameShape (normalizeUnionType l1) (normalizeUnionType l2) = true.
Proof.
  intros H1 H2 Hsame. unfold normalizeUnionType.
  rewrite (plain_no_any _ H1), (plain_no_any _ H2).
  assert (Hsame' : forall t, In t l2 <-> In t l1) by (intros t; symmetry; apply Hsame).
  pose proof (fold_flatten_singleton l1 l2) as S12.
  pose proof (fold_flatten_singleton l2 l1) as S21.
  pose proof (fold_flatten_cover l1 l2 H1 H2 Hsame) as C12.
  pose proof (fold_flatten_cover l2 l1 H2 H1 Hsame') as C21.
  assert (Hok1 : forall x, In x (fold_left flattenStep l1 []) -> mapsOk x).
  { intros x Hx. destruct (fold_flatten_from l1 [] x H1 Hx) as [[]|Hin].
    rewrite Forall_forall in H1. apply (H1 x Hin). }
  assert (Hok2 : forall x, In x (fold_left flattenStep l2 []) -> mapsOk x).
  { intros x Hx. destruct (fold_flatten_from l2 [] x H2 Hx) as [[]|Hin].
    rewrite Forall_forall in H2. apply (H2 x Hin). }
  assert (Hunion : sameShape (TUnion (fold_left flattenStep l1 []))
                             (TUnion (fold_left flattenStep l2 [])) = true).
  { apply sameShape_union. split.
    - intros x Hx. destruct (C12 x Hx) as [y [Hy Heq]]. exists y. split; [assumption|].
      apply areTypesEqual_sameShape, areTypesEqual_sym; auto.
    - intros y Hy. destruct (C21 y Hy) as [x [Hx Heq]]. exists x. split; [assumption|].
      now apply areTypesEqual_sameShape. }
  destruct (fold_left flattenStep l1 []) as [|x [|x' r1]] eqn:E1.
  - destruct (fold_left flattenStep l2 []) as [|y [|y' r2]] eqn:E2; try exact Hunion.
    destruct (S21 y H2 H1 Hsame' eq_refl) as [z [Hz _]]. discriminate Hz.
  - destruct (S12 x H1 H2 Hsame eq_refl) as [y [-> Heq]].
    now apply areTypesEqual_sameShape.
  - destruct (fold_left flattenStep l2 []) as [|y [|y' r2]] eqn:E2; try exact Hunion.
    destruct (S21 y H2 H1 Hsame' eq_refl) as [z [Hz _]]. discriminate Hz.
Qed.

Lemma memberOk_plain m : memberOk m -> plainMember m.
Proof. intros [Ha [Hu Hw]]. repeat split; try assumption. now apply wellFormed_mapsOk. Qed.

Lemma members_plain types : Forall memberOk types -> Forall plainMember types.
Proof. intros H. apply Forall_impl with (2 := H). apply memberOk_plain. Qed.

Lemma normalizeUnionType_onto_union aTypes bTypes :
  Forall plainMember aTypes -> 2 <= List.length bTypes ->
  normalizeUnionType (aTypes ++ [TUnion bTypes])
  = TUnion (fold_left flattenStep aTypes [] ++ bTypes).
Proof.
  intros Ha Hlen. unfold normalizeUnionType.
  rewrite existsb_app, (plain_no_any _ Ha). cbn [existsb isAny kind Kind_eqb orb].
  rewrite fold_left_app. cbn [fold_left flattenStep].
  assert (Hl : 2 <= List.length (fold_left flattenStep aTypes [] ++ bTypes)).
  { rewrite length_app. lia. }
  destruct (fold_left flattenStep aTypes [] ++ bTypes) as [|x [|y r]];
    simpl in Hl; try lia; reflexivity.
Qed.

Lemma two_unions_cover aTypes bTypes :
  Forall plainMember aTypes -> Forall plainMember bTypes ->
  (forall x, In x (fold_left flattenStep aTypes [] ++ bTypes) ->
     exists y, In y (fold_left flattenStep bTypes [] ++ aTypes) /\ sameShape x y = true)
  /\ (forall y, In y (fold_left flattenStep bTypes [] ++ aTypes) ->
        exists x, In x (fold_left flattenStep aTypes [] ++ bTypes)
                  /\ sameShape x y = true).
Proof.
  intros Ha Hb. pose proof Ha as Ha'. pose proof Hb as Hb'.
  rewrite Forall_forall in Ha', Hb'. split.
  - intros x Hx. apply in_app_or in Hx. destruct Hx as [Hx|Hx].
    + destruct (fold_flatten_from aTypes [] x Ha Hx) as [[]|Hin].
      exists x. split; [apply in_or_app; now right|].
      apply sameShape_refl, (Ha' x Hin).
    + destruct (fold_flatten_represents bTypes [] x Hb Hx) as [e [He Heq]].
      exists e. split; [apply in_or_app; now left|].
      destruct (fold_flatten_from bTypes [] e Hb He) as [[]|Hin].
      apply areTypesEqual_sameShape, areTypesEqual_sym;
        [apply (Hb' e Hin) | apply (Hb' x Hx) | assumption].
  - intros y Hy. apply in_app_or in Hy. destruct Hy as [Hy|Hy].
    + destruct (fold_flatten_from bTypes [] y Hb Hy) as [[]|Hin].
      exists y. split; [apply in_or_app; now right|].
      apply sameShape_refl, (Hb' y Hin).
    + destruct (fold_flatten_represents aTypes [] y Ha Hy) as [e [He Heq]].
      exists e. split; [apply in_or_app; now left|].
      now apply areTypesEqual_sameShape.
Qed.

Lemma mergeStringLiteralSets_comm a b :
  sameMembers (orEmpty (mergeStringLiteralSets a b))
              (orEmpty (mergeStringLiteralSets b a)) = true.
Proof.
  apply sameMembers_iff. intros x.
  destruct a, b; simpl; rewrite ?setOf_In, ?in_app_iff; simpl; tauto.
Qed.

Lemma unifiedField_keys af bf k :
  In k (mapKeys (unifyFields af bf)) <-> In k (mapKeys af) \/ In k (mapKeys bf).
Proof.
  split.
  - intros H. apply mapGet_is_Some in H. destruct H as [f Hf].
    rewrite mapGet_unifyFields in Hf. unfold unifiedField in Hf.
    destruct (mapGet af k) eqn:Ea.
    + left. now apply mapGet_Some_key in Ea.
    + destruct (mapGet bf k) eqn:Eb; [|discriminate].
      right. now apply mapGet_Some_key in Eb.
  - intros H. destruct (mapGet (unifyFields af bf) k) as [f|] eqn:E.
    + now apply mapGet_Some_key in E.
    + exfalso. rewrite mapGet_unifyFields in E. unfold unifiedField in E.
      destruct H as [H|H]; apply mapGet_is_Some in H; destruct H as [f Hf];
        rewrite Hf in E; destruct (mapGet af k), (mapGet bf k); discriminate.
Qed.

Lemma unifyFields_size_comm af bf :
  mapSize (unifyFields af bf) = mapSize (unifyFields bf af).
Proof.
  unfold mapSize.
  rewrite <- (length_map fst (unifyFields af bf)), <- (length_map fst (unifyFields bf af)).
  apply Nat.le_antisymm; apply NoDup_incl_length;
    try apply unifyFields_ok; intros k Hk;
    apply unifiedField_keys; apply unifiedField_keys in Hk; tauto.
Qed.

(** Everything but the recursion: when [a] and [b] are not structurally
    equal, the two orders agree up to order as soon as they do for two nodes
    of the same kind that are not unions. *)
Lemma unify_commutes_outside_recursion a b :
  wellFormed a -> wellFormed b ->
  areTypesEqual a b = false ->
  (kind a = kind b -> isUnion a = false ->
   sameShape (unifyTypes a b) (unifyTypes b a) = true) ->
  sameShape (unifyTypes a b) (unifyTypes b a) = true.
Proof.
  intros Ha Hb E Hsame.
  pose proof (wellFormed_mapsOk _ Ha) as Hoka.
  pose proof (wellFormed_mapsOk _ Hb) as Hokb.
  assert (E' : areTypesEqual b a = false).
  { destruct (areTypesEqual b a) eqn:E'; [|reflexivity].
    apply areTypesEqual_sym in E'; congruence. }
  destruct (isAny a) eqn:Aa.
  { apply isAny_true in Aa. subst a. now rewrite unifyTypes_any_l, unifyTypes_any_r. }
  destruct (isAny b) eqn:Ab.
  { apply isAny_true in Ab. subst b. now rewrite unifyTypes_any_l, unifyTypes_any_r. }
  destruct (isUnion a) eqn:Ua; destruct (isUnion b) eqn:Ub.
  - apply isUnion_true in Ua, Ub. destruct Ua as [aTypes ->], Ub as [bTypes ->].
    rewrite (unifyTypes_union_l _ _ E Ab), (unifyTypes_union_l _ _ E' Aa).
    apply wellFormed_union in Ha, Hb. destruct Ha as [Hla Hma], Hb as [Hlb Hmb].
    apply members_plain in Hma, Hmb.
    rewrite (normalizeUnionType_onto_union _ _ Hma Hlb),
            (normalizeUnionType_onto_union _ _ Hmb Hla).
    apply sameShape_union. now apply two_unions_cover.
  - apply isUnion_true in Ua. destruct Ua as [aTypes ->].
    rewrite (unifyTypes_union_l _ _ E Ab), (unifyTypes_union_r _ _ E' Ab Ub).
    apply wellFormed_union in Ha. destruct Ha as [_ Hma]. apply members_plain in Hma.
    apply normalizeUnionType_same_members.
    + apply Forall_app. split; [assumption|]. now repeat constructor.
    + constructor; [now repeat split | assumption].
    + intros t. rewrite in_app_iff. simpl. tauto.
  - apply isUnion_true in Ub. destruct Ub as [bTypes ->].
    rewrite (unifyTypes_union_r _ _ E Aa Ua), (unifyTypes_union_l _ _ E' Aa).
    apply wellFormed_union in Hb. destruct Hb as [_ Hmb]. apply members_plain in Hmb.
    apply normalizeUnionType_same_members.
    + constructor; [now repeat split | assumption].
    + apply Forall_app. split; [assumption|]. now repeat constructor.
    + intros t. rewrite in_app_iff. simpl. tauto.
  - destruct (Kind_eqb (kind a) (kind b)) eqn:K.
    + apply Kind_eqb_eq in K. now apply Hsame.
    + assert (Hk : kind a <> kind b).
      { intros Hk. apply Kind_eqb_eq in Hk. congruence. }
      rewrite (unifyTypes_mixed a b E Aa Ab Ua Ub Hk).
      rewrite (unifyTypes_mixed b a E' Ab Aa Ub Ua (fun H => Hk (eq_sym H))).
      apply normalizeUnionType_same_members.
      * now repeat constructor.
      * now repeat constructor.
      * intros t. simpl. tauto.
Qed.

Lemma unify_commutes a : forall b,
  wellFormed a -> wellFormed b ->
  sameShape (unifyTypes a b) (unifyTypes b a) = true.
Proof.
  induction a as [| | |d e s|items IH|types IH|fields IH] using TypeNode_nested_ind;
    intros b Ha Hb.
  all: match goal with
       | |- sameShape (unifyTypes ?a _) _ = true =>
           destruct (areTypesEqual a b) eqn:E;
           [ rewrite (unifyTypes_equal _ _ E);
             rewrite (unifyTypes_equal b a)
               by (apply areTypesEqual_sym; auto using wellFormed_mapsOk);
             now apply areTypesEqual_sameShape
           | apply unify_commutes_outside_recursion; [assumption..|] ]
       end.
  all: intros Hk Hu; destruct b as [| | |d' e' s'|items'|types'|fields'];
    try discriminate Hk; try discriminate E; try discriminate Hu.
  - (* two strings *)
    assert (E' : areTypesEqual (TString d' e' s') (TString d e s) = false).
    { destruct (areTypesEqual (TString d' e' s') (TString d e s)) eqn:E'; [|reflexivity].
      apply areTypesEqual_string in E'. destruct E' as [Hd He].
      assert (X : areTypesEqual (TString d e s) (TString d' e' s') = true)
        by (apply areTypesEqual_string; split; congruence).
      congruence. }
    rewrite (unifyTypes_strings _ _ _ _ _ _ E), (unifyTypes_strings _ _ _ _ _ _ E').
    cbn [sameShape truthy]. rewrite orb_comm, Bool.eqb_reflx. simpl.
    apply mergeStringLiteralSets_comm.
  - (* two arrays *)
    assert (E' : areTypesEqual (TArray items') (TArray items) = false).
    { destruct (areTypesEqual (TArray items') (TArray items)) eqn:E'; [|reflexivity].
      apply areTypesEqual_sym in E'; auto using wellFormed_mapsOk. congruence. }
    rewrite (unifyTypes_arrays _ _ E), (unifyTypes_arrays _ _ E').
    cbn [sameShape]. apply IH; assumption.
  - (* two objects *)
    assert (E' : areTypesEqual (TObject fields') (TObject fields) = false).
    { destruct (areTypesEqual (TObject fields') (TObject fields)) eqn:E'; [|reflexivity].
      apply areTypesEqual_sym in E'; auto using wellFormed_mapsOk. congruence. }
    rewrite (unifyTypes_object _ _ E), (unifyTypes_object _ _ E').
    apply sameShape_object. split; [apply unifyFields_size_comm|].
    apply wellFormed_object in Ha, Hb. destruct Ha as [Hnda Ha], Hb as [Hndb Hb].
    rewrite Forall_forall in IH, Ha, Hb.
    intros k f Hin. apply (In_mapGet _ _ _ (unifyFields_ok _ _)) in Hin.
    rewrite mapGet_unifyFields in Hin. rewrite mapGet_unifyFields.
    unfold unifiedField in *.
    destruct (mapGet fields k) as [fa|] eqn:Ega;
      destruct (mapGet fields' k) as [fb|] eqn:Egb;
      try discriminate Hin; injection Hin as <-; eexists; (split; [reflexivity|]);
      cbn [required type].
    + apply mapGet_In in Ega, Egb. split; [apply andb_comm|].
      apply (IH (k, fa) Ega); [apply (Ha (k, fa) Ega) | apply (Hb (k, fb) Egb)].
    + apply mapGet_In in Ega. split; [reflexivity|].
      apply sameShape_refl, wellFormed_mapsOk, (Ha (k, fa) Ega).
    + apply mapGet_In in Egb. split; [reflexivity|].
      apply sameShape_refl, wellFormed_mapsOk, (Hb (k, fb) Egb).
Qed.

(** *** Equality up to order is an equivalence *)

Lemma sameShape_kind a b : sameShape a b = true -> kind a = kind b.
Proof. destruct a, b; simpl; intros H; try discriminate H; reflexivity. Qed.

Lemma sameShape_object_keys af bf :
  sameShape (TObject af) (TObject bf) = true -> incl (mapKeys af) (mapKeys bf).
Proof.
  intros H. apply sameShape_object in H. destruct H as [_ H].
  intros k Hin. unfold mapKeys in Hin. apply in_map_iff in Hin.
  destruct Hin as [[k' fa] [<- Hin]]. simpl.
  destruct (H k' fa Hin) as [fb [Hg _]]. now apply mapGet_Some_key in Hg.
Qed.

Lemma sameShape_sym a : forall b,
  mapsOk a -> mapsOk b -> sameShape a b = true -> sameShape b a = true.
Proof.
  induction a as [| | |d e s|items IH|types IH|fields IH] using TypeNode_nested_ind;
    intros b Ha Hb H; pose proof (sameShape_kind _ _ H) as Hk;
    destruct b as [| | |d' e' s'|items'|types'|fields']; try discriminate Hk;
    try reflexivity; clear Hk.
  - cbn [sameShape] in *. apply andb_prop in H. destruct H as [Hd He].
    apply Bool.eqb_prop in Hd. rewrite Hd, Bool.eqb_reflx. simpl.
    apply sameMembers_iff. intros x. symmetry. revert x. now apply sameMembers_iff.
  - simpl in *. now apply IH.
  - apply sameShape_union in H. destruct H as [H1 H2]. apply sameShape_union.
    simpl in Ha, Hb. apply fold_right_and_Forall in Ha, Hb.
    rewrite Forall_forall in IH, Ha, Hb. split.
    + intros y Hy. destruct (H2 y Hy) as [x [Hx Hxy]]. exists x. split; [assumption|].
      apply (IH x Hx); auto.
    + intros x Hx. destruct (H1 x Hx) as [y [Hy Hxy]]. exists y. split; [assumption|].
      apply (IH x Hx); auto.
  - pose proof (sameShape_object_keys _ _ H) as Hincl.
    apply sameShape_object in H. destruct H as [Hs H].
    simpl in Ha, Hb. destruct Ha as [Hnda Ha], Hb as [Hndb Hb].
    apply (fold_right_and_Forall (fun kf => mapsOk (type (snd kf)))) in Ha, Hb.
    rewrite Forall_forall in IH, Ha, Hb.
    apply sameShape_object. split; [now symmetry|].
    intros k fb Hin.
    assert (Hk' : In k (mapKeys fields)).
    { apply (mapKeys_incl_same_size fields fields' Hnda Hs Hincl).
      change k with (fst (k, fb)). unfold mapKeys. now apply in_map. }
    destruct (mapGet_is_Some _ _ Hk') as [fa Hga].
    pose proof (mapGet_In _ _ _ Hga) as Hina.
    destruct (H k fa Hina) as [fb' [Hgb [Hr Ht]]].
    rewrite (In_mapGet _ _ _ Hndb Hin) in Hgb. injection Hgb as <-.
    exists fa. split; [assumption|]. split; [now symmetry|].
    apply (IH (k, fa) Hina); [apply (Ha (k, fa) Hina) | apply (Hb (k, fb) Hin) | assumption].
Qed.

Lemma sameShape_trans a : forall b c,
  sameShape a b = true -> sameShape b c = true -> sameShape a c = true.
Proof.
  induction a as [| | |d e s|items IH|types IH|fields IH] using TypeNode_nested_ind;
    intros b c H1 H2;
    pose proof (sameShape_kind _ _ H1) as Hk1;
    pose proof (sameShape_kind _ _ H2) as Hk2;
    destruct b as [| | |d' e' s'|items'|types'|fields']; try discriminate Hk1;
    destruct c as [| | |d2 e2 s2|items2|types2|fields2]; try discriminate Hk2;
    try reflexivity; clear Hk1 Hk2.
  - cbn [sameShape] in *.
    apply andb_prop in H1, H2. destruct H1 as [Hd1 He1], H2 as [Hd2 He2].
    apply Bool.eqb_prop in Hd1, Hd2. rewrite Hd1, Hd2, Bool.eqb_reflx. simpl.
    apply sameMembers_iff. intros x.
    rewrite (proj1 (sameMembers_iff _ _) He1 x). now apply sameMembers_iff.
  - simpl in *. now apply IH with items'.
  - apply sameShape_union in H1, H2. destruct H1 as [A1 B1], H2 as [A2 B2].
    apply sameShape_union. rewrite Forall_forall in IH. split.
    + intros x Hx. destruct (A1 x Hx) as [y [Hy Hxy]].
      destruct (A2 y Hy) as [z [Hz Hyz]]. exists z. split; [assumption|].
      now apply (IH x Hx) with y.
    + intros z Hz. destruct (B2 z Hz) as [y [Hy Hyz]].
      destruct (B1 y Hy) as [x [Hx Hxy]]. exists x. split; [assumption|].
      now apply (IH x Hx) with y.
  - apply sameShape_object in H1, H2. apply sameShape_object.
    destruct H1 as [Hs1 H1], H2 as [Hs2 H2]. split; [congruence|].
    rewrite Forall_forall in IH.
    intros k fa Hin. destruct (H1 k fa Hin) as [fb [Hgb [Hr1 Ht1]]].
    destruct (H2 k fb (mapGet_In _ _ _ Hgb)) as [fc [Hgc [Hr2 Ht2]]].
    exists fc. split; [assumption|]. split; [congruence|].
    now apply (IH (k, fa) Hin) with (type fb).
Qed.

(** C3 (as amended). For well-formed type nodes [a] and [b] (the nodes
    inference and unification produce), [unifyTypes(a, b)] and
    [unifyTypes(b, a)] are equal up to the order and repetition of union
    members, the order of enum values and the order of fields: [sameShape],
    which compares them as sets where [areTypesEqual] compares them position
    by position. *)
Theorem unify_commutes_up_to_order (a b : TypeNode) :
  wellFormed a -> wellFormed b ->
  sameShape (unifyTypes a b) (unifyTypes b a) = true.
Proof. intros Ha Hb. now apply unify_commutes. Qed.

Lemma unify_commutes_up_to_order_witness :
  sameShape (unifyTypes (TString (Some false) None (Some "a"%string)) TNumber)
            (unifyTypes TNumber (TString (Some false) None (Some "a"%string))) = true.
Proof.
  apply (unify_commutes_up_to_order (TString (Some false) None (Some "a"%string)) TNumber).
  - simpl. constructor.
  - simpl. exact I.
Defined.

(** C3, counterexample. A string node and a number node unify to a union
    whose members are stored in the order of the operands, and two enums to
    an enum whose values are; [areTypesEqual] compares both position by
    position, so the results of the two orders are not structurally equal. *)
Lemma unify_not_commutative_for_areTypesEqual :
  let s := TString (Some false) None (Some "a"%string) in
  let ea := TString None (Some ["a"%string]) None in
  let eb := TString None (Some ["b"%string]) None in
  unifyTypes s TNumber = TUnion [s; TNumber]
  /\ unifyTypes TNumber s = TUnion [TNumber; s]
  /\ areTypesEqual (unifyTypes s TNumber) (unifyTypes TNumber s) = false
  /\ unifyTypes ea eb = TString (Some false) (Some ["a"; "b"]%string) None
  /\ unifyTypes eb ea = TString (Some false) (Some ["b"; "a"]%string) None
  /\ areTypesEqual (unifyTypes ea eb) (unifyTypes eb ea) = false.
Proof. vm_compute. repeat split; reflexivity. Qed.

(** ** The checks of the repository's test suite, on the model *)

Example test_isIsoLikeDateString :
  isIsoLikeDateString "2025-08-16" = true
  /\ isIsoLikeDateString "2025-08-16T12:34:56Z" = true
  /\ isIsoLikeDateString "16/08/2025" = false.
Proof. repeat split; reflexivity. Qed.

Example test_isValidTypescriptIdentifier :
  isValidTypescriptIdentifier "goodName_1" = true
  /\ isValidTypescriptIdentifier "1bad" = false
  /\ isValidTypescriptIdentifier "has-dash" = false.
Proof. repeat split; reflexivity. Qed.

Example test_singularizeWord :
  singularizeWord "projects" = "project"%string
  /\ singularizeWord "companies" = "company"%string
  /\ singularizeWord "boss" = "boss"%string.
Proof. repeat split; reflexivity. Qed.

Example test_infers_primitives :
  inferTypeFromValue (VString "hello") (mkOptions true 2 12)
  = Some (TString (Some false) None (Some "hello"%string))
  /\ inferTypeFromValue (VNumber 42) (mkOptions true 2 12) = Some TNumber
  /\ inferTypeFromValue (VBoolean true) (mkOptions true 2 12) = Some TBoolean
  /\ inferTypeFromValue VNull (mkOptions true 2 12) = Some TAny.
Proof. repeat split; reflexivity. Qed.

Example test_detects_dates :
  inferTypeFromValue (VString "2025-08-16T12:34:56Z") (mkOptions true 2 12)
  = Some (TString (Some true) None (Some "2025-08-16T12:34:56Z"%string))
  /\ inferTypeFromValue (VString "2025-08-16T12:34:56Z") (mkOptions false 2 12)
     = Some (TString (Some false) None (Some "2025-08-16T12:34:56Z"%string)).
Proof. split; reflexivity. Qed.

Example test_enum_array :
  inferTypeFromValue (VArray [VString "admin"; VString "editor"; VString "editor"])
                     (mkOptions true 2 12)
  = Some (TArray (TString None (Some ["admin"; "editor"]%string) None)).
Proof. vm_compute. reflexivity. Qed.

(* ================================================================== *)
(** * Further properties of the code *)

(** ** The command line *)

Ltac split_key :=
  repeat match goal with
         | |- context [String.eqb ?k ?s] =>
             destruct (String.eqb_spec k s); [subst; simpl|]
         end.

Lemma valueOf_parseStep o key next p :
  valueOf o (parseStep key next p) =
  if String.eqb key (flagOf o) then next else valueOf o p.
Proof.
  destruct o; unfold parseStep; simpl; split_key; try reflexivity; try congruence.
Qed.

Lemma flags_parseStep key next p :
  interface (parseStep key next p) = (String.eqb key "--interface" || interface p)%bool
  /\ no_dates (parseStep key next p) = (String.eqb key "--no-dates" || no_dates p)%bool
  /\ no_banner (parseStep key next p) = (String.eqb key "--no-banner" || no_banner p)%bool
  /\ no_color (parseStep key next p) = (String.eqb key "--no-color" || no_color p)%bool.
Proof.
  unfold parseStep; split_key; simpl; repeat split; try reflexivity.
Qed.

Lemma flags_parseLoop argvList : forall p,
  interface (parseLoop argvList p)
  = (existsb (fun k => String.eqb k "--interface") argvList || interface p)%bool
  /\ no_dates (parseLoop argvList p)
     = (existsb (fun k => String.eqb k "--no-dates") argvList || no_dates p)%bool
  /\ no_banner (parseLoop argvList p)
     = (existsb (fun k => String.eqb k "--no-banner") argvList || no_banner p)%bool
  /\ no_color (parseLoop argvList p)
     = (existsb (fun k => String.eqb k "--no-color") argvList || no_color p)%bool.
Proof.
  induction argvList as [|key rest IH]; intros p; simpl.
  - repeat split; reflexivity.
  - destruct (IH (parseStep key (hd_error rest) p)) as [H1 [H2 [H3 H4]]].
    destruct (flags_parseStep key (hd_error rest) p) as [E1 [E2 [E3 E4]]].
    rewrite H1, H2, H3, H4, E1, E2, E3, E4.
    repeat split;
      match goal with
      | |- (?a || (?b || ?c))%bool = _ => destruct a, b, c; reflexivity
      end.
Qed.

Lemma existsb_eqb_flag flag l :
  existsb (fun k => String.eqb k flag) l = true <-> In flag l.
Proof.
  rewrite existsb_exists. split.
  - intros [k [Hin E]]. apply String.eqb_eq in E. now subst.
  - intros H. exists flag. split; [assumption | apply String.eqb_refl].
Qed.

(** A flag without a value is set exactly when its token occurs anywhere
    among the arguments, also in the place of the value of another option. *)
Theorem parse_flags_iff_present (argvList : list string) :
  (interface (parseCommandLineArguments argvList) = true <-> In "--interface"%string argvList)
  /\ (no_dates (parseCommandLineArguments argvList) = true <-> In "--no-dates"%string argvList)
  /\ (no_banner (parseCommandLineArguments argvList) = true <-> In "--no-banner"%string argvList)
  /\ (no_color (parseCommandLineArguments argvList) = true <-> In "--no-color"%string argvList).
Proof.
  unfold parseCommandLineArguments.
  destruct (flags_parseLoop argvList noArgs) as [H1 [H2 [H3 H4]]].
  rewrite H1, H2, H3, H4. simpl. rewrite !orb_false_r.
  repeat split; intros H; now apply existsb_eqb_flag.
Qed.

Lemma valueOf_parseLoop o argvList : forall p,
  valueOf o (parseLoop argvList p) =
  match lastAfter (flagOf o) argvList with
  | Some r => r
  | None => valueOf o p
  end.
Proof.
  induction argvList as [|key rest IH]; intros p; simpl; [reflexivity|].
  rewrite IH, valueOf_parseStep.
  destruct (lastAfter (flagOf o) rest); [reflexivity|].
  now destruct (String.eqb key (flagOf o)).
Qed.

Lemma lastAfter_None flag l : lastAfter flag l = None <-> ~ In flag l.
Proof.
  induction l as [|k l IH]; simpl; [tauto|].
  destruct (lastAfter flag l) eqn:E.
  - split; [discriminate|]. intros H. exfalso.
    assert (X : ~ In flag l) by tauto. apply IH in X. discriminate.
  - destruct (String.eqb_spec k flag) as [->|Hne].
    + split; [discriminate | tauto].
    + split; [|reflexivity]. intros _ [H|H]; [congruence|]. now apply IH.
Qed.

Lemma lastAfter_Some flag l v :
  lastAfter flag l = Some (Some v) <->
  exists pre post, l = pre ++ flag :: v :: post /\ ~ In flag (v :: post).
Proof.
  induction l as [|k l IH]; simpl.
  - split; [discriminate|]. intros [pre [post [H _]]]. now destruct pre.
  - destruct (lastAfter flag l) as [r|] eqn:E.
    + split.
      * intros [= ->]. destruct (proj1 IH eq_refl) as [pre [post [-> Hn]]].
        exists (k :: pre), post. now split.
      * intros [pre [post [H Hn]]]. destruct pre as [|x pre]; simpl in H.
        -- injection H as -> ->. exfalso.
           assert (X : lastAfter flag (v :: post) = None) by now apply lastAfter_None.
           congruence.
        -- injection H as -> ->. apply IH. now exists pre, post.
    + apply lastAfter_None in E. destruct (String.eqb_spec k flag) as [->|Hne].
      * split.
        -- intros [= H]. destruct l as [|x l]; [discriminate|]. injection H as ->.
           exists [], l. now split.
        -- intros [pre [post [H Hn]]]. destruct pre as [|x pre]; simpl in H.
           ++ injection H as ->. reflexivity.
           ++ injection H as -> ->. exfalso. apply E, in_or_app. right. now left.
      * split; [discriminate|]. intros [pre [post [H Hn]]].
        destruct pre as [|x pre]; simpl in H; injection H as -> ->.
        -- congruence.
        -- exfalso. apply E, in_or_app. right. now left.
Qed.

(** An option that takes a value ends up holding [v] exactly when [v] is the
    token right after the last occurrence of the option: later occurrences
    override earlier ones, and an occurrence in last position leaves the
    option [undefined]. *)
Theorem parse_value_is_after_last_occurrence
        (o : ValueOption) (argvList : list string) (v : string) :
  valueOf o (parseCommandLineArguments argvList) = Some v <->
  exists pre post,
    argvList = pre ++ flagOf o :: v :: post /\ ~ In (flagOf o) (v :: post).
Proof.
  unfold parseCommandLineArguments. rewrite valueOf_parseLoop.
  rewrite <- lastAfter_Some.
  destruct (lastAfter (flagOf o) argvList) as [r|].
  - split; intros H; congruence.
  - destruct o; simpl; split; discriminate.
Qed.

(** The flag names reported to telemetry are the tokens that start with two
    dashes, all of them and in order: the jump over the value of a flag skips
    nothing that would have been reported, and no other token is reported. *)
Theorem extractFlagNamesOnly_is_filter (raw : list string) :
  extractFlagNamesOnly raw = filter startsWithDashes raw.
Proof.
  assert (Hempty : forall t, isEmptyString t = true -> startsWithDashes t = false).
  { intros [|c t] H; [reflexivity | discriminate]. }
  assert (H : forall raw,
             extractFlagNamesOnly raw = filter startsWithDashes raw
             /\ forall t, extractFlagNamesOnly (t :: raw) = filter startsWithDashes (t :: raw)).
  { induction raw0 as [|next rest [IH1 IH2]].
    - split; [reflexivity|]. intros t. simpl.
      destruct (isEmptyString t) eqn:Et; simpl.
      + now rewrite (Hempty t Et).
      + now destruct (startsWithDashes t).
    - split; [apply IH2|]. intros t.
      change (extractFlagNamesOnly (t :: next :: rest))
        with (if isEmptyString t || negb (startsWithDashes t)
              then extractFlagNamesOnly (next :: rest)
              else t :: (if negb (isEmptyString next) && negb (startsWithDashes next)
                         then extractFlagNamesOnly rest
                         else extractFlagNamesOnly (next :: rest))).
      rewrite (IH2 next), IH1.
      destruct (isEmptyString t) eqn:Et; simpl.
      + now rewrite (Hempty t Et).
      + destruct (startsWithDashes t); simpl; [|reflexivity].
        destruct (isEmptyString next) eqn:En; simpl; [reflexivity|].
        now destruct (startsWithDashes next). }
  apply H.
Qed.

(** ** The balance of brackets while JSON is pasted *)

Lemma updateBalance_app a : forall b st,
  updateBalance (a ++ b) st = updateBalance b (updateBalance a st).
Proof. induction a as [|c a IH]; intros b st; simpl; [reflexivity | apply IH]. Qed.

Lemma updateBalance_escapeChar c r d :
  updateBalance (Json.escapeChar c ++ r) (mkBalance d true false)
  = updateBalance r (mkBalance d true false).
Proof. destruct c as [[] [] [] [] [] [] [] []]; reflexivity. Qed.

Lemma updateBalance_escape s : forall r d,
  updateBalance (Json.escape s ++ r) (mkBalance d true false)
  = updateBalance r (mkBalance d true false).
Proof.
  induction s as [|c s IH]; intros r d; simpl; [reflexivity|].
  now rewrite JsonFacts.append_assoc, updateBalance_escapeChar, IH.
Qed.

Lemma updateBalance_stringifyString s r d :
  updateBalance (Json.stringifyString s ++ r) (mkBalance d false false)
  = updateBalance r (mkBalance d false false).
Proof.
  assert (E : (Json.stringifyString s ++ r)%string
              = String Json.dquote (Json.escape s ++ String Json.dquote r)).
  { unfold Json.stringifyString, Json.quote. simpl.
    now rewrite JsonFacts.append_assoc. }
  rewrite E. cbn [updateBalance].
  change (balanceStep (mkBalance d false false) Json.dquote) with (mkBalance d true false).
  rewrite updateBalance_escape. reflexivity.
Qed.

Lemma updateBalance_close d :
  updateBalance "]" (mkBalance (d + 1) false false) = mkBalance d false false.
Proof. cbv -[Z.add Z.sub]. f_equal. lia. Qed.

Lemma updateBalance_tail l : forall d,
  updateBalance (Json.tail l) (mkBalance (d + 1) false false) = mkBalance d false false.
Proof.
  induction l as [|x l IH]; intros d.
  - apply updateBalance_close.
  - rewrite JsonFacts.tail_cons, updateBalance_stringifyString.
    destruct l as [|y l]; [apply updateBalance_close|].
    cbn [updateBalance].
    change (balanceStep (mkBalance (d + 1) false false) ",")
      with (mkBalance (d + 1) false false).
    apply IH.
Qed.

(** The text [JSON.stringify] writes for a string, or for an array of
    strings, leaves the balance where it was: outside a string, at the same
    depth, whatever brackets, quotes and backslashes the strings hold. *)
Theorem updateBalance_ignores_string_contents (d : Z) :
  (forall s, updateBalance (Json.stringifyString s) (mkBalance d false false)
             = mkBalance d false false)
  /\ (forall l, updateBalance (Json.stringify l) (mkBalance d false false)
                = mkBalance d false false).
Proof.
  split.
  - intros s.
    assert (E : forall t : string, (t ++ EmptyString)%string = t).
    { induction t as [|c t IH]; simpl; [reflexivity | now rewrite IH]. }
    rewrite <- (E (Json.stringifyString s)).
    now rewrite updateBalance_stringifyString.
  - intros l.
    change (Json.stringify l) with (String "[" (Json.tail l)).
    cbn [updateBalance].
    change (balanceStep (mkBalance d false false) "[")
      with (mkBalance (d + 1) false false).
    apply updateBalance_tail.
Qed.

(** ** Structural equality, once more *)

(** On type nodes whose Maps are Maps, [areTypesEqual] is an equivalence
    relation. *)
Theorem areTypesEqual_is_equivalence (a b c : TypeNode) :
  mapsOk a -> mapsOk b ->
  areTypesEqual a a = true
  /\ (areTypesEqual a b = true -> areTypesEqual b a = true)
  /\ (areTypesEqual a b = true -> areTypesEqual b c = true -> areTypesEqual a c = true).
Proof.
  intros Ha Hb. split; [now apply areTypesEqual_refl|]. split.
  - now apply areTypesEqual_sym.
  - apply areTypesEqual_trans.
Qed.

Lemma areTypesEqual_is_equivalence_witness :
  areTypesEqual
    (TObject [("id"%string, mkField TNumber true); ("ok"%string, mkField TBoolean false)])
    (TObject [("id"%string, mkField TNumber true); ("ok"%string, mkField TBoolean false)]) = true
  /\ (areTypesEqual
        (TObject [("id"%string, mkField TNumber true); ("ok"%string, mkField TBoolean false)])
        (TObject [("ok"%string, mkField TBoolean false); ("id"%string, mkField TNumber true)]) = true ->
      areTypesEqual
        (TObject [("ok"%string, mkField TBoolean false); ("id"%string, mkField TNumber true)])
        (TObject [("id"%string, mkField TNumber true); ("ok"%string, mkField TBoolean false)]) = true)
  /\ (areTypesEqual
        (TObject [("id"%string, mkField TNumber true); ("ok"%string, mkField TBoolean false)])
        (TObject [("ok"%string, mkField TBoolean false); ("id"%string, mkField TNumber true)]) = true ->
      areTypesEqual
        (TObject [("ok"%string, mkField TBoolean false); ("id"%string, mkField TNumber true)])
        (TObject [("ok"%string, mkField TBoolean false)]) = true ->
      areTypesEqual
        (TObject [("id"%string, mkField TNumber true); ("ok"%string, mkField TBoolean false)])
        (TObject [("ok"%string, mkField TBoolean false)]) = true).
Proof.
  apply (areTypesEqual_is_equivalence
           (TObject [("id"%string, mkField TNumber true); ("ok"%string, mkField TBoolean false)])
           (TObject [("ok"%string, mkField TBoolean false); ("id"%string, mkField TNumber true)])
           (TObject [("ok"%string, mkField TBoolean false)])).
  - simpl. unfold mapOk. simpl. repeat constructor; simpl; intuition discriminate.
  - simpl. unfold mapOk. simpl. repeat constructor; simpl; intuition discriminate.
Defined.

(** Two object nodes with the same fields in different orders of insertion
    are structurally equal. *)
Theorem object_equality_ignores_field_order (aFields bFields : JsMap (FieldInfo TypeNode)) :
  mapOk aFields ->
  Forall (fun kf => mapsOk (type (snd kf))) aFields ->
  Permutation aFields bFields ->
  areTypesEqual (TObject aFields) (TObject bFields) = true.
Proof.
  intros Hnd Hok Hperm. apply areTypesEqual_object. split.
  - unfold mapSize. now apply Permutation_length.
  - intros k fa Hin. exists fa. split; [|split; [reflexivity|]].
    + apply In_mapGet.
      * unfold mapOk, mapKeys in *.
        apply (Permutation_NoDup (l := map fst aFields)); [|assumption].
        now apply Permutation_map.
      * now apply (Permutation_in (l := aFields)).
    + apply areTypesEqual_refl. rewrite Forall_forall in Hok. apply (Hok (k, fa) Hin).
Qed.

Lemma object_equality_ignores_field_order_witness :
  areTypesEqual
    (TObject [("a"%string, mkField TNumber true); ("b"%string, mkField TBoolean false)])
    (TObject [("b"%string, mkField TBoolean false); ("a"%string, mkField TNumber true)])
  = true.
Proof.
  apply (object_equality_ignores_field_order
           [("a"%string, mkField TNumber true); ("b"%string, mkField TBoolean false)]
           [("b"%string, mkField TBoolean false); ("a"%string, mkField TNumber true)]).
  - unfold mapOk. simpl. repeat constructor; simpl; intuition discriminate.
  - repeat constructor.
  - apply perm_swap.
Defined.

(** ** Unification, once more *)

(** Unification keeps type trees well formed. *)
Theorem unification_keeps_well_formed (a b : TypeNode) :
  wellFormed a -> wellFormed b -> wellFormed (unifyTypes a b).
Proof. apply unifyTypes_wellFormed. Qed.

Lemma unification_keeps_well_formed_witness :
  wellFormed (unifyTypes (TUnion [TNumber; TBoolean])
                         (TString (Some false) None (Some "a"%string))).
Proof.
  apply (unification_keeps_well_formed
           (TUnion [TNumber; TBoolean]) (TString (Some false) None (Some "a"%string))).
  - simpl. repeat split; lia.
  - simpl. constructor.
Defined.

(** Unifying two arrays is unifying their items, whether or not the arrays
    are structurally equal. *)
Theorem unify_arrays_itemwise (aItems bItems : TypeNode) :
  unifyTypes (TArray aItems) (TArray bItems) = TArray (unifyTypes aItems bItems).
Proof.
  destruct (areTypesEqual (TArray aItems) (TArray bItems)) eqn:E.
  - rewrite (unifyTypes_equal _ _ E). simpl in E. now rewrite (unifyTypes_equal _ _ E).
  - now apply unifyTypes_arrays.
Qed.

Lemma firstSeen_NoDup l : NoDup l -> firstSeen l = l.
Proof.
  induction 1 as [|x l Hx _ IH]; simpl; [reflexivity|].
  rewrite IH. f_equal.
  clear IH. induction l as [|y l IHl]; simpl; [reflexivity|].
  destruct (String.eqb_spec x y) as [->|Hne]; simpl.
  - exfalso. apply Hx. now left.
  - f_equal. apply IHl. intros H. apply Hx. now right.
Qed.

Lemma setOf_app a b :
  NoDup a ->
  setOf (a ++ b) = a ++ firstSeen (filter (fun y => negb (existsb (String.eqb y) a)) b).
Proof.
  intros Ha. unfold setOf. rewrite fold_left_app.
  fold (setOf a). rewrite setOf_firstSeen, (firstSeen_NoDup a Ha).
  apply fold_setAdd_firstSeen.
Qed.

(** Merged enum values are the values of the left operand, in their order,
    followed by the values only the right operand has, in theirs. *)
Theorem merged_enum_values_order (a b : option (list string)) :
  NoDup (orEmpty a) ->
  mergeStringLiteralSets a b =
  match a, b with
  | None, None => None
  | _, _ =>
      Some (orEmpty a
            ++ firstSeen (filter (fun y => negb (existsb (String.eqb y) (orEmpty a)))
                                 (orEmpty b)))
  end.
Proof.
  intros Ha. unfold mergeStringLiteralSets.
  destruct a as [a|], b as [b|]; try reflexivity;
    now rewrite (setOf_app _ _ Ha).
Qed.

Lemma merged_enum_values_order_witness :
  mergeStringLiteralSets (Some ["a"; "b"]%string) (Some ["c"; "b"; "c"]%string) =
  Some (orEmpty (Some ["a"; "b"]%string)
        ++ firstSeen (filter (fun y => negb (existsb (String.eqb y)
                                               (orEmpty (Some ["a"; "b"]%string))))
                             (orEmpty (Some ["c"; "b"; "c"]%string)))).
Proof.
  apply (merged_enum_values_order (Some ["a"; "b"]%string) (Some ["c"; "b"; "c"]%string)).
  simpl. repeat constructor; simpl; intuition discriminate.
Defined.

Lemma setOf_NoDup_id l : NoDup l -> setOf l = l.
Proof. intros H. now rewrite setOf_firstSeen, firstSeen_NoDup. Qed.

(** Unifying an enum with a plain string node, in either order, gives the
    enum back: the plain string adds no value to it. *)
Theorem enum_absorbs_plain_string
        (d d' : option bool) (e : list string) (s s' : option string) :
  e <> [] -> NoDup e ->
  unifyTypes (TString d (Some e) s) (TString d' None s')
  = TString (Some (truthy d || truthy d')) (Some e) None
  /\ unifyTypes (TString d' None s') (TString d (Some e) s)
     = TString (Some (truthy d' || truthy d)) (Some e) None.
Proof.
  intros Hne Hnd. split.
  - rewrite unifyTypes_strings.
    + simpl. now rewrite app_nil_r, (setOf_NoDup_id e Hnd).
    + destruct (areTypesEqual _ _) eqn:E; [|reflexivity].
      apply areTypesEqual_string in E. destruct E as [_ E]. simpl in E. congruence.
  - rewrite unifyTypes_strings.
    + simpl. now rewrite (setOf_NoDup_id e Hnd).
    + destruct (areTypesEqual _ _) eqn:E; [|reflexivity].
      apply areTypesEqual_string in E. destruct E as [_ E]. simpl in E. congruence.
Qed.

Lemma enum_absorbs_plain_string_witness :
  unifyTypes (TString None (Some ["a"; "b"]%string) None)
             (TString (Some false) None (Some "hello world"%string))
  = TString (Some (truthy None || truthy (Some false))) (Some ["a"; "b"]%string) None
  /\ unifyTypes (TString (Some false) None (Some "hello world"%string))
                (TString None (Some ["a"; "b"]%string) None)
     = TString (Some (truthy (Some false) || truthy None)) (Some ["a"; "b"]%string) None.
Proof.
  apply (enum_absorbs_plain_string None (Some false) ["a"; "b"]%string None
           (Some "hello world"%string)).
  - discriminate.
  - repeat constructor; simpl; intuition discriminate.
Defined.

Lemma mapKeys_mapSet {V : Type} (m : JsMap V) k v :
  mapKeys (mapSet m k v) = setAdd (mapKeys m) k.
Proof.
  unfold setAdd. induction m as [|[k' v'] m IH]; simpl; [reflexivity|].
  rewrite (String.eqb_sym k k').
  destruct (String.eqb_spec k' k) as [->|Hne]; simpl; [reflexivity|].
  rewrite IH. unfold mapKeys. now destruct (existsb (String.eqb k) (map fst m)).
Qed.

Lemma fold_set_keys (field : string -> option (FieldInfo TypeNode)) keys :
  forall unified,
  (forall k, In k keys -> field k <> None) ->
  mapKeys (fold_left (fun u key => match field key with
                                   | Some f => mapSet u key f
                                   | None => u
                                   end) keys unified)
  = fold_left setAdd keys (mapKeys unified).
Proof.
  induction keys as [|key keys IH]; intros unified H; simpl; [reflexivity|].
  rewrite IH by (intros k Hk; apply H; now right).
  destruct (field key) as [f|] eqn:E.
  - now rewrite mapKeys_mapSet.
  - exfalso. apply (H key); [now left | assumption].
Qed.

Lemma unifyFields_keys af bf :
  mapKeys (unifyFields af bf) = setOf (mapKeys af ++ mapKeys bf).
Proof.
  rewrite unifyFields_fold, fold_set_keys.
  - simpl. fold (setOf (setOf (mapKeys af ++ mapKeys bf))).
    apply setOf_NoDup_id, setOf_NoDup.
  - intros k Hk. apply setOf_In, in_app_iff in Hk. unfold unifiedField.
    destruct Hk as [Hk|Hk]; apply mapGet_is_Some in Hk; destruct Hk as [f Hf];
      rewrite Hf; destruct (mapGet af k), (mapGet bf k); discriminate.
Qed.

Lemma filter_none {A : Type} (p : A -> bool) l :
  (forall x, In x l -> p x = false) -> filter p l = [].
Proof.
  induction l as [|x l IH]; intros H; simpl; [reflexivity|].
  rewrite (H x (or_introl eq_refl)). apply IH. intros y Hy. apply H. now right.
Qed.

(** The fields of a unified object come in the order of the left operand,
    followed by the fields only the right operand has, in its order. *)
Theorem unified_object_field_order (aFields bFields : JsMap (FieldInfo TypeNode)) :
  mapOk aFields -> mapOk bFields ->
  exists unified,
    unifyTypes (TObject aFields) (TObject bFields) = TObject unified
    /\ mapKeys unified
       = mapKeys aFields
         ++ filter (fun k => negb (existsb (String.eqb k) (mapKeys aFields)))
                   (mapKeys bFields).
Proof.
  intros Ha Hb.
  destruct (areTypesEqual (TObject aFields) (TObject bFields)) eqn:E.
  - exists aFields. split; [now apply unifyTypes_equal|].
    pose proof (areTypesEqual_object_keys _ _ E) as Hincl.
    apply areTypesEqual_object in E. destruct E as [Hs _].
    pose proof (mapKeys_incl_same_size aFields bFields Ha Hs Hincl) as Hback.
    rewrite filter_none; [now rewrite app_nil_r|].
    intros k Hk. apply Hback in Hk. apply existsb_eqb_In in Hk. now rewrite Hk.
  - exists (unifyFields aFields bFields). split; [now apply unifyTypes_object|].
    rewrite unifyFields_keys, (setOf_app _ _ Ha). f_equal.
    apply firstSeen_NoDup, NoDup_filter, Hb.
Qed.

Lemma unified_object_field_order_witness :
  exists unified,
    unifyTypes (TObject [("a"%string, mkField TNumber true)])
               (TObject [("z"%string, mkField TBoolean true);
                         ("a"%string, mkField TNumber true)]) = TObject unified
    /\ mapKeys unified
       = mapKeys [("a"%string, mkField TNumber true)]
         ++ filter (fun k => negb (existsb (String.eqb k)
                                     (mapKeys [("a"%string, mkField TNumber true)])))
                   (mapKeys [("z"%string, mkField TBoolean true);
                             ("a"%string, mkField TNumber true)]).
Proof.
  apply (unified_object_field_order
           [("a"%string, mkField TNumber true)]
           [("z"%string, mkField TBoolean true); ("a"%string, mkField TNumber true)]).
  - unfold mapOk. simpl. repeat constructor. simpl. intuition.
  - unfold mapOk. simpl. repeat constructor; simpl; intuition discriminate.
Defined.

(** ** Unifying many nodes *)

Lemma fold_unifyTypes_any rest : fold_left unifyTypes rest TAny = TAny.
Proof.
  induction rest as [|t rest IH]; cbn [fold_left]; [reflexivity|].
  now rewrite unifyTypes_any_l.
Qed.

Lemma fold_unifyTypes_reaches_any rest : forall first,
  In TAny rest -> fold_left unifyTypes rest first = TAny.
Proof.
  induction rest as [|t rest IH]; intros first H; [contradiction|].
  cbn [fold_left]. destruct H as [->|H].
  - rewrite unifyTypes_any_r. apply fold_unifyTypes_any.
  - now apply IH.
Qed.

(** One [any] among the nodes makes the unification of all of them [any]. *)
Theorem unifyTypesMany_any_absorbs (nodes : list TypeNode) :
  In TAny nodes -> unifyTypesMany nodes = Some TAny.
Proof.
  destruct nodes as [|first rest]; [contradiction|].
  intros [->|H]; cbn [unifyTypesMany]; f_equal.
  - apply fold_unifyTypes_any.
  - now apply fold_unifyTypes_reaches_any.
Qed.

Lemma unifyTypesMany_any_absorbs_witness :
  unifyTypesMany [TNumber; TAny; TBoolean] = Some TAny.
Proof.
  apply (unifyTypesMany_any_absorbs [TNumber; TAny; TBoolean]).
  simpl. intuition.
Defined.

(** When every node is structurally equal to the first, the unification of
    all of them is the first node itself, with the sample it carries. *)
Theorem unifyTypesMany_keeps_first (first : TypeNode) (rest : list TypeNode) :
  (forall t, In t rest -> areTypesEqual first t = true) ->
  unifyTypesMany (first :: rest) = Some first.
Proof.
  intros H. cbn [unifyTypesMany]. f_equal.
  induction rest as [|t rest IH]; cbn [fold_left]; [reflexivity|].
  rewrite (unifyTypes_equal first t) by (apply H; now left).
  apply IH. intros t' Ht'. apply H. now right.
Qed.

Lemma unifyTypesMany_keeps_first_witness :
  unifyTypesMany (TString (Some false) None (Some "x"%string)
                  :: [TString (Some false) None (Some "y"%string)])
  = Some (TString (Some false) None (Some "x"%string)).
Proof.
  apply (unifyTypesMany_keeps_first (TString (Some false) None (Some "x"%string))
           [TString (Some false) None (Some "y"%string)]).
  intros t [<-|[]]. reflexivity.
Defined.

(** ** Normalization, once more *)

Lemma pairwiseDistinct_app_cons flat t l :
  pairwiseDistinct (flat ++ t :: l) ->
  existsb (fun e => areTypesEqual e t) flat = false.
Proof.
  unfold pairwiseDistinct. induction flat as [|e flat IH]; simpl; intros H; [reflexivity|].
  inversion H as [|? ? He Hr]; subst.
  rewrite Forall_forall in He. rewrite (He t) by (apply in_or_app; right; now left).
  simpl. now apply IH.
Qed.

Lemma fold_flatten_distinct_id l : forall flat,
  (forall t, In t l -> isUnion t = false) ->
  pairwiseDistinct (flat ++ l) ->
  fold_left flattenStep l flat = flat ++ l.
Proof.
  induction l as [|t l IH]; intros flat Hu Hd; simpl.
  - now rewrite app_nil_r.
  - rewrite (flattenStep_plain _ _ (Hu t (or_introl eq_refl))).
    rewrite (pairwiseDistinct_app_cons _ _ _ Hd).
    rewrite IH.
    + now rewrite <- app_assoc.
    + intros t' Ht'. apply Hu. now right.
    + now rewrite <- app_assoc.
Qed.

Lemma no_any_existsb l : (forall t, In t l -> isAny t = false) -> existsb isAny l = false.
Proof.
  induction l as [|t l IH]; intros H; simpl; [reflexivity|].
  rewrite (H t (or_introl eq_refl)). apply IH. intros t' Ht'. apply H. now right.
Qed.

(** Normalization changes nothing in an array of members that are neither
    [any] nor unions and pairwise not structurally equal, unless the array
    has a single member, which is then returned by itself. *)
Theorem normalize_keeps_distinct_members (types : list TypeNode) :
  (forall t, In t types -> isAny t = false /\ isUnion t = false) ->
  pairwiseDistinct types ->
  normalizeUnionType types =
  match types with
  | [only] => only
  | _ => TUnion types
  end.
Proof.
  intros H Hd. unfold normalizeUnionType.
  rewrite no_any_existsb by (intros t Ht; apply H, Ht).
  rewrite (fold_flatten_distinct_id types []); [reflexivity | | exact Hd].
  intros t Ht. apply H, Ht.
Qed.

Lemma normalize_keeps_distinct_members_witness :
  normalizeUnionType [TNumber; TBoolean] =
  match [TNumber; TBoolean] with
  | [only] => only
  | _ => TUnion [TNumber; TBoolean]
  end.
Proof.
  apply (normalize_keeps_distinct_members [TNumber; TBoolean]).
  - intros t [<-|[<-|[]]]; split; reflexivity.
  - repeat constructor.
Defined.

(** Without nested unions normalization does remove duplicates: of an array
    of members that are neither [any] nor unions it returns either one
    member, to which all are structurally equal, or a union of members of the
    array, pairwise not structurally equal, among which every member of the
    array has an equal. *)
Theorem normalize_dedupes_without_nesting (types : list TypeNode) :
  Forall plainMember types -> types <> [] ->
  (exists only, normalizeUnionType types = only /\ In only types
                /\ forall t, In t types -> areTypesEqual only t = true)
  \/ (exists flat, normalizeUnionType types = TUnion flat
                   /\ 2 <= List.length flat
                   /\ pairwiseDistinct flat
                   /\ incl flat types
                   /\ forall t, In t types ->
                        exists e, In e flat /\ areTypesEqual e t = true).
Proof.
  intros Hp Hne. unfold normalizeUnionType. rewrite (plain_no_any _ Hp).
  assert (Hfrom : incl (fold_left flattenStep types []) types).
  { intros x Hx. destruct (fold_flatten_from types [] x Hp Hx) as [[]|H]. exact H. }
  pose proof (fold_flatten_represents types []) as Hrep.
  assert (Hdist : pairwiseDistinct (fold_left flattenStep types [])).
  { apply fold_flatten_distinct; [|constructor].
    apply Forall_impl with (2 := Hp). intros t Ht. apply Ht. }
  destruct (fold_left flattenStep types []) as [|x [|y r]] eqn:E.
  - exfalso. destruct types as [|t types]; [congruence|].
    destruct (Hrep t Hp (or_introl eq_refl)) as [e [[] _]].
  - left. exists x. split; [reflexivity|]. split; [apply Hfrom; now left|].
    intros t Ht. destruct (Hrep t Hp Ht) as [e [[<-|[]] He]]. exact He.
  - right. exists (x :: y :: r). split; [reflexivity|].
    split; [simpl; lia|]. split; [assumption|]. split; [assumption|].
    intros t Ht. now apply Hrep.
Qed.

Lemma normalize_dedupes_without_nesting_witness :
  (exists only, normalizeUnionType [TNumber; TBoolean; TNumber] = only
                /\ In only [TNumber; TBoolean; TNumber]
                /\ forall t, In t [TNumber; TBoolean; TNumber] ->
                             areTypesEqual only t = true)
  \/ (exists flat, normalizeUnionType [TNumber; TBoolean; TNumber] = TUnion flat
                   /\ 2 <= List.length flat
                   /\ pairwiseDistinct flat
                   /\ incl flat [TNumber; TBoolean; TNumber]
                   /\ forall t, In t [TNumber; TBoolean; TNumber] ->
                        exists e, In e flat /\ areTypesEqual e t = true).
Proof.
  apply (normalize_dedupes_without_nesting [TNumber; TBoolean; TNumber]).
  - repeat constructor.
  - discriminate.
Defined.

Lemma areTypesEqual_union_other types b :
  isUnion b = false -> areTypesEqual (TUnion types) b = false.
Proof. destruct b; simpl; intros H; try reflexivity. discriminate H. Qed.

(** Extending a union of distinct members by a node that is neither [any] nor
    a union appends the node, unless a member is structurally equal to it:
    then the union comes back unchanged. *)
Theorem union_extended_by_member (types : list TypeNode) (b : TypeNode) :
  (forall t, In t types -> isAny t = false /\ isUnion t = false) ->
  pairwiseDistinct types -> 2 <= List.length types ->
  isAny b = false -> isUnion b = false ->
  unifyTypes (TUnion types) b =
  TUnion (if existsb (fun e => areTypesEqual e b) types then types else types ++ [b]).
Proof.
  intros H Hd Hlen Hab Hub.
  rewrite unifyTypes_union_l; [|now apply areTypesEqual_union_other | assumption].
  unfold normalizeUnionType.
  rewrite existsb_app, no_any_existsb by (intros t Ht; apply H, Ht).
  simpl. rewrite Hab. simpl.
  rewrite fold_left_app, (fold_flatten_distinct_id types []);
    [|intros t Ht; apply H, Ht | exact Hd].
  simpl. rewrite (flattenStep_plain _ _ Hub).
  destruct (existsb (fun e => areTypesEqual e b) types).
  - destruct types as [|x [|y r]]; simpl in Hlen; try lia; reflexivity.
  - destruct types as [|x [|y r]]; simpl in Hlen; try lia; reflexivity.
Qed.

Lemma union_extended_by_member_witness :
  unifyTypes (TUnion [TNumber; TBoolean]) (TArray TAny) =
  TUnion (if existsb (fun e => areTypesEqual e (TArray TAny)) [TNumber; TBoolean]
          then [TNumber; TBoolean] else [TNumber; TBoolean] ++ [TArray TAny]).
Proof.
  apply (union_extended_by_member [TNumber; TBoolean] (TArray TAny)).
  - intros t [<-|[<-|[]]]; split; reflexivity.
  - repeat constructor.
  - simpl. lia.
  - reflexivity.
  - reflexivity.
Defined.

(** ** Inference, once more *)

(** An array with a [null] element is inferred as an array of [any]. *)
Theorem array_with_null_is_any_array (elements : list Value) (options : Options) :
  In VNull elements ->
  inferTypeFromValue (VArray elements) options = Some (TArray TAny).
Proof.
  intros Hin. rewrite inferTypeFromValue_array.
  destruct elements as [|e elements]; [contradiction|]. cbn [List.length Nat.eqb].
  assert (Hs : arrayContainsOnlyStrings (e :: elements) = false).
  { unfold arrayContainsOnlyStrings.
    destruct (forallb _ (e :: elements)) eqn:E; [|reflexivity].
    rewrite forallb_forall in E. specialize (E VNull Hin). discriminate E. }
  rewrite Hs. cbn [andb].
  destruct (mapM_Forall (fun v => inferTypeFromValue v options)
              (fun v t => inferTypeFromValue v options = Some t) (e :: elements))
    as [ys [Hys H2]].
  { rewrite Forall_forall. intros v _.
    destruct (inferTypeFromValue_total_wellFormed v options) as [t [Ht _]].
    now exists t. }
  rewrite Hys. cbn [bind].
  destruct (Forall2_In_l _ _ _ _ H2 Hin) as [y [Hy Hnull]].
  injection Hnull as <-.
  destruct ys as [|first rest]; [contradiction|].
  cbn [unifyTypesMany bind]. do 2 f_equal.
  destruct Hy as [Hy|Hy];
    [subst first; apply fold_unifyTypes_any | now apply fold_unifyTypes_reaches_any].
Qed.

Lemma array_with_null_is_any_array_witness :
  inferTypeFromValue (VArray [VNumber 1; VNull; VString "a"]) (mkOptions true 2 12)
  = Some (TArray TAny).
Proof.
  apply (array_with_null_is_any_array [VNumber 1; VNull; VString "a"] (mkOptions true 2 12)).
  simpl. intuition.
Defined.

Lemma mapSet_fresh {V : Type} (m : JsMap V) k v :
  ~ In k (mapKeys m) -> mapSet m k v = m ++ [(k, v)].
Proof.
  induction m as [|[k' v'] m IH]; simpl; intros H; [reflexivity|].
  destruct (String.eqb_spec k' k) as [->|Hne]; [exfalso; apply H; now left|].
  f_equal. apply IH. intros Hin. apply H. now right.
Qed.

Lemma inferFields_appends options entries : forall init,
  NoDup (map fst entries) ->
  (forall k, In k (map fst entries) -> ~ In k (mapKeys init)) ->
  exists new,
    inferFields options entries (Some init) = Some (init ++ new)
    /\ Forall2 (fun e kf => fst kf = fst e
                            /\ inferTypeFromValue (snd e) options = Some (type (snd kf))
                            /\ required (snd kf) = negb (isUndefined (snd e)))
               entries new.
Proof.
  induction entries as [|[k v] entries IH]; intros init Hnd Hfresh.
  - exists []. split; [now rewrite app_nil_r | constructor].
  - simpl in Hnd. inversion Hnd as [|? ? Hk Hnd']; subst.
    destruct (inferTypeFromValue_total_wellFormed v options) as [t [Ht _]].
    unfold inferFields. simpl. rewrite Ht. simpl.
    rewrite mapSet_fresh by (apply Hfresh; now left).
    destruct (IH (init ++ [(k, mkField t (negb (isUndefined v)))]) Hnd') as [new [Hf H2]].
    { intros k' Hk' Hin. unfold mapKeys in Hin. rewrite map_app in Hin.
      apply in_app_or in Hin. destruct Hin as [Hin|[<-|[]]].
      - apply (Hfresh k'); [now right | exact Hin].
      - now apply Hk. }
    exists ((k, mkField t (negb (isUndefined v))) :: new). split.
    + unfold inferFields in Hf. rewrite Hf. now rewrite <- app_assoc.
    + constructor; [now repeat split | assumption].
Qed.

(** The object node inferred for an object has one field per entry, in the
    order of the entries: the type inferred for the value of the entry, and
    [required] unless that value is [undefined]. *)
Theorem inferred_object_follows_entries
        (entries : list (string * Value)) (options : Options) :
  NoDup (map fst entries) ->
  exists fields,
    inferTypeFromValue (VObject entries) options = Some (TObject fields)
    /\ Forall2 (fun e kf => fst kf = fst e
                            /\ inferTypeFromValue (snd e) options = Some (type (snd kf))
                            /\ required (snd kf) = negb (isUndefined (snd e)))
               entries fields.
Proof.
  intros Hnd. rewrite inferTypeFromValue_object.
  destruct (inferFields_appends options entries [] Hnd) as [new [Hf H2]].
  { intros k _ []. }
  rewrite Hf. simpl. now exists new.
Qed.

Lemma inferred_object_follows_entries_witness :
  exists fields,
    inferTypeFromValue (VObject [("b"%string, VNumber 1); ("a"%string, VUndefined)])
                       (mkOptions true 2 12) = Some (TObject fields)
    /\ Forall2 (fun e kf => fst kf = fst e
                            /\ inferTypeFromValue (snd e) (mkOptions true 2 12)
                               = Some (type (snd kf))
                            /\ required (snd kf) = negb (isUndefined (snd e)))
               [("b"%string, VNumber 1); ("a"%string, VUndefined)] fields.
Proof.
  apply (inferred_object_follows_entries
           [("b"%string, VNumber 1); ("a"%string, VUndefined)] (mkOptions true 2 12)).
  simpl. repeat constructor; simpl; intuition discriminate.
Defined.

(** ** Dates *)

Lemma existsb_false_Forall {A : Type} (p : A -> bool) l :
  existsb p l = false <-> Forall (fun x => p x = false) l.
Proof.
  induction l as [|x l IH]; simpl.
  - split; [constructor | reflexivity].
  - rewrite orb_false_iff, IH. split.
    + intros [H1 H2]. now constructor.
    + intros H. inversion H; subst. now split.
Qed.

Lemma hasDate_fold_flatten types : forall flat,
  Forall (fun t => hasDate t = false) flat ->
  Forall (fun t => hasDate t = false) types ->
  Forall (fun t => hasDate t = false) (fold_left flattenStep types flat).
Proof.
  induction types as [|t types IH]; intros flat Hflat Hts; simpl; [assumption|].
  inversion Hts as [|? ? Ht Hts']; subst. apply IH; [|assumption].
  destruct t; simpl; try (destruct (negb _)); try assumption;
    try (apply Forall_app; split; [assumption|]; now repeat constructor).
  apply Forall_app. split; [assumption|]. now apply existsb_false_Forall.
Qed.

Lemma hasDate_normalize types :
  Forall (fun t => hasDate t = false) types ->
  hasDate (normalizeUnionType types) = false.
Proof.
  intros H. unfold normalizeUnionType. destruct (existsb isAny types); [reflexivity|].
  pose proof (hasDate_fold_flatten types [] (Forall_nil _) H) as Hf.
  destruct (fold_left flattenStep types []) as [|x [|y r]].
  - reflexivity.
  - now inversion Hf.
  - simpl. change (existsb hasDate (x :: y :: r) = false). now apply existsb_false_Forall.
Qed.

Ltac nodate_pair Ha Hb :=
  apply hasDate_normalize; constructor; [exact Ha|]; constructor; [exact Hb | constructor].

Ltac nodate_onto_union Ha Hb :=
  apply hasDate_normalize; constructor; [exact Ha|]; now apply existsb_false_Forall.

Lemma hasDate_unifyTypes a : forall b,
  hasDate a = false -> hasDate b = false -> hasDate (unifyTypes a b) = false.
Proof.
  induction a as [| | |d e s|items IH|types IH|fields IH] using TypeNode_nested_ind;
    intros b Ha Hb.
  all: match goal with
       | |- hasDate (unifyTypes ?a _) = false =>
           destruct (areTypesEqual a b) eqn:E;
           [rewrite (unifyTypes_equal _ _ E); exact Ha|]
       end.
  all: destruct (isAny b) eqn:Eb;
    [apply isAny_true in Eb; subst b; rewrite unifyTypes_any_r; reflexivity|].
  - rewrite unifyTypes_any_l. reflexivity.
  - destruct b; try discriminate; unify_step E;
      first [nodate_pair Ha Hb | nodate_onto_union Ha Hb].
  - destruct b; try discriminate; unify_step E;
      first [nodate_pair Ha Hb | nodate_onto_union Ha Hb].
  - destruct b; try discriminate; unify_step E;
      first [nodate_pair Ha Hb | nodate_onto_union Ha Hb | idtac].
    simpl in *. now rewrite Ha, Hb.
  - destruct b; try discriminate; unify_step E;
      first [nodate_pair Ha Hb | nodate_onto_union Ha Hb | idtac].
    simpl in *. now apply IH.
  - rewrite unifyTypes_union_l by assumption.
    apply hasDate_normalize, Forall_app. split; [now apply existsb_false_Forall|].
    constructor; [exact Hb | constructor].
  - destruct b as [| | | | | |fields']; try discriminate;
      try (unify_step E; first [nodate_pair Ha Hb | nodate_onto_union Ha Hb]).
    rewrite (unifyTypes_object _ _ E). simpl.
    apply existsb_false_Forall. rewrite Forall_forall. intros [k f] Hin. simpl.
    simpl in Ha, Hb. apply existsb_false_Forall in Ha, Hb.
    rewrite Forall_forall in IH, Ha, Hb.
    apply (In_mapGet _ _ _ (unifyFields_ok _ _)) in Hin.
    rewrite mapGet_unifyFields in Hin. unfold unifiedField in Hin.
    destruct (mapGet fields k) as [fa|] eqn:Ega;
      destruct (mapGet fields' k) as [fb|] eqn:Egb;
      try discriminate Hin; injection Hin as <-; simpl.
    + apply mapGet_In in Ega, Egb.
      apply (IH (k, fa) Ega); [apply (Ha (k, fa) Ega) | apply (Hb (k, fb) Egb)].
    + apply mapGet_In in Ega. apply (Ha (k, fa) Ega).
    + apply mapGet_In in Egb. apply (Hb (k, fb) Egb).
Qed.

Lemma hasDate_fold_unify rest : forall first,
  hasDate first = false -> Forall (fun t => hasDate t = false) rest ->
  hasDate (fold_left unifyTypes rest first) = false.
Proof.
  induction rest as [|t rest IH]; intros first Hf Hr; cbn [fold_left]; [assumption|].
  inversion Hr; subst. apply IH; [|assumption]. now apply hasDate_unifyTypes.
Qed.

Lemma inferTypeFromValue_no_dates v options :
  detectDatesFromIsoStrings options = false ->
  exists t, inferTypeFromValue v options = Some t /\ hasDate t = false.
Proof.
  intros Hd.
  induction v as [| |s|n|b|elements IH|entries IH] using Value_nested_ind.
  - now exists TAny.
  - now exists TAny.
  - eexists. split; [reflexivity|]. simpl. now rewrite Hd.
  - now exists TNumber.
  - now exists TBoolean.
  - rewrite inferTypeFromValue_array.
    destruct elements as [|e elements]; [now exists (TArray TAny)|].
    cbn [List.length Nat.eqb].
    destruct (_ && _); [eexists; split; reflexivity|].
    destruct (mapM_Forall (fun v => inferTypeFromValue v options)
                (fun _ t => hasDate t = false) (e :: elements) IH) as [ys [Hys H2]].
    rewrite Hys. cbn [bind].
    inversion H2 as [|? first ? rest Hfirst Hrest]; subst.
    cbn [unifyTypesMany bind]. eexists. split; [reflexivity|]. simpl.
    apply hasDate_fold_unify; [assumption|].
    clear - Hrest. induction Hrest; constructor; assumption.
  - rewrite inferTypeFromValue_object.
    destruct (inferFields_inv options (fun _ t => hasDate t = false) entries IH []
                mapOk_nil) as [fields [Hf [_ Hin]]].
    rewrite Hf. simpl. exists (TObject fields). split; [reflexivity|].
    simpl. apply existsb_false_Forall. rewrite Forall_forall. intros [k f] Hkf.
    destruct (Hin k f Hkf) as [[]|[v [_ [Hw _]]]]. exact Hw.
Qed.

(** With [detectDatesFromIsoStrings] off, no string node of the inferred tree
    is a date, whatever the strings of the value look like. *)
Theorem no_dates_when_detection_is_off (v : Value) (options : Options) :
  detectDatesFromIsoStrings options = false ->
  exists t, inferTypeFromValue v options = Some t /\ hasDate t = false.
Proof. apply inferTypeFromValue_no_dates. Qed.

Lemma no_dates_when_detection_is_off_witness :
  exists t,
    inferTypeFromValue
      (VArray [VString "2025-08-16T12:34:56Z"; VNumber 1]) (mkOptions false 2 12) = Some t
    /\ hasDate t = false.
Proof.
  apply (no_dates_when_detection_is_off
           (VArray [VString "2025-08-16T12:34:56Z"; VNumber 1]) (mkOptions false 2 12)).
  reflexivity.
Defined.

Lemma all_app p a b : Chars.all p (a ++ b) = Chars.all p a && Chars.all p b.
Proof.
  induction a as [|c a IH]; simpl; [reflexivity|]. now rewrite IH, andb_assoc.
Qed.

Lemma string_length_app (a b : string) :
  String.length (a ++ b) = String.length a + String.length b.
Proof. induction a as [|c a IH]; simpl; [reflexivity | now rewrite IH]. Qed.

Lemma digits_are_token_chars s :
  Chars.all Chars.isDigit s = true -> Chars.all Chars.isTokenChar s = true.
Proof.
  induction s as [|c s IH]; simpl; [reflexivity|].
  intros H. apply andb_prop in H. destruct H as [Hc Hs].
  rewrite (IH Hs), andb_true_r. unfold Chars.isTokenChar. rewrite Hc.
  now rewrite !orb_true_r.
Qed.

Lemma dateOnly_matches s : dateOnly s -> isIsoLikeDateString s = true.
Proof.
  intros [y [m [d [-> [Ly [Lm [Ld [Hy [Hm Hd]]]]]]]]].
  destruct y as [|y1 [|y2 [|y3 [|y4 [|]]]]]; try discriminate Ly.
  destruct m as [|m1 [|m2 [|]]]; try discriminate Lm.
  destruct d as [|d1 [|d2 [|]]]; try discriminate Ld.
  simpl in Hy, Hm, Hd.
  repeat match goal with
         | H : (_ && _)%bool = true |- _ => apply andb_prop in H; destruct H
         end.
  unfold isIsoLikeDateString, IsoDate.test, IsoDate.andThen.
  repeat (simpl; match goal with
                 | H : Chars.isDigit _ = true |- _ => rewrite H; clear H
                 end).
  reflexivity.
Qed.

(** The date pattern checks digits, not the calendar: every string made of
    four, two and two digits between dashes is taken for a date. *)
Theorem date_pattern_accepts_any_digits (s : string) :
  dateOnly s -> isIsoLikeDateString s = true.
Proof.
  apply dateOnly_matches.
Qed.

Lemma date_pattern_accepts_any_digits_witness :
  isIsoLikeDateString "9999-99-99" = true.
Proof.
  apply (date_pattern_accepts_any_digits "9999-99-99").
  exists "9999"%string, "99"%string, "99"%string. repeat split.
Defined.

Lemma dateOnly_tokenLike s : dateOnly s -> tokenLike s.
Proof.
  intros [y [m [d [-> [Ly [Lm [Ld [Hy [Hm Hd]]]]]]]]]. repeat split.
  - destruct y; [discriminate Ly | discriminate].
  - rewrite !string_length_app, Ly, Lm, Ld. simpl. lia.
  - apply all_In. rewrite !all_app.
    rewrite (digits_are_token_chars _ Hy), (digits_are_token_chars _ Hm),
            (digits_are_token_chars _ Hd).
    reflexivity.
Qed.

(** The enum rule comes before date detection: a non-empty array of date-only
    strings whose number of distinct values lies within the thresholds is
    inferred as an enum of these strings, without a date flag, although each
    of them matches the date pattern. *)
Theorem date_only_strings_become_an_enum (elements : list Value) (options : Options) :
  elements <> [] ->
  arrayContainsOnlyStrings elements = true ->
  Forall dateOnly (stringsIn elements) ->
  (stringEnumMinUniqueValues options
   <= Z.of_nat (List.length (firstSeen (stringsIn elements)))
   <= stringEnumMaxUniqueValues options)%Z ->
  inferTypeFromValue (VArray elements) options
  = Some (TArray (TString None (Some (firstSeen (stringsIn elements))) None))
  /\ Forall (fun s => isIsoLikeDateString s = true) (stringsIn elements).
Proof.
  intros Hne Hstr Hdates Hcount. split.
  - rewrite inferTypeFromValue_array, Hstr.
    destruct elements as [|e elements]; [congruence|]. cbn [List.length Nat.eqb andb].
    assert (Hc : enumCondition (stringsIn (e :: elements)) options).
    { split; [assumption|]. rewrite Forall_forall in Hdates |- *.
      intros s Hs. apply dateOnly_tokenLike, Hdates.
      rewrite <- setOf_firstSeen in Hs. exact (proj1 (setOf_In _ _) Hs). }
    apply shouldUseStringEnumForArray_enumCondition in Hc.
    now rewrite Hc, setOf_firstSeen.
  - apply Forall_impl with (2 := Hdates). apply dateOnly_matches.
Qed.

Lemma date_only_strings_become_an_enum_witness :
  inferTypeFromValue (VArray [VString "2025-08-16"; VString "2025-08-17"])
                     (mkOptions true 2 12)
  = Some (TArray (TString None
                    (Some (firstSeen (stringsIn [VString "2025-08-16";
                                                 VString "2025-08-17"]))) None))
  /\ Forall (fun s => isIsoLikeDateString s = true)
            (stringsIn [VString "2025-08-16"; VString "2025-08-17"]).
Proof.
  apply (date_only_strings_become_an_enum
           [VString "2025-08-16"; VString "2025-08-17"] (mkOptions true 2 12)).
  - discriminate.
  - reflexivity.
  - repeat constructor.
    + exists "2025"%string, "08"%string, "16"%string. repeat split.
    + exists "2025"%string, "08"%string, "17"%string. repeat split.
  - simpl. lia.
Defined.

(** ** Singular forms *)

Lemma substring_whole s : substring 0 (String.length s) s = s.
Proof. induction s as [|c s IH]; simpl; [reflexivity | now rewrite IH]. Qed.

Lemma substring_app_r pre tail :
  substring (String.length pre) (String.length tail) (pre ++ tail) = tail.
Proof. induction pre as [|c pre IH]; simpl; [apply substring_whole | exact IH]. Qed.

Lemma substring_app_l pre tail :
  substring 0 (String.length pre) (pre ++ tail) = pre.
Proof.
  induction pre as [|c pre IH]; simpl; [now destruct tail | now rewrite IH].
Qed.

Lemma substring_split s : forall k,
  k <= String.length s ->
  s = (substring 0 k s ++ substring k (String.length s - k) s)%string.
Proof.
  induction s as [|c s IH]; intros k Hk; simpl in *.
  - now destruct k.
  - destruct k as [|k]; simpl.
    + now rewrite substring_whole.
    + f_equal. apply IH. lia.
Qed.

Lemma substring_length s : forall k,
  k <= String.length s -> String.length (substring 0 k s) = k.
Proof.
  induction s as [|c s IH]; intros k Hk; simpl in *.
  - destruct k; [reflexivity | lia].
  - destruct k as [|k]; simpl; [reflexivity|]. rewrite IH; [reflexivity | lia].
Qed.

Lemma lowerString_cons c t :
  lowerString (String c t) = String (lowerAscii c) (lowerString t).
Proof. reflexivity. Qed.

Lemma lowerString_length t : String.length (lowerString t) = String.length t.
Proof.
  induction t as [|c t IH]; [reflexivity|].
  rewrite lowerString_cons. simpl. now rewrite IH.
Qed.

Lemma lowerString_app a b : lowerString (a ++ b) = (lowerString a ++ lowerString b)%string.
Proof.
  induction a as [|c a IH]; [reflexivity|].
  simpl append. rewrite !lowerString_cons, IH. reflexivity.
Qed.

Lemma append_same_length_l (a1 : string) : forall a2 b1 b2,
  (a1 ++ b1 = a2 ++ b2)%string -> String.length a1 = String.length a2 ->
  a1 = a2 /\ b1 = b2.
Proof.
  induction a1 as [|c a1 IH]; intros [|c2 a2] b1 b2 H Hl; simpl in *; try discriminate.
  - now split.
  - injection H as -> H. injection Hl as Hl.
    destruct (IH _ _ _ H Hl) as [-> ->]. now split.
Qed.

Lemma append_same_length_r (a1 : string) : forall a2 b1 b2,
  (a1 ++ b1 = a2 ++ b2)%string -> String.length b1 = String.length b2 ->
  a1 = a2 /\ b1 = b2.
Proof.
  intros a2 b1 b2 H Hl. apply append_same_length_l; [assumption|].
  apply (f_equal String.length) in H. rewrite !string_length_app in H. lia.
Qed.

(** [text] ends, whatever the case of its letters, with [suffix]. *)
Lemma endsWithIgnoringCase_iff suffix text :
  endsWithIgnoringCase suffix text = true <->
  exists pre tail, text = (pre ++ tail)%string /\ lowerString tail = suffix.
Proof.
  unfold endsWithIgnoringCase. fold (lowerString
    (substring (String.length text - String.length suffix) (String.length suffix) text)).
  rewrite andb_true_iff, Nat.leb_le, String.eqb_eq. split.
  - intros [Hle E].
    exists (substring 0 (String.length text - String.length suffix) text),
           (substring (String.length text - String.length suffix)
                      (String.length suffix) text).
    split; [|now symmetry].
    rewrite (substring_split text (String.length text - String.length suffix)) at 1
      by lia.
    do 2 f_equal. lia.
  - intros [pre [tail [-> <-]]]. rewrite lowerString_length, string_length_app.
    split; [lia|].
    replace (String.length pre + String.length tail - String.length tail)
      with (String.length pre) by lia.
    now rewrite substring_app_r.
Qed.

Lemma endsWithIgnoringCase_same_length s1 s2 text :
  endsWithIgnoringCase s1 text = true -> endsWithIgnoringCase s2 text = true ->
  String.length s1 = String.length s2 -> s1 = s2.
Proof.
  intros H1 H2 Hl. apply endsWithIgnoringCase_iff in H1, H2.
  destruct H1 as [p1 [t1 [-> <-]]], H2 as [p2 [t2 [E <-]]].
  rewrite !lowerString_length in Hl.
  destruct (append_same_length_r _ _ _ _ E Hl) as [_ ->]. reflexivity.
Qed.

Lemma endsWithIgnoringCase_shorter a b text :
  endsWithIgnoringCase (a ++ b) text = true -> endsWithIgnoringCase b text = true.
Proof.
  intros H. apply endsWithIgnoringCase_iff in H. destruct H as [pre [tail [-> E]]].
  assert (Hl : String.length a <= String.length tail).
  { rewrite <- (lowerString_length tail), E, string_length_app. lia. }
  rewrite (substring_split tail (String.length a) Hl) in E |- *.
  rewrite lowerString_app in E.
  apply append_same_length_l in E.
  - destruct E as [_ E]. apply endsWithIgnoringCase_iff.
    exists (pre ++ substring 0 (String.length a) tail)%string,
           (substring (String.length a) (String.length tail - String.length a) tail).
    split; [now rewrite JsonFacts.append_assoc | assumption].
  - now rewrite lowerString_length, substring_length.
Qed.

Lemma ends_in_ss_not_es text :
  endsWithIgnoringCase "ss" text = true -> endsWithIgnoringCase "es" text = false.
Proof.
  intros H. destruct (endsWithIgnoringCase "es" text) eqn:E; [|reflexivity].
  pose proof (endsWithIgnoringCase_same_length _ _ _ H E eq_refl). discriminate.
Qed.

Lemma not_es_not_longer a text :
  endsWithIgnoringCase "es" text = false ->
  endsWithIgnoringCase (a ++ "es") text = false.
Proof.
  intros H. destruct (endsWithIgnoringCase (a ++ "es") text) eqn:E; [|reflexivity].
  apply endsWithIgnoringCase_shorter in E. congruence.
Qed.

(** A word that ends in a double s is its own singular. *)
Theorem singularizeWord_keeps_double_s (word : string) :
  endsWithIgnoringCase "ss" word = true -> singularizeWord word = word.
Proof.
  intros H. pose proof (ends_in_ss_not_es word H) as Hes.
  unfold singularizeWord.
  rewrite (not_es_not_longer "i" word Hes : endsWithIgnoringCase "ies" word = false),
          (not_es_not_longer "s" word Hes : endsWithIgnoringCase "ses" word = false),
          (not_es_not_longer "x" word Hes : endsWithIgnoringCase "xes" word = false),
          (not_es_not_longer "z" word Hes : endsWithIgnoringCase "zes" word = false),
          (not_es_not_longer "ch" word Hes : endsWithIgnoringCase "ches" word = false),
          (not_es_not_longer "sh" word Hes : endsWithIgnoringCase "shes" word = false).
  rewrite H. simpl. rewrite andb_false_r.
  destruct word; [discriminate H | reflexivity].
Qed.

Lemma singularizeWord_keeps_double_s_witness : singularizeWord "Boss" = "Boss"%string.
Proof. apply (singularizeWord_keeps_double_s "Boss"). reflexivity. Defined.

Lemma dropLast_app p tail :
  dropLast (String.length tail) (p ++ tail) = p.
Proof.
  unfold dropLast. rewrite string_length_app.
  replace (String.length p + String.length tail - String.length tail)
    with (String.length p) by lia.
  apply substring_app_l.
Qed.

(** A word in -ses loses its e only: the singular the code gives it ends in
    a double s. *)
Theorem singularizeWord_of_ses (stem : string) :
  singularizeWord (stem ++ "ses") = (stem ++ "ss")%string.
Proof.
  unfold singularizeWord.
  assert (Hses : endsWithIgnoringCase "ses" (stem ++ "ses") = true).
  { apply endsWithIgnoringCase_iff. now exists stem, "ses"%string. }
  assert (Hies : endsWithIgnoringCase "ies" (stem ++ "ses") = false).
  { destruct (endsWithIgnoringCase "ies" (stem ++ "ses")) eqn:E; [|reflexivity].
    pose proof (endsWithIgnoringCase_same_length _ _ _ E Hses eq_refl). discriminate. }
  rewrite Hies, Hses.
  change (stem ++ "ses")%string with (stem ++ ("s" ++ "es"))%string.
  rewrite <- JsonFacts.append_assoc.
  rewrite (dropLast_app (stem ++ "s") "es" :
             dropLast 2 ((stem ++ "s") ++ "es") = (stem ++ "s")%string).
  now rewrite JsonFacts.append_assoc.
Qed.

(** The singular of a non-empty word is never longer than the word. *)
Theorem singularizeWord_not_longer (word : string) :
  word <> EmptyString ->
  String.length (singularizeWord word) <= String.length word.
Proof.
  intros Hne. unfold singularizeWord, dropLast.
  assert (Hsuf : forall suffix, endsWithIgnoringCase suffix word = true ->
                                String.length suffix <= String.length word).
  { intros suffix H. apply endsWithIgnoringCase_iff in H.
    destruct H as [pre [tail [-> <-]]].
    rewrite lowerString_length, string_length_app. lia. }
  destruct (endsWithIgnoringCase "ies" word) eqn:E1.
  { apply Hsuf in E1. simpl in E1.
    rewrite string_length_app, substring_length by lia. simpl. lia. }
  destruct (endsWithIgnoringCase "ses" word) eqn:E2.
  { apply Hsuf in E2. simpl in E2.
    rewrite string_length_app, substring_length by lia. simpl. lia. }
  destruct (_ || _)%bool.
  { rewrite substring_length by lia. lia. }
  destruct (_ && _)%bool.
  { rewrite substring_length by lia. lia. }
  destruct word; [congruence | lia].
Qed.

Lemma singularizeWord_not_longer_witness :
  String.length (singularizeWord "companies") <= String.length "companies".
Proof. apply (singularizeWord_not_longer "companies"). discriminate. Defined.

(** ** Type names *)

Lemma firstFreeSuffix_least used baseName fuel : forall n k,
  n <= k < firstFreeSuffix used baseName n fuel ->
  setHas used (baseName ++ decimal k)%string = true.
Proof.
  induction fuel as [|fuel IH]; intros n k Hk; simpl in Hk; [lia|].
  destruct (setHas used (baseName ++ decimal n)%string) eqn:E; [|lia].
  destruct (Nat.eq_dec k n) as [->|Hne]; [assumption|].
  apply (IH (S n)). lia.
Qed.

Lemma firstFreeSuffix_ge used baseName fuel : forall n,
  n <= firstFreeSuffix used baseName n fuel.
Proof.
  induction fuel as [|fuel IH]; intros n; simpl; [lia|].
  destruct (setHas used (baseName ++ decimal n)%string); [|lia].
  specialize (IH (S n)). lia.
Qed.

Lemma setHas_false used x : setHas used x = false <-> ~ In x used.
Proof.
  unfold setHas. split.
  - intros H Hin. assert (E : existsb (String.eqb x) used = true).
    { apply existsb_exists. exists x. split; [assumption | apply String.eqb_refl]. }
    congruence.
  - intros H. destruct (existsb (String.eqb x) used) eqn:E; [|reflexivity].
    apply existsb_exists in E. destruct E as [y [Hin E]].
    apply String.eqb_eq in E. subst. contradiction.
Qed.

Lemma nextAvailableTypeName_state baseName st :
  setHas (usedTypeNames st) (fst (nextAvailableTypeName baseName st)) = false
  /\ usedTypeNames (snd (nextAvailableTypeName baseName st))
     = usedTypeNames st ++ [fst (nextAvailableTypeName baseName st)]
  /\ namedTypeDefinitions (snd (nextAvailableTypeName baseName st))
     = namedTypeDefinitions st
  /\ objectNodeToTypeName (snd (nextAvailableTypeName baseName st))
     = objectNodeToTypeName st.
Proof.
  unfold nextAvailableTypeName.
  destruct (setHas (usedTypeNames st) baseName) eqn:E; cbn [negb fst snd usedTypeNames
    namedTypeDefinitions objectNodeToTypeName].
  - pose proof (firstFreeSuffix_free (usedTypeNames st) baseName) as Hfree.
    split; [exact Hfree|]. split; [|now split].
    unfold setAdd. unfold setHas in Hfree. now rewrite Hfree.
  - split; [exact E|]. split; [|now split].
    unfold setAdd. unfold setHas in E. now rewrite E.
Qed.

(** [nextAvailableTypeName] returns a name that was not in use and records
    it, touching nothing else: the base name itself when it is free, else the
    base name followed by the least number from 2 on that gives a free name. *)
Theorem nextAvailableTypeName_fresh_and_least (baseName : string) (st : RenderState) :
  let name := fst (nextAvailableTypeName baseName st) in
  let st' := snd (nextAvailableTypeName baseName st) in
  setHas (usedTypeNames st) name = false
  /\ usedTypeNames st' = usedTypeNames st ++ [name]
  /\ namedTypeDefinitions st' = namedTypeDefinitions st
  /\ objectNodeToTypeName st' = objectNodeToTypeName st
  /\ (setHas (usedTypeNames st) baseName = false -> name = baseName)
  /\ (setHas (usedTypeNames st) baseName = true ->
      exists n, 2 <= n /\ name = (baseName ++ decimal n)%string
                /\ forall k, 2 <= k < n ->
                             setHas (usedTypeNames st) (baseName ++ decimal k)%string = true).
Proof.
  cbv zeta. unfold nextAvailableTypeName.
  destruct (setHas (usedTypeNames st) baseName) eqn:E; cbn [negb fst snd usedTypeNames
    namedTypeDefinitions objectNodeToTypeName].
  - pose proof (firstFreeSuffix_free (usedTypeNames st) baseName) as Hfree.
    split; [exact Hfree|]. split.
    { unfold setAdd. unfold setHas in Hfree. now rewrite Hfree. }
    repeat split; try discriminate.
    intros _. exists (firstFreeSuffix (usedTypeNames st) baseName 2
                        (S (List.length (usedTypeNames st)))).
    split; [apply firstFreeSuffix_ge|]. split; [reflexivity|].
    intros k Hk. exact (firstFreeSuffix_least _ _ _ 2 k Hk).
  - split; [exact E|]. split.
    { unfold setAdd. unfold setHas in E. now rewrite E. }
    repeat split; discriminate.
Qed.

(** ** The declarations of a rendering *)

Lemma Extends_refl typeKeyword st : Extends typeKeyword st st.
Proof.
  exists [], []. simpl. rewrite app_nil_r.
  repeat split; try constructor; try contradiction. apply incl_refl.
Qed.

Lemma Extends_trans typeKeyword st1 st2 st3 :
  Extends typeKeyword st1 st2 -> Extends typeKeyword st2 st3 ->
  Extends typeKeyword st1 st3.
Proof.
  intros [d1 [m1 [D1 [M1 [P1 [N1 [F1 I1]]]]]]] [d2 [m2 [D2 [M2 [P2 [N2 [F2 I2]]]]]]].
  exists (d1 ++ d2), (m2 ++ m1).
  split. { now rewrite D2, D1, map_app, app_assoc. }
  split. { now rewrite M2, M1, app_assoc. }
  split. { rewrite !map_app. rewrite Permutation_app_comm. now apply Permutation_app. }
  split.
  { rewrite map_app. apply NoDup_app; try assumption.
    intros n H2 H1. apply (proj1 (F2 n H2)). exact (proj2 (F1 n H1)). }
  split.
  { intros n H. rewrite map_app in H. apply in_app_or in H. destruct H as [H|H].
    - destruct (F2 n H) as [Hn Hy]. split; [|assumption].
      intros Hin. apply Hn. now apply I1.
    - destruct (F1 n H) as [Hn Hy]. split; [assumption|]. now apply I2. }
  intros n H. now apply I2, I1.
Qed.

Lemma Extending_ret {A : Type} typeKeyword (x : A) : Extending typeKeyword (ret x).
Proof. intros st. apply Extends_refl. Qed.

Lemma Extending_bind {A B : Type} typeKeyword (m : M A) (f : A -> M B) :
  Extending typeKeyword m -> (forall x, Extending typeKeyword (f x)) ->
  Extending typeKeyword (bindM m f).
Proof.
  intros Hm Hf st. unfold bindM. specialize (Hm st).
  destruct (m st) as [x st1]. simpl in Hm.
  exact (Extends_trans _ _ _ _ Hm (Hf x st1)).
Qed.

Lemma Extending_mapMi {A B : Type} typeKeyword (f : nat -> A -> M B) l :
  Forall (fun x => forall i, Extending typeKeyword (f i x)) l ->
  forall i, Extending typeKeyword (mapMi f l i).
Proof.
  induction 1 as [|x l Hx _ IH]; intros i; cbn [mapMi].
  - apply Extending_ret.
  - apply Extending_bind; [apply Hx|]. intros y.
    apply Extending_bind; [apply IH|]. intros ys. apply Extending_ret.
Qed.

Lemma Extending_renderFields typeKeyword entries :
  Forall (fun e : FieldEntry => Extending typeKeyword (snd (snd e))) entries ->
  Extending typeKeyword (renderFields entries).
Proof.
  induction 1 as [|[k [fi m]] l Hx _ IH]; cbn [renderFields].
  - apply Extending_ret.
  - apply Extending_bind; [exact Hx|]. intros y.
    apply Extending_bind; [exact IH|]. intros ys. apply Extending_ret.
Qed.

Lemma Extending_renderArrayType typeKeyword items inner :
  Extending typeKeyword inner -> Extending typeKeyword (renderArrayType items inner).
Proof.
  intros H. unfold renderArrayType. apply Extending_bind; [assumption|].
  intros x. apply Extending_ret.
Qed.

Section Declarations.
Variable localeCompare : string -> string -> Z.
Variable toUpperCase : ascii -> string.
Variable typeKeyword : string.

Local Abbreviation renderNode := (renderTypeNode localeCompare toUpperCase typeKeyword).
Local Abbreviation ensureNamed := (ensureNamedTypeForObject toUpperCase typeKeyword).
Local Abbreviation fieldType := (renderFieldType localeCompare toUpperCase typeKeyword).
Local Abbreviation entriesFor := (fieldEntries localeCompare toUpperCase typeKeyword).

Lemma Extending_ensureNamed objectNode jsonKey isArrayItem renderBody :
  Extending typeKeyword renderBody ->
  Extending typeKeyword (ensureNamed objectNode jsonKey isArrayItem renderBody).
Proof.
  intros Hbody st. unfold ensureNamedTypeForObject.
  destruct (memoGet (objectNodeToTypeName st) objectNode); [apply Extends_refl|].
  unfold bindM, ret.
  destruct (nextAvailableTypeName_state
              (nameFromJsonKey toUpperCase jsonKey isArrayItem) st) as [Hfresh [Hu [Hd Hm]]].
  destruct (nextAvailableTypeName (nameFromJsonKey toUpperCase jsonKey isArrayItem) st)
    as [name st1].
  cbn [fst snd] in Hfresh, Hu, Hd, Hm.
  apply setHas_false in Hfresh.
  match goal with
  | |- context [renderBody ?s] => specialize (Hbody s); destruct (renderBody s) as [body st3]
  end.
  cbn [fst snd] in *.
  destruct Hbody as [d [m [D [Mm [Pm [Nd [Fr Inc]]]]]]].
  cbn [namedTypeDefinitions objectNodeToTypeName usedTypeNames] in *.
  exists (d ++ [(name, body)]), (m ++ [(objectNode, name)]).
  assert (Hname3 : In name (usedTypeNames st3)).
  { apply Inc. rewrite Hu. apply in_or_app. right. now left. }
  split.
  { rewrite D, Hd, map_app, app_assoc. reflexivity. }
  split.
  { rewrite Mm, Hm, <- app_assoc. reflexivity. }
  split.
  { rewrite !map_app. now apply Permutation_app_tail. }
  split.
  { rewrite map_app. apply NoDup_app; [assumption | repeat constructor; intros [] |].
    intros n Hn [<-|[]]. apply (proj1 (Fr _ Hn)). rewrite Hu.
    apply in_or_app. right. now left. }
  split.
  { intros n Hn. rewrite map_app in Hn. apply in_app_or in Hn.
    destruct Hn as [Hn|[<-|[]]].
    - destruct (Fr n Hn) as [Hno Hyes]. split; [|assumption].
      intros Hin. apply Hno. rewrite Hu. apply in_or_app. now left.
    - split; assumption. }
  intros n Hn. apply Inc. rewrite Hu. apply in_or_app. now left.
Qed.

Lemma Extending_renderTypeNode typeNode :
  (forall key inArray id, Extending typeKeyword (renderNode typeNode key inArray id))
  /\ match typeNode with
     | TArray items =>
         forall key inArray id, Extending typeKeyword (renderNode items key inArray id)
     | _ => True
     end.
Proof.
  induction typeNode as [ | | | d e s | items IH | types IH | fields IH ]
    using TypeNode_nested_ind;
    try (split; [intros key inArray id; apply Extending_ret | exact I]).
  - destruct IH as [IH _]. split; [|exact IH].
    intros key inArray id. cbn [renderTypeNode].
    apply Extending_renderArrayType, IH.
  - split; [|exact I]. intros key inArray id. cbn [renderTypeNode].
    apply Extending_bind; [|intros; apply Extending_ret].
    apply Extending_mapMi. apply Forall_forall. intros t Ht i.
    rewrite Forall_forall in IH. apply (IH t Ht).
  - split; [|exact I]. intros key inArray id.
    rewrite renderTypeNode_object.
    apply Extending_bind; [|intros; apply Extending_ret].
    apply Extending_renderFields.
    assert (He : forall i, Forall (fun e : FieldEntry => Extending typeKeyword (snd (snd e)))
                                  (entriesFor id fields i)).
    { induction IH as [|[k fi] r Hx _ IHr]; intros i; cbn [fieldEntries]; constructor;
        [|apply IHr].
      cbn [snd] in Hx |- *. unfold renderFieldType.
      destruct (type fi) as [ | | | d e s | items | types | fs ];
        try apply (proj1 Hx).
      - destruct (isObject items).
        + apply Extending_bind; [|intros; apply Extending_ret].
          apply Extending_ensureNamed. apply (proj2 Hx).
        + apply Extending_renderArrayType. apply (proj2 Hx).
      - apply Extending_ensureNamed. apply (proj1 Hx). }
    eapply Permutation_Forall; [|apply (He 0)].
    symmetry. apply sortBy_perm.
Qed.

(** The names of the declarations, read off the state the rendering ends
    in.  [renderTypescriptFromTree] renders the root in the state that holds
    the name of the root type only, and returns the banner, the entries of
    [namedTypeDefinitions] and the declaration of the root, two line breaks
    between them and one at the end.  In the final state the names recorded
    in [objectNodeToTypeName], those given to the nested object nodes, are
    pairwise distinct and all differ from the name of the root type, and
    [namedTypeDefinitions] holds one declaration for each of them and nothing
    else. *)
Theorem rendered_declarations_have_distinct_names
        (rootTypeName : string) (rootTypeTree : TypeNode) :
  exists (rootBody : string) (st : RenderState) (nested : list (string * string)),
    renderNode rootTypeTree rootTypeName false [] (mkRenderState [] [] [rootTypeName])
    = (rootBody, st)
    /\ renderTypescriptFromTree localeCompare toUpperCase typeKeyword
         rootTypeName rootTypeTree
       = (join (newline ++ newline)
               ([header] ++ namedTypeDefinitions st
                ++ [declaration typeKeyword (rootTypeName, rootBody)])
          ++ newline)%string
    /\ NoDup (map snd (objectNodeToTypeName st))
    /\ ~ In rootTypeName (map snd (objectNodeToTypeName st))
    /\ namedTypeDefinitions st = map (declaration typeKeyword) nested
    /\ Permutation (map fst nested) (map snd (objectNodeToTypeName st))
    /\ NoDup (map fst nested)
    /\ ~ In rootTypeName (map fst nested).
Proof.
  unfold renderTypescriptFromTree.
  pose proof (proj1 (Extending_renderTypeNode rootTypeTree) rootTypeName false []
                (mkRenderState [] [] [rootTypeName])) as H.
  destruct (renderNode rootTypeTree rootTypeName false []
              (mkRenderState [] [] [rootTypeName])) as [rootBody st].
  cbn [snd] in H. destruct H as [d [m [D [Mm [Pm [Nd [Fr _]]]]]]].
  cbn [namedTypeDefinitions objectNodeToTypeName usedTypeNames app] in D, Mm, Fr.
  rewrite app_nil_r in Mm.
  exists rootBody, st, d. rewrite Mm.
  split; [reflexivity|]. split; [reflexivity|].
  split; [exact Nd|].
  assert (Hroot : ~ In rootTypeName (map snd m)).
  { intros Hin. apply (proj1 (Fr _ Hin)). now left. }
  split; [exact Hroot|]. split; [exact D|]. split; [exact Pm|]. split.
  - eapply Permutation_NoDup; [symmetry; exact Pm | exact Nd].
  - intros Hin. apply Hroot. exact (Permutation_in _ Pm Hin).
Qed.

End Declarations.
